(** * spif.in: the client-side behaviour layer, embedded and verified

    The repository ships two versions of one script.  [src/js/main.js]
    (module [MainJs]) uses a scroll listener for the sticky header, a
    fixed per-frame increment for the counters and Swiper carousels.
    [src/unnamed/part_000] (module [Part000]) uses an intersection
    observer for the sticky header, timestamp interpolation for the
    counters and buttons that scroll a CSS carousel.  The theme toggle and
    the reveal observer are the same text in both files.

    Module [Host] models what the browser supplies (strings, numbers,
    class lists, observers); the two script modules follow the source
    statement by statement on top of it. *)

From Stdlib Require Import ZArith QArith Qabs Qround Qpower String Ascii List Bool Lia Lqa Sorted.
From Stdlib Require Import Floats.
From stdpp Require Import base gmap sets list strings.

Local Open Scope Z_scope.

(* ================================================================== *)
(** * The host: JavaScript values and browser objects                   *)
(* ================================================================== *)

Module Host.

(** ** Strings *)

(** JavaScript's ToBoolean on a string: only the empty string is falsy. *)
Definition truthy_string (s : string) : bool :=
  match s with EmptyString => false | String _ _ => true end.

(** ToBoolean on a value that is [null] or a string, as returned by
    [localStorage.getItem] and [getAttribute]. *)
Definition truthy (v : option string) : bool :=
  match v with None => false | Some s => truthy_string s end.

Definition is_digit (c : ascii) : bool :=
  let n := N_of_ascii c in ((48 <=? n) && (n <=? 57))%N.

Definition is_comma (c : ascii) : bool := (N_of_ascii c =? 44)%N.

Fixpoint filter_chars (keep : ascii -> bool) (s : string) : string :=
  match s with
  | EmptyString => EmptyString
  | String c r => if keep c then String c (filter_chars keep r) else filter_chars keep r
  end.

(** [s.replace(/[^0-9]/g, '')]: every character that is not a digit is
    dropped. *)
Definition replace_non_digits (s : string) : string := filter_chars is_digit s.

(** [s.replace(/[0-9,]/g, '')]: every digit and every comma is dropped. *)
Definition replace_digits_commas (s : string) : string :=
  filter_chars (fun c => negb (is_digit c || is_comma c)) s.

Definition digit_value (c : ascii) : Z := Z.of_N (N_of_ascii c) - 48.

Fixpoint digits_value (acc : Z) (s : string) : Z :=
  match s with
  | EmptyString => acc
  | String c r => digits_value (10 * acc + digit_value c) r
  end.

(** The mathematical value [parseInt(s, 10)] reads from a string of
    digits; [None] is the empty string, where [parseInt] answers NaN. *)
Definition parse_digits (s : string) : option Z :=
  match s with
  | EmptyString => None
  | _ => Some (digits_value 0 s)
  end.

(** ** Decimal rendering with en-US digit grouping *)

Definition digit_char (d : Z) : ascii := ascii_of_N (Z.to_N (48 + d)).

(** The decimal digits of [z >= 0], least significant first.  The fuel
    bounds the number of digits. *)
Fixpoint digits_rev (fuel : nat) (z : Z) : list Z :=
  match fuel with
  | O => []
  | S f => if z <? 10 then [z] else (z mod 10) :: digits_rev f (z / 10)
  end.

Definition digit_fuel (z : Z) : nat := S (Z.to_nat (Z.log2 z)).

(** A comma after every third digit, counted from the least significant. *)
Fixpoint group3 (k : nat) (ds : list Z) (acc : string) : string :=
  match ds with
  | [] => acc
  | d :: r =>
      match k with
      | 3%nat => group3 1 r (String (digit_char d) (String ","%char acc))
      | _ => group3 (S k) r (String (digit_char d) acc)
      end
  end.

Definition group_nonneg (z : Z) : string := group3 0 (digits_rev (digit_fuel z) z) "".

(** [n.toLocaleString()] for an integer [n] in the en-US locale. *)
Definition group_int (z : Z) : string :=
  if z <? 0 then String "-"%char (group_nonneg (- z)) else group_nonneg z.

Fixpoint plain_digits (ds : list Z) (acc : string) : string :=
  match ds with
  | [] => acc
  | d :: r => plain_digits r (String (digit_char d) acc)
  end.

(** The fraction digits en-US prints by default: at most three, rounded
    half away from zero, trailing zeros removed.  [m] is the fraction in
    thousandths, [0 <= m < 1000]. *)
Definition fraction_digits (m : Z) : string :=
  if m =? 0 then ""
  else
    let d1 := m / 100 in
    let d2 := (m / 10) mod 10 in
    let d3 := m mod 10 in
    let tail :=
      if d3 =? 0 then (if d2 =? 0 then [d1] else [d2; d1]) else [d3; d2; d1] in
    String "."%char (plain_digits tail "").

(** [q.toLocaleString()] for a rational [q] in the en-US locale. *)
Definition group_rational (q : Q) : string :=
  let neg := Qnum q <? 0 in
  let a := Qabs q in
  let thousandths := Qfloor (a * 1000 + (1 # 2))%Q in
  let body := (group_nonneg (thousandths / 1000) ++ fraction_digits (thousandths mod 1000))%string in
  if neg then String "-"%char body else body.

(** ** Numbers

    The script computes with JavaScript numbers.  [Number] lists the
    operations it uses.  Two instances follow.  [ieee_number] is the
    binary64 arithmetic the browser runs: concrete animations are
    evaluated on it, and what holds of every input is derived from the
    specification of its operations in [SpecFloat].  [exact_number],
    rationals extended by NaN, leaves rounding out: what is proved on it
    alone describes the script up to rounding.
    [toLocaleString] is the one of a browser whose locale is en-US. *)

Class Number (num : Type) := {
  nan : num;
  of_Z : Z -> num;
  add : num -> num -> num;
  sub : num -> num -> num;
  mul : num -> num -> num;
  div : num -> num -> num;
  lt : num -> num -> bool;
  math_min : num -> num -> num;
  math_floor : num -> num;
  math_ceil : num -> num;
  toLocaleString : num -> string;
  to_boolean : num -> bool
}.

(** [parseInt(s, 10)] on a string of digits. *)
Definition parseInt {num : Type} `{Number num} (s : string) : num :=
  match parse_digits s with
  | None => nan
  | Some z => of_Z z
  end.

(** *** Exact arithmetic *)

Inductive exact : Type :=
| ENaN
| EFin (q : Q).

Definition exact_lift2 (f : Q -> Q -> Q) (a b : exact) : exact :=
  match a, b with
  | EFin x, EFin y => EFin (Qred (f x y))
  | _, _ => ENaN
  end.

(** The script divides by the constants 16 and 2000 only; a zero divisor,
    where JavaScript answers an infinity, is outside this instance. *)
Definition exact_div (a b : exact) : exact :=
  match a, b with
  | EFin x, EFin y => if Qeq_bool y 0 then ENaN else EFin (Qred (x / y))
  | _, _ => ENaN
  end.

Definition Qltb (x y : Q) : bool := negb (Qle_bool y x).

Definition exact_lt (a b : exact) : bool :=
  match a, b with
  | EFin x, EFin y => Qltb x y
  | _, _ => false
  end.

Definition exact_min (a b : exact) : exact :=
  match a, b with
  | EFin x, EFin y => if Qltb y x then EFin y else EFin x
  | _, _ => ENaN
  end.

Definition exact_round (r : Q -> Z) (a : exact) : exact :=
  match a with
  | EFin x => EFin (inject_Z (r x))
  | ENaN => ENaN
  end.

Definition exact_toLocaleString (a : exact) : string :=
  match a with
  | ENaN => "NaN"
  | EFin x => group_rational x
  end.

Definition exact_to_boolean (a : exact) : bool :=
  match a with
  | ENaN => false
  | EFin x => negb (Qeq_bool x 0)
  end.

#[export] Instance exact_number : Number exact := {
  nan := ENaN;
  of_Z z := EFin (inject_Z z);
  add := exact_lift2 Qplus;
  sub := exact_lift2 Qminus;
  mul := exact_lift2 Qmult;
  div := exact_div;
  lt := exact_lt;
  math_min := exact_min;
  math_floor := exact_round Qfloor;
  math_ceil := exact_round Qceiling;
  toLocaleString := exact_toLocaleString;
  to_boolean := exact_to_boolean
}.

(** *** IEEE 754 binary64 *)

Definition ieee_of_Z (z : Z) : float :=
  SF2Prim (binary_normalize prec emax z 0 false).

(** [Math.min]: NaN if either argument is NaN, and -0 below +0. *)
Definition ieee_min (a b : float) : float :=
  if is_nan a || is_nan b then PrimFloat.nan
  else if PrimFloat.ltb b a then b
  else if PrimFloat.ltb a b then a
  else if get_sign a then a else b.

(** The value of a finite float with mantissa [m] and exponent [e < 0],
    rounded to an integer downwards ([up = false]) or upwards. *)
Definition round_magnitude (up : bool) (m : positive) (e : Z) : Z :=
  let d := 2 ^ (- e) in
  if up then (Z.pos m + d - 1) / d else Z.pos m / d.

Definition ieee_round (ceil : bool) (x : float) : float :=
  match Prim2SF x with
  | S754_finite s m e =>
      if 0 <=? e then x
      else
        let z := round_magnitude (xorb ceil s) m e in
        if s then (if z =? 0 then neg_zero else PrimFloat.opp (ieee_of_Z z))
        else ieee_of_Z z
  | _ => x
  end.

Definition infinity_sign : string :=
  String (ascii_of_N 226) (String (ascii_of_N 136) (String (ascii_of_N 158) EmptyString)).

(** From 2 to the power 53 on a double [m * 2^e] has [e > 0], it is an
    integer, and other integers read back as the same double.  Whether
    [c] does: it is closer to the double than to its neighbours, or
    halfway when [m] is even.  The distances are taken times four. *)
Definition reads_back (m : positive) (e : Z) (c : Z) : bool :=
  let x := Z.pos m * 2 ^ e in
  let below := if Z.pos m =? 2 ^ 52 then 2 ^ e else 2 ^ (e + 1) in
  let above := 2 ^ (e + 1) in
  if Z.even (Z.pos m)
  then (4 * x - below <=? 4 * c) && (4 * c <=? 4 * x + above)
  else (4 * x - below <? 4 * c) && (4 * c <? 4 * x + above).

(** The integer with the fewest significant digits that reads back as
    the double, the closest to it if there are several, an even last
    digit on a tie: the digits a browser prints, followed by zeros.  The
    search goes from [j] trailing zeros down to none. *)
Fixpoint shortest_from (j : nat) (m : positive) (e : Z) : Z :=
  let x := Z.pos m * 2 ^ e in
  match j with
  | O => x
  | S j' =>
      let p := 10 ^ Z.of_nat j in
      let a := x / p * p in
      let b := a + p in
      let ia := reads_back m e a && (0 <? a) in
      let ib := reads_back m e b in
      if ia && ib then
        if x - a <? b - x then a
        else if b - x <? x - a then b
        else if Z.even (a / p) then a else b
      else if ia then a
      else if ib then b
      else shortest_from j' m e
  end.

Definition shortest_integer (m : positive) (e : Z) : Z :=
  shortest_from (digit_fuel (Z.pos m * 2 ^ e)) m e.

(** [x.toLocaleString()]: an integer below 2 to the power 53 prints its
    digits; a larger double the digits of [shortest_integer]; a fraction
    is rounded to three places from its exact value, which the script,
    printing integers only, does not come to. *)
Definition ieee_toLocaleString (x : float) : string :=
  match Prim2SF x with
  | S754_nan => "NaN"
  | S754_infinity s => if s then String "-"%char infinity_sign else infinity_sign
  | S754_zero s => if s then "-0" else "0"
  | S754_finite s m e =>
      if 0 <? e then
        let c := shortest_integer m e in
        group_int (if s then - c else c)
      else
        let q := (inject_Z (Z.pos m) * Qpower 2 e)%Q in
        group_rational (if s then Qopp q else q)
  end.

Definition ieee_to_boolean (x : float) : bool := negb (is_nan x || is_zero x).

#[export] Instance ieee_number : Number float := {
  nan := PrimFloat.nan;
  of_Z := ieee_of_Z;
  add := PrimFloat.add;
  sub := PrimFloat.sub;
  mul := PrimFloat.mul;
  div := PrimFloat.div;
  lt := PrimFloat.ltb;
  math_min := ieee_min;
  math_floor := ieee_round false;
  math_ceil := ieee_round true;
  toLocaleString := ieee_toLocaleString;
  to_boolean := ieee_to_boolean
}.

(** ** Browser objects *)

(** How a call ends: it returns, or it throws. *)
Inductive outcome (A : Type) : Type :=
| Returned (a : A)
| Threw (error : string).
Arguments Returned {A} a.
Arguments Threw {A} error.

Definition and_then {A B : Type} (o : outcome A) (k : A -> outcome B) : outcome B :=
  match o with
  | Returned a => k a
  | Threw e => Threw e
  end.

(** A [DOMTokenList]. *)
Definition classList_add (c : string) (l : gset string) : gset string := {[ c ]} ∪ l.
Definition classList_remove (c : string) (l : gset string) : gset string := l ∖ {[ c ]}.
Definition classList_contains (c : string) (l : gset string) : bool := bool_decide (c ∈ l).
Definition classList_toggle (c : string) (l : gset string) : gset string :=
  if classList_contains c l then classList_remove c l else classList_add c l.
Definition classList_toggle_force (c : string) (force : bool) (l : gset string) : gset string :=
  if force then classList_add c l else classList_remove c l.

(** An [IntersectionObserverEntry].  The elements a controller selects
    with [querySelectorAll] are numbered in document order; [target] is
    that number. *)
Record Entry : Type := { target : nat; isIntersecting : bool }.

(** *** One observer and its callback

    [process i] is what the callback does to an intersecting target [i]
    before it calls [unobserve].  [handled] lists the targets the
    callback has processed, oldest first; the script keeps no such
    list, it is there to count. *)
Section Observer.
Context {Page : Type} (process : nat -> Page -> Page).

Record Watch : Type := {
  page : Page;
  watched : gset nat;
  handled : list nat
}.

Definition observe (i : nat) (w : Watch) : Watch :=
  {| page := page w; watched := {[ i ]} ∪ watched w; handled := handled w |}.

Definition unobserve (i : nat) (w : Watch) : Watch :=
  {| page := page w; watched := watched w ∖ {[ i ]}; handled := handled w |}.

Definition on_entry (w : Watch) (entry : Entry) : Watch :=
  if isIntersecting entry then
    unobserve (target entry)
      {| page := process (target entry) (page w);
         watched := watched w;
         handled := handled w ++ [target entry] |}
  else w.

(** [entries.forEach(entry => ...)] *)
Definition callback (entries : list Entry) (w : Watch) : Watch :=
  foldl on_entry w entries.

(** The browser reports on watched targets only: entries of a batch
    whose target is not watched when the batch is delivered are not
    part of it. *)
Definition notify (batch : list Entry) (w : Watch) : Watch :=
  callback (filter (fun e => target e ∈ watched w) batch) w.

(** [new IntersectionObserver(callback)] followed by
    [elements.forEach(el => observer.observe(el))] over [n] elements. *)
Definition observe_all (n : nat) (w : Watch) : Watch :=
  foldl (fun w i => observe i w) w (seq 0 n).
End Observer.

Arguments Watch Page : clear implicits.

End Host.
Import Host.

(* ================================================================== *)
(** * src/js/main.js                                                    *)
(* ================================================================== *)

Module MainJs.

(** ** 1. Sticky header *)

(** [header] is the class list of [#page-header-inner], [None] when the
    document has no such element; [scrollListeners] counts the listeners
    of the window's scroll event. *)
Record StickyPage : Type := {
  header : option (gset string);
  scrollListeners : nat
}.

Definition stickyPoint : Q := 10.

(** The scroll listener, at [window.scrollY = scrollY]. *)
Definition on_scroll (scrollY : Q) (classList : gset string) : gset string :=
  if Qltb stickyPoint scrollY then classList_add "is-sticky" classList
  else classList_remove "is-sticky" classList.

Definition initStickyHeader (p : StickyPage) : outcome StickyPage :=
  match header p with
  | None => Returned p
  | Some _ =>
      Returned {| header := header p; scrollListeners := S (scrollListeners p) |}
  end.

(** The browser fires a scroll event: every listener runs. *)
Definition scroll (scrollY : Q) (p : StickyPage) : StickyPage :=
  {| header := Nat.iter (scrollListeners p) (on_scroll scrollY) <$> header p;
     scrollListeners := scrollListeners p |}.

(** ** 2. Theme toggle *)

(** [themeToggleButton]: the document has [#theme-toggle];
    [dataTheme]: the root element's [data-theme] attribute;
    [prefersDark]: what [matchMedia('(prefers-color-scheme: dark)')]
    reports; [clickListeners]: the click listeners of the button. *)
Record ThemePage : Type := {
  themeToggleButton : bool;
  dataTheme : option string;
  localStorage : gmap string string;
  prefersDark : bool;
  clickListeners : nat
}.

Definition applyTheme (theme : string) (p : ThemePage) : ThemePage :=
  {| themeToggleButton := themeToggleButton p;
     dataTheme := Some theme;
     localStorage := <[ "theme" := theme ]> (localStorage p);
     prefersDark := prefersDark p;
     clickListeners := clickListeners p |}.

Definition initialTheme (p : ThemePage) : string :=
  let storedTheme := localStorage p !! "theme" in
  let systemPrefersDark := prefersDark p in
  match storedTheme with
  | Some s => if truthy_string s then s else if systemPrefersDark then "dark" else "light"
  | None => if systemPrefersDark then "dark" else "light"
  end.

Definition add_click_listener (p : ThemePage) : ThemePage :=
  {| themeToggleButton := themeToggleButton p;
     dataTheme := dataTheme p;
     localStorage := localStorage p;
     prefersDark := prefersDark p;
     clickListeners := S (clickListeners p) |}.

Definition initThemeToggle (p : ThemePage) : outcome ThemePage :=
  if negb (themeToggleButton p) then Returned p
  else Returned (add_click_listener (applyTheme (initialTheme p) p)).

(** The click listener of the toggle. *)
Definition on_toggle_click (p : ThemePage) : ThemePage :=
  let currentTheme := dataTheme p in
  let newTheme := if bool_decide (currentTheme = Some "dark") then "light" else "dark" in
  applyTheme newTheme p.

(** A click on the toggle: every listener runs. *)
Definition click_toggle (p : ThemePage) : ThemePage :=
  Nat.iter (clickListeners p) on_toggle_click p.

(** ** 3. Mobile navigation *)

(** An element with id [page-mobile-main-menu]: the anchors inside it, in
    document order, and whether it holds the close button. *)
Record Overlay : Type := {
  links : list string;
  closeButton : bool
}.

Inductive ClickTarget : Type :=
| MenuToggle
| CloseButton (menu : nat)
| Link (menu : nat) (k : nat).

#[export] Instance ClickTarget_eq_dec : EqDecision ClickTarget.
Proof. solve_decision. Defined.

(** The two listener bodies of the controller. *)
Inductive Listener : Type :=
| RemoveOpen
| ToggleOpen.

(** [menuToggle]: the document has [#page-open-mobile-menu];
    [mobileMenus]: the elements with id [page-mobile-main-menu];
    [desktopNav]: the anchors inside [.navigation .menu__container],
    [None] when there is no such container; [body]: the class list of
    the body; [listeners]: the click listeners, oldest first. *)
Record NavPage : Type := {
  menuToggle : bool;
  mobileMenus : list Overlay;
  desktopNav : option (list string);
  body : gset string;
  listeners : list (ClickTarget * Listener)
}.

Definition addEventListener (t : ClickTarget) (l : Listener) (p : NavPage) : NavPage :=
  {| menuToggle := menuToggle p;
     mobileMenus := mobileMenus p;
     desktopNav := desktopNav p;
     body := body p;
     listeners := listeners p ++ [(t, l)] |}.

(** [createElement('div')], id and [appendChild]; then [innerHTML] from
    the desktop navigation's [outerHTML] when there is one; then the
    close button, prepended. *)
Definition create_mobile_menu (p : NavPage) : NavPage :=
  {| menuToggle := menuToggle p;
     mobileMenus := mobileMenus p ++ [ {| links := default [] (desktopNav p); closeButton := true |} ];
     desktopNav := desktopNav p;
     body := body p;
     listeners := listeners p |}.

Definition initMobileNav (p : NavPage) : outcome NavPage :=
  if negb (menuToggle p) then Returned p
  else
    let p :=
      match mobileMenus p with
      | _ :: _ => p
      | [] => addEventListener (CloseButton 0) RemoveOpen (create_mobile_menu p)
      end in
    Returned (addEventListener MenuToggle ToggleOpen p).

Definition run_listener (l : Listener) (classList : gset string) : gset string :=
  match l with
  | RemoveOpen => classList_remove "mobile-menu-is-open" classList
  | ToggleOpen => classList_toggle "mobile-menu-is-open" classList
  end.

(** A click on [t]: the listeners bound to [t] run, oldest first. *)
Definition click (t : ClickTarget) (p : NavPage) : NavPage :=
  {| menuToggle := menuToggle p;
     mobileMenus := mobileMenus p;
     desktopNav := desktopNav p;
     body := foldl (fun cl tl => if bool_decide (tl.1 = t) then run_listener tl.2 cl else cl)
               (body p) (listeners p);
     listeners := listeners p |}.

(** ** 4. Scroll-triggered animations *)

(** The class lists of the [.scroll-animate] elements. *)
Definition animate (i : nat) (animatedElements : list (gset string)) : list (gset string) :=
  alter (classList_add "is-animated") i animatedElements.

Definition initScrollAnimations (w : Watch (list (gset string))) : outcome (Watch (list (gset string))) :=
  let animatedElements := page w in
  if (length animatedElements =? 0)%nat then Returned w
  else Returned (observe_all (length animatedElements) w).

Definition reveal_notify := notify animate.

(** ** 5. Animated number counters *)

Section Counters.
Context {num : Type} `{Number num}.

(** The closure [updateCount] with the variables it captures. *)
Record Animation : Type := {
  counter : nat;
  target_value : num;
  suffix : string;
  increment : num;
  current : num
}.

(** [innerText]: the texts of the [.impact-card__number] elements;
    [frameRequests]: the callbacks passed to [requestAnimationFrame]
    and not yet run. *)
Record CounterPage : Type := {
  innerText : list string;
  frameRequests : list Animation
}.

Definition set_innerText (i : nat) (text : string) (p : CounterPage) : CounterPage :=
  {| innerText := <[ i := text ]> (innerText p); frameRequests := frameRequests p |}.

Definition requestAnimationFrame (a : Animation) (p : CounterPage) : CounterPage :=
  {| innerText := innerText p; frameRequests := frameRequests p ++ [a] |}.

Definition updateCount (a : Animation) (p : CounterPage) : CounterPage :=
  let current := add (current a) (increment a) in
  if lt current (target_value a) then
    requestAnimationFrame
      {| counter := counter a; target_value := target_value a; suffix := suffix a;
         increment := increment a; current := current |}
      (set_innerText (counter a) (toLocaleString (math_ceil current)) p)
  else
    set_innerText (counter a) (toLocaleString (target_value a) ++ suffix a)%string p.

(** The body of the observer callback for an intersecting [counter]. *)
Definition count_up (counter : nat) (p : CounterPage) : CounterPage :=
  let targetText := default "" (innerText p !! counter) in
  let target := parseInt (replace_non_digits targetText) in
  let suffix := replace_digits_commas targetText in
  let current := of_Z 0 in
  let duration := of_Z 2000 in
  let increment := div target (div duration (of_Z 16)) in
  requestAnimationFrame
    {| counter := counter; target_value := target; suffix := suffix;
       increment := increment; current := current |} p.

Definition initCounters (w : Watch CounterPage) : outcome (Watch CounterPage) :=
  let counters := innerText (page w) in
  if (length counters =? 0)%nat then Returned w
  else Returned (observe_all (length counters) w).

Definition counter_notify := notify count_up.

(** One animation frame: the browser runs the callbacks requested since
    the last frame; what they request waits for the next one. *)
Definition animationFrame (p : CounterPage) : CounterPage :=
  foldl (fun p a => updateCount a p)
    {| innerText := innerText p; frameRequests := [] |} (frameRequests p).

(** The page after each of the next [n] frames. *)
Fixpoint play (n : nat) (p : CounterPage) : list CounterPage :=
  match n with
  | O => []
  | S n => let p := animationFrame p in p :: play n p
  end.
End Counters.

Arguments Animation num : clear implicits.
Arguments CounterPage num : clear implicits.

(** ** 6. Swiper carousels *)

Record SwiperOptions : Type := {
  loop : bool;
  slidesPerView : Z;
  spaceBetween : Z;
  autoplay : option (Z * bool);
  navigation : option (string * string);
  breakpoints : list (Z * Z)
}.

(** The global [Swiper] when the script runs: undeclared or [undefined]
    ([typeof Swiper] is ['undefined']); a value that is not a
    constructor, on which [new] throws a [TypeError]; or a constructor.
    What the constructor of the library does is not part of this
    repository: [construct container selector options] is [None] when
    the call returns and the error when it throws, [container] telling
    whether the selector matches an element. *)
Inductive SwiperGlobal : Type :=
| SwiperUndefined
| SwiperNotConstructor
| SwiperConstructor (construct : bool -> string -> SwiperOptions -> option string).

(** [testimonial], [logoCarousel]: the document has an element of class
    [tm-testimonial], [tm-logo-carousel] (the script does not look);
    [swiper]: the global [Swiper]; [console]: the warnings logged;
    [swipers]: the calls of [new Swiper(selector, options)] that
    returned. *)
Record CarouselPage : Type := {
  testimonial : bool;
  logoCarousel : bool;
  swiper : SwiperGlobal;
  console : list string;
  swipers : list (string * SwiperOptions)
}.

(** Whether [selector] matches an element of the page. *)
Definition matches (selector : string) (p : CarouselPage) : bool :=
  if String.eqb selector ".tm-testimonial" then testimonial p
  else if String.eqb selector ".tm-logo-carousel" then logoCarousel p
  else false.

(** [new Swiper(selector, options)] *)
Definition new_Swiper (selector : string) (o : SwiperOptions) (p : CarouselPage) :
    outcome CarouselPage :=
  match swiper p with
  | SwiperUndefined => Threw "ReferenceError"
  | SwiperNotConstructor => Threw "TypeError"
  | SwiperConstructor construct =>
      match construct (matches selector p) selector o with
      | Some error => Threw error
      | None =>
          Returned
            {| testimonial := testimonial p; logoCarousel := logoCarousel p;
               swiper := swiper p; console := console p;
               swipers := swipers p ++ [(selector, o)] |}
      end
  end.

Definition console_warn (message : string) (p : CarouselPage) : CarouselPage :=
  {| testimonial := testimonial p; logoCarousel := logoCarousel p;
     swiper := swiper p; console := console p ++ [message];
     swipers := swipers p |}.

(** The object literals of the two calls. *)
Definition testimonial_options : SwiperOptions :=
  {| loop := true; slidesPerView := 1; spaceBetween := 30; autoplay := None;
     navigation := Some (".swiper-button-next", ".swiper-button-prev");
     breakpoints := [(768, 2)] |}.

Definition logo_carousel_options : SwiperOptions :=
  {| loop := true; slidesPerView := 2; spaceBetween := 40;
     autoplay := Some (3000, false); navigation := None;
     breakpoints := [(576, 3); (768, 4); (992, 5)] |}.

Definition initCarousels (p : CarouselPage) : outcome CarouselPage :=
  match swiper p with
  | SwiperUndefined =>
      Returned (console_warn "Swiper library is not loaded. Carousels will not work." p)
  | _ =>
      and_then (new_Swiper ".tm-testimonial" testimonial_options p) (fun p =>
      new_Swiper ".tm-logo-carousel" logo_carousel_options p)
  end.

(** ** The script: every module, once, when the document is ready *)

Record Document (num : Type) : Type := {
  sticky : StickyPage;
  theme : ThemePage;
  nav : NavPage;
  reveal : Watch (list (gset string));
  counters : Watch (CounterPage num);
  carousels : CarouselPage
}.
Arguments sticky {num} d.
Arguments theme {num} d.
Arguments nav {num} d.
Arguments reveal {num} d.
Arguments counters {num} d.
Arguments carousels {num} d.

Definition domContentLoaded {num : Type} `{Number num} (d : Document num) : outcome (Document num) :=
  and_then (initStickyHeader (sticky d)) (fun s =>
  and_then (initThemeToggle (theme d)) (fun t =>
  and_then (initMobileNav (nav d)) (fun n =>
  and_then (initScrollAnimations (reveal d)) (fun r =>
  and_then (initCounters (counters d)) (fun c =>
  and_then (initCarousels (carousels d)) (fun k =>
  Returned {| sticky := s; theme := t; nav := n; reveal := r; counters := c;
              carousels := k |})))))).

End MainJs.

(* ================================================================== *)
(** * src/unnamed/part_000                                              *)
(* ================================================================== *)

Module Part000.

(** ** 1. Sticky header, by intersection observer *)

(** [header]: the class list of [#page-header-inner]; [sentinel]: the
    document has [#header-observer-sentinel]; [observers]: the observers
    watching the sentinel. *)
Record StickyPage : Type := {
  header : option (gset string);
  sentinel : bool;
  observers : nat
}.

Definition initStickyHeader (p : StickyPage) : outcome StickyPage :=
  match header p with
  | None => Returned p
  | Some _ =>
      if negb (sentinel p) then Returned p
      else Returned {| header := header p; sentinel := sentinel p; observers := S (observers p) |}
  end.

(** The observer callback; [entries[0]] of an empty list is [undefined],
    and reading a property of it throws. *)
Definition sticky_callback (entries : list Entry) (classList : gset string) : outcome (gset string) :=
  match entries with
  | [] => Threw "TypeError"
  | entry :: _ =>
      Returned (classList_toggle_force "is-sticky" (negb (isIntersecting entry)) classList)
  end.

(** The browser reports on the sentinel: every observer's callback runs. *)
Definition sentinel_notify (entries : list Entry) (p : StickyPage) : outcome StickyPage :=
  match header p with
  | None => Returned p
  | Some classList =>
      and_then
        (Nat.iter (observers p) (fun o => and_then o (sticky_callback entries))
           (Returned classList))
        (fun classList =>
           Returned {| header := Some classList; sentinel := sentinel p;
                       observers := observers p |})
  end.

(** ** 2. Theme toggle: the text of main.js *)

Definition applyTheme := MainJs.applyTheme.
Definition initThemeToggle := MainJs.initThemeToggle.
Definition on_toggle_click := MainJs.on_toggle_click.
Definition click_toggle := MainJs.click_toggle.

(** ** 3. Mobile navigation *)

Import MainJs (Overlay, ClickTarget, Listener, NavPage).

(** [mobileMenu.querySelectorAll('a').forEach(link => ...)] on the
    overlay numbered [menu], which holds [n] anchors. *)
Definition bind_links (menu n : nat) (p : MainJs.NavPage) : MainJs.NavPage :=
  foldl (fun p k => MainJs.addEventListener (MainJs.Link menu k) MainJs.RemoveOpen p) p (seq 0 n).

Definition initMobileNav (p : MainJs.NavPage) : outcome MainJs.NavPage :=
  if negb (MainJs.menuToggle p) then Returned p
  else
    let p :=
      match MainJs.mobileMenus p with
      | _ :: _ => p
      | [] =>
          let p := MainJs.create_mobile_menu p in
          let p := MainJs.addEventListener (MainJs.CloseButton 0) MainJs.RemoveOpen p in
          bind_links 0 (length (default [] (MainJs.desktopNav p))) p
      end in
    Returned (MainJs.addEventListener MainJs.MenuToggle MainJs.ToggleOpen p).

(** ** 4. Scroll-triggered animations: the text of main.js *)

Definition initScrollAnimations := MainJs.initScrollAnimations.
Definition reveal_notify := MainJs.reveal_notify.

(** ** 5. Animated number counters, by timestamp *)

Section Counters.
Context {num : Type} `{Number num}.

(** The closure [step] with the variables it captures; [startTime] is
    [null] until the first frame. *)
Record Animation : Type := {
  counter : nat;
  target_value : num;
  suffix : string;
  duration : num;
  startTime : option num
}.

Record CounterPage : Type := {
  innerText : list string;
  frameRequests : list Animation
}.

Definition set_innerText (i : nat) (text : string) (p : CounterPage) : CounterPage :=
  {| innerText := <[ i := text ]> (innerText p); frameRequests := frameRequests p |}.

Definition requestAnimationFrame (a : Animation) (p : CounterPage) : CounterPage :=
  {| innerText := innerText p; frameRequests := frameRequests p ++ [a] |}.

(** [if (!startTime) startTime = timestamp]: [null], 0 and NaN are falsy. *)
Definition start_time (a : Animation) (timestamp : num) : num :=
  match startTime a with
  | None => timestamp
  | Some s => if to_boolean s then s else timestamp
  end.

Definition progress_at (a : Animation) (timestamp : num) : num :=
  math_min (div (sub timestamp (start_time a timestamp)) (duration a)) (of_Z 1).

Definition step (timestamp : num) (a : Animation) (p : CounterPage) : CounterPage :=
  let startTime := start_time a timestamp in
  let progress := progress_at a timestamp in
  let current := math_floor (mul progress (target_value a)) in
  let p := set_innerText (counter a) (toLocaleString current) p in
  if lt progress (of_Z 1) then
    requestAnimationFrame
      {| counter := counter a; target_value := target_value a; suffix := suffix a;
         duration := duration a; startTime := Some startTime |} p
  else
    set_innerText (counter a) (toLocaleString (target_value a) ++ suffix a)%string p.

Definition count_up (counter : nat) (p : CounterPage) : CounterPage :=
  let targetText := default "" (innerText p !! counter) in
  let target := parseInt (replace_non_digits targetText) in
  let suffix :=
    let s := replace_digits_commas targetText in if truthy_string s then s else ""%string in
  let p := set_innerText counter "0" p in
  let duration := of_Z 2000 in
  requestAnimationFrame
    {| counter := counter; target_value := target; suffix := suffix;
       duration := duration; startTime := None |} p.

Definition initCounters (w : Watch CounterPage) : outcome (Watch CounterPage) :=
  let counters := innerText (page w) in
  if (length counters =? 0)%nat then Returned w
  else Returned (observe_all (length counters) w).

Definition counter_notify := notify count_up.

(** One animation frame at time [timestamp]. *)
Definition animationFrame (timestamp : num) (p : CounterPage) : CounterPage :=
  foldl (fun p a => step timestamp a p)
    {| innerText := innerText p; frameRequests := [] |} (frameRequests p).

(** The page after each frame of a schedule of timestamps. *)
Fixpoint play (timestamps : list num) (p : CounterPage) : list CounterPage :=
  match timestamps with
  | [] => []
  | t :: r => let p := animationFrame t p in p :: play r p
  end.
End Counters.

Arguments Animation num : clear implicits.
Arguments CounterPage num : clear implicits.

(** ** 6. Testimonial carousel controls *)

(** [scrollLeft]: where the track is asked to scroll to; [slide]: the
    [offsetWidth] of its first [.carousel-slide], [None] without one. *)
Record Track : Type := {
  scrollLeft : Z;
  slide : option Z
}.

Record CarouselPage : Type := {
  track : option Track;
  nextButton : bool;
  prevButton : bool;
  nextListeners : nat;
  prevListeners : nat
}.

Definition scrollCarousel (direction : Z) (t : Track) : Track :=
  match slide t with
  | None => t
  | Some offsetWidth =>
      let scrollAmount := offsetWidth * direction in
      {| scrollLeft := scrollLeft t + scrollAmount; slide := slide t |}
  end.

Definition initTestimonialCarousel (p : CarouselPage) : outcome CarouselPage :=
  match track p with
  | None => Returned p
  | Some _ =>
      if negb (nextButton p) || negb (prevButton p) then Returned p
      else Returned {| track := track p; nextButton := nextButton p; prevButton := prevButton p;
                       nextListeners := S (nextListeners p);
                       prevListeners := S (prevListeners p) |}
  end.

(** A click on the next ([direction = 1]) or the previous
    ([direction = -1]) button: each of its [n] listeners scrolls. *)
Definition click_carousel (direction : Z) (n : nat) (p : CarouselPage) : CarouselPage :=
  {| track := Nat.iter n (scrollCarousel direction) <$> track p;
     nextButton := nextButton p; prevButton := prevButton p;
     nextListeners := nextListeners p; prevListeners := prevListeners p |}.

Definition click_next (p : CarouselPage) : CarouselPage := click_carousel 1 (nextListeners p) p.
Definition click_prev (p : CarouselPage) : CarouselPage := click_carousel (-1) (prevListeners p) p.

(** ** The script: every module, once, when the document is ready *)

Record Document (num : Type) : Type := {
  sticky : StickyPage;
  theme : MainJs.ThemePage;
  nav : MainJs.NavPage;
  reveal : Watch (list (gset string));
  counters : Watch (CounterPage num);
  carousel : CarouselPage
}.
Arguments sticky {num} d.
Arguments theme {num} d.
Arguments nav {num} d.
Arguments reveal {num} d.
Arguments counters {num} d.
Arguments carousel {num} d.

Definition domContentLoaded {num : Type} `{Number num} (d : Document num) : outcome (Document num) :=
  and_then (initStickyHeader (sticky d)) (fun s =>
  and_then (initThemeToggle (theme d)) (fun t =>
  and_then (initMobileNav (nav d)) (fun n =>
  and_then (initScrollAnimations (reveal d)) (fun r =>
  and_then (initCounters (counters d)) (fun c =>
  and_then (initTestimonialCarousel (carousel d)) (fun k =>
  Returned {| sticky := s; theme := t; nav := n; reveal := r; counters := c;
              carousel := k |})))))).

End Part000.


(* ================================================================== *)
(** * The vocabulary of the properties                                  *)
(* ================================================================== *)

Import MainJs.

(** ** Theme *)

(** What the claim about the initial theme says of an initialiser. *)
Definition resolves_initial_theme (init : ThemePage -> outcome ThemePage) : Prop :=
  forall p : ThemePage,
    themeToggleButton p = true ->
    exists p' : ThemePage,
      init p = Returned p' /\
      (localStorage p !! "theme" = None -> prefersDark p = true ->
       dataTheme p' = Some "dark") /\
      (localStorage p !! "theme" = None -> prefersDark p = false ->
       dataTheme p' = Some "light") /\
      (forall s : string,
          localStorage p !! "theme" = Some s -> s <> ""%string ->
          dataTheme p' = Some s).

(** Pages to try the statements on. *)
Definition stored_light_system_dark : ThemePage :=
  {| themeToggleButton := true; dataTheme := None;
     localStorage := {[ "theme"%string := "light"%string ]};
     prefersDark := true; clickListeners := 0 |}.

(** The stored value keeps to the store's contract: nothing, "light" or
    "dark". *)
Definition stored_in_contract (p : ThemePage) : Prop :=
  localStorage p !! "theme" = None \/
  localStorage p !! "theme" = Some "light"%string \/
  localStorage p !! "theme" = Some "dark"%string.

Definition two_valued (q : ThemePage) : Prop :=
  dataTheme q = Some "light"%string \/ dataTheme q = Some "dark"%string.

(** What the claim about toggling says of an initialiser and its click
    dispatch: on a freshly loaded page, after initialisation and any
    number of clicks, two more clicks give back the theme attribute
    whenever it is one of the two themes, which it is after a click and
    when the stored value kept to the contract; and the stored value is
    the attribute. *)
Definition toggles_as_involution
    (init : ThemePage -> outcome ThemePage) (click : ThemePage -> ThemePage) : Prop :=
  forall (p p' : ThemePage) (n : nat),
    themeToggleButton p = true ->
    clickListeners p = 0%nat ->
    init p = Returned p' ->
    let q := Nat.iter n click p' in
    (two_valued q -> dataTheme (click (click q)) = dataTheme q) /\
    (stored_in_contract p \/ (0 < n)%nat -> two_valued q) /\
    localStorage q !! "theme" = dataTheme q.

Definition fresh_theme_page : ThemePage :=
  {| themeToggleButton := true; dataTheme := None; localStorage := ∅;
     prefersDark := true; clickListeners := 0 |}.

(** ** Sticky header, threshold strategy *)

Definition header_only : StickyPage := {| header := Some ∅; scrollListeners := 0 |}.

(** ** Mobile navigation *)

Definition open_class : string := "mobile-menu-is-open".

(** One step of the fold in [click]. *)
Definition run_if (t : ClickTarget) (cl : gset string) (tl : ClickTarget * Listener) : gset string :=
  if bool_decide (tl.1 = t) then run_listener tl.2 cl else cl.

(** What C5, amended, says of an initialiser. *)
Definition builds_overlay_at_init (init : NavPage -> outcome NavPage) : Prop :=
  forall p : NavPage,
    menuToggle p = true -> listeners p = [] ->
    exists p' : NavPage,
      init p = Returned p' /\
      (mobileMenus p = [] -> length (mobileMenus p') = 1%nat) /\
      (mobileMenus p <> [] -> mobileMenus p' = mobileMenus p) /\
      forall ts : list ClickTarget,
        let q := foldl (fun q t => click t q) p' ts in
        mobileMenus q = mobileMenus p' /\
        mobileMenus (click MenuToggle q) = mobileMenus p' /\
        (open_class ∈ body (click MenuToggle q) <-> open_class ∉ body q).

Definition fresh_nav_page : NavPage :=
  {| menuToggle := true; mobileMenus := [];
     desktopNav := Some ["/about"%string; "/contact"%string];
     body := ∅; listeners := [] |}.

(** ** Absent elements *)

(** A [Swiper] whose constructor returns on every call. *)
Definition swiper_loaded : SwiperGlobal := SwiperConstructor (fun _ _ _ => None).

(** A [Swiper] whose constructor throws where the selector matches no
    element. *)
Definition swiper_needs_container : SwiperGlobal :=
  SwiperConstructor (fun container _ _ => if container then None else Some "Error"%string).

Definition no_carousel_elements : MainJs.CarouselPage :=
  {| testimonial := false; logoCarousel := false; swiper := swiper_loaded;
     console := []; swipers := [] |}.

(** The same document when the constructor wants its container. *)
Definition carousels_need_container : MainJs.CarouselPage :=
  {| testimonial := false; logoCarousel := false; swiper := swiper_needs_container;
     console := []; swipers := [] |}.

(** The page after the two calls of [initCarousels] have returned. *)
Definition with_both_carousels (p : MainJs.CarouselPage) : MainJs.CarouselPage :=
  {| testimonial := testimonial p; logoCarousel := logoCarousel p;
     swiper := swiper p; console := console p;
     swipers := swipers p ++ [(".tm-testimonial"%string, testimonial_options);
                              (".tm-logo-carousel"%string, logo_carousel_options)] |}.

(** A document with none of the elements, under part_000: the script
    leaves it as it is. *)
Definition empty_document {num : Type} `{Number num} : Part000.Document num :=
  {| Part000.sticky :=
       {| Part000.header := None; Part000.sentinel := false; Part000.observers := 0 |};
     Part000.theme :=
       {| themeToggleButton := false; dataTheme := None; localStorage := ∅;
          prefersDark := false; clickListeners := 0 |};
     Part000.nav :=
       {| menuToggle := false; mobileMenus := []; desktopNav := None; body := ∅;
          listeners := [] |};
     Part000.reveal := {| page := []; watched := ∅; handled := [] |};
     Part000.counters :=
       {| page := {| Part000.innerText := []; Part000.frameRequests := [] |};
          watched := ∅; handled := [] |};
     Part000.carousel :=
       {| Part000.track := None; Part000.nextButton := false; Part000.prevButton := false;
          Part000.nextListeners := 0; Part000.prevListeners := 0 |} |}.

Definition empty_document_sticky : Part000.StickyPage :=
  {| Part000.header := None; Part000.sentinel := false; Part000.observers := 0 |}.

(** ** One-shot observers *)

(** The targets of the intersecting entries of a list, in order. *)
Fixpoint fired (l : list Entry) : list nat :=
  match l with
  | [] => []
  | e :: r => if isIntersecting e then target e :: fired r else fired r
  end.

(** A batch reports a target as intersecting at most once. *)
Definition one_report_per_target (batch : list Entry) : Prop := NoDup (fired batch).

(** The targets the callback has processed are pairwise distinct and
    none of them is watched any more. *)
Definition once_only {Page : Type} (w : Watch Page) : Prop :=
  NoDup (handled w) /\ forall i : nat, i ∈ handled w -> i ∉ watched w.

(** What C7 says of an observer that starts in [w]: whatever batches the
    browser delivers, no target is processed twice, a processed target
    is no longer watched, and a further report about it changes
    nothing. *)
Definition fires_once {Page : Type} (process : nat -> Page -> Page) (w : Watch Page) : Prop :=
  forall batches : list (list Entry),
    Forall one_report_per_target batches ->
    let w' := foldl (fun w b => notify process b w) w batches in
    NoDup (handled w') /\
    forall i : nat,
      i ∈ handled w' ->
      (i ∉ watched w') /\
      forall b : bool, notify process [ {| target := i; isIntersecting := b |} ] w' = w'.

Definition unobserved {Page : Type} (p : Page) : Watch Page :=
  {| page := p; watched := ∅; handled := [] |}.

Definition two_reveal_targets : list (gset string) := [∅; ∅].

Definition two_batches : list (list Entry) :=
  [ [ {| target := 0; isIntersecting := true |}; {| target := 1; isIntersecting := false |} ];
    [ {| target := 0; isIntersecting := true |}; {| target := 1; isIntersecting := true |} ] ].

(** A target that enters the viewport, leaves it and enters it again
    before the callback runs: one batch with three entries. *)
Definition entered_twice : list Entry :=
  [ {| target := 0; isIntersecting := true |};
    {| target := 0; isIntersecting := false |};
    {| target := 0; isIntersecting := true |} ].

(** How often a list names [i]. *)
Definition times (i : nat) (l : list nat) : nat := length (filter (fun j => j = i) l).

(** How often the first batch that reports [i] as intersecting does
    so. *)
Fixpoint first_report (i : nat) (batches : list (list Entry)) : nat :=
  match batches with
  | [] => 0
  | batch :: rest =>
      if bool_decide (i ∈ fired batch) then times i (fired batch) else first_report i rest
  end.

(** Some batch reports [i] as intersecting. *)
Definition reported (i : nat) (batches : list (list Entry)) : bool :=
  existsb (fun batch => bool_decide (i ∈ fired batch)) batches.

(** An observer over [n] targets that starts in [w] processes a target
    in the first batch that reports it as intersecting, once for each
    entry of that batch that does so, and in no other batch; it
    processes nothing else. *)
Definition fires_at_first_report {Page : Type} (process : nat -> Page -> Page)
    (n : nat) (w : Watch Page) : Prop :=
  forall batches : list (list Entry),
    let w' := foldl (fun w b => notify process b w) w batches in
    (forall i : nat, (i < n)%nat -> times i (handled w') = first_report i batches) /\
    (forall i : nat, (n <= i)%nat -> i ∉ handled w').

(** The targets an observer watches or has processed are among the first
    [n]. *)
Definition within {Page : Type} (n : nat) (w : Watch Page) : Prop :=
  (forall i : nat, i ∈ watched w -> (i < n)%nat) /\
  (forall i : nat, i ∈ handled w -> (i < n)%nat).

(** ** Counters: text without digits *)

(** What the counters need to know of NaN. *)
Record nan_laws {num : Type} (N : Number num) : Prop := {
  lt_nan_r : forall x : num, lt x nan = false;
  add_nan_r : forall x : num, add x nan = nan;
  mul_nan_r : forall x : num, mul x nan = nan;
  div_nan_l : forall y : num, div nan y = nan;
  floor_nan : math_floor nan = nan;
  nan_text : toLocaleString nan = "NaN"%string
}.

Definition no_digits (text : string) : Prop := replace_non_digits text = ""%string.

(** A page whose one counter shows [text], nothing being animated. *)
Definition main_counter {num : Type} `{Number num} (text : string) : MainJs.CounterPage num :=
  {| MainJs.innerText := [text]; MainJs.frameRequests := [] |}.

Definition part_counter {num : Type} `{Number num} (text : string) : Part000.CounterPage num :=
  {| Part000.innerText := [text]; Part000.frameRequests := [] |}.

(** The closures the observer callbacks start on such a page. *)
Definition main_animation {num : Type} `{Number num} (text : string) : MainJs.Animation num :=
  let target := parseInt (replace_non_digits text) in
  {| MainJs.counter := 0; MainJs.target_value := target;
     MainJs.suffix := replace_digits_commas text;
     MainJs.increment := div target (div (of_Z 2000) (of_Z 16));
     MainJs.current := of_Z 0 |}.

Definition part_animation {num : Type} `{Number num} (text : string) : Part000.Animation num :=
  {| Part000.counter := 0; Part000.target_value := parseInt (replace_non_digits text);
     Part000.suffix := replace_digits_commas text;
     Part000.duration := of_Z 2000; Part000.startTime := None |}.

(** What an animation frame shows in part_000 when the target is NaN:
    "NaN" while the animation runs, "NaN" and the suffix once it is over. *)
Definition shows_nan {num : Type} `{Number num} (sfx : string) (p : Part000.CounterPage num) : Prop :=
  (Part000.innerText p = ["NaN"%string] /\ Part000.frameRequests p <> []) \/
  (Part000.innerText p = [("NaN" ++ sfx)%string] /\ Part000.frameRequests p = []).

(** ** Counters in exact arithmetic *)

(** The pages and closures of a single counter, in main.js. *)

Definition main_closure (n : Z) (sfx : string) (i c : Q) : MainJs.Animation exact :=
  {| MainJs.counter := 0; MainJs.target_value := EFin (inject_Z n); MainJs.suffix := sfx;
     MainJs.increment := EFin i; MainJs.current := EFin c |}.

Definition main_running (s : string) (a : MainJs.Animation exact) : MainJs.CounterPage exact :=
  {| MainJs.innerText := [s]; MainJs.frameRequests := [a] |}.

Definition main_done (s : string) : MainJs.CounterPage exact :=
  {| MainJs.innerText := [s]; MainJs.frameRequests := [] |}.

(** The pages and closures of a single counter, in part_000. *)

Definition part_closure (tg : exact) (sfx : string) (st : option Q) : Part000.Animation exact :=
  {| Part000.counter := 0; Part000.target_value := tg; Part000.suffix := sfx;
     Part000.duration := of_Z 2000; Part000.startTime := EFin <$> st |}.

Definition part_running (s : string) (a : Part000.Animation exact) : Part000.CounterPage exact :=
  {| Part000.innerText := [s]; Part000.frameRequests := [a] |}.

Definition part_done (s : string) : Part000.CounterPage exact :=
  {| Part000.innerText := [s]; Part000.frameRequests := [] |}.

(** [startTime] after the test [if (!startTime) startTime = timestamp]. *)
Definition start_of (st : option Q) (t : Q) : Q :=
  match st with
  | None => t
  | Some s => if Qeq_bool s 0 then t else s
  end.

(** The elapsed fraction of the duration, before it is capped at 1. *)
Definition elapsed_fraction (st : option Q) (t : Q) : Q :=
  Qred (Qred (t - start_of st t) / inject_Z 2000).

(** ** Counters in binary64 *)

(** The value of the mantissa [m] at the exponent [e]. *)
Definition pow2 (e : Z) : Q := (2 ^ e)%Q.

Definition F2Q (m e : Z) : Q := (inject_Z m * pow2 e)%Q.

(** A double that is finite and positive, of value [v]. *)
Definition finite_pos (x : float) (v : Q) : Prop :=
  exists (m : positive) (e : Z), Prim2SF x = S754_finite false m e /\ (v == F2Q (Z.pos m) e)%Q.

Definition plus_infinity (x : float) : Prop := Prim2SF x = S754_infinity false.

(** The relative error of one rounding is at most [eps], which is 2 to
    the power -52. *)
Definition eps : Q := 1 # 4503599627370496.

(** What one rounding keeps at least, coarsely:
    [(1 + eps) * loss <= 1]. *)
Definition loss : Q := 1 - (1 # 65536).

(** The share of the target that main.js has accumulated at least after
    the first frame, and after [k] frames more. *)
Definition first_share : Q := loss * loss * (1 # 125).

Fixpoint share (k : nat) : Q :=
  match k with
  | O => first_share
  | S k => (share k + first_share) * loss
  end.

(** [duration / 16] of main.js. *)
Definition duration_over_16 : float := PrimFloat.div (ieee_of_Z 2000) (ieee_of_Z 16).

(** The pages and closures of a single counter in binary64. *)

Definition main_ieee_closure (T : float) (sfx : string) (i c : float) : MainJs.Animation float :=
  {| MainJs.counter := 0; MainJs.target_value := T; MainJs.suffix := sfx;
     MainJs.increment := i; MainJs.current := c |}.

Definition main_ieee_running (s : string) (a : MainJs.Animation float) : MainJs.CounterPage float :=
  {| MainJs.innerText := [s]; MainJs.frameRequests := [a] |}.

Definition main_ieee_done (s : string) : MainJs.CounterPage float :=
  {| MainJs.innerText := [s]; MainJs.frameRequests := [] |}.

Definition part_ieee_closure (T : float) (sfx : string) (st : option float) : Part000.Animation float :=
  {| Part000.counter := 0; Part000.target_value := T; Part000.suffix := sfx;
     Part000.duration := ieee_of_Z 2000; Part000.startTime := st |}.

Definition part_ieee_running (s : string) (a : Part000.Animation float) : Part000.CounterPage float :=
  {| Part000.innerText := [s]; Part000.frameRequests := [a] |}.

Definition part_ieee_done (s : string) : Part000.CounterPage float :=
  {| Part000.innerText := [s]; Part000.frameRequests := [] |}.

(** ** Counters: runs of frames *)

(** What a frame leaves to see: the texts, and whether another frame is
    requested. *)
Definition pending {A : Type} (requests : list A) : bool :=
  match requests with [] => false | _ :: _ => true end.

Definition main_view {num : Type} `{Number num} (p : MainJs.CounterPage num) : list string * bool :=
  (MainJs.innerText p, pending (MainJs.frameRequests p)).

Definition part_view {num : Type} `{Number num} (p : Part000.CounterPage num) : list string * bool :=
  (Part000.innerText p, pending (Part000.frameRequests p)).

(** A run of frames that counts up: while the animation is pending each
    frame shows a grouped integer, at least the one before (at least [lo]
    to begin with) and at most [hi]; once it is over the frames show
    [final] and request nothing. *)
Inductive counts_up (final : string) (hi : Z) : Z -> list (list string * bool) -> Prop :=
| counts_nil (lo : Z) : counts_up final hi lo []
| counts_frame (lo v : Z) (rest : list (list string * bool)) :
    lo <= v <= hi -> counts_up final hi v rest ->
    counts_up final hi lo (([group_int v], true) :: rest)
| counts_done (lo : Z) (rest : list (list string * bool)) :
    Forall (fun o => o = ([final], false)) rest -> counts_up final hi lo rest.

(** The integer part_000 shows for "1,234+" at time [t]. *)
Definition shown_value (st : option Q) (t : Q) : Z :=
  Qfloor (Qred (elapsed_fraction st t * inject_Z 1234)).

Definition target_1234 : exact := EFin (inject_Z 1234).

(** The frames main.js renders for "1,234+" in binary64. *)
Definition main_1234_frames : list (list string * bool) :=
  map main_view (MainJs.play 126 (MainJs.count_up 0 (@main_counter float ieee_number "1,234+"))).

(** The frames part_000 renders for "1,234+" in binary64 when a frame
    comes every 16 ms, from 1000 ms to 3016 ms. *)
Definition part_1234_frames_16ms : list (list string * bool) :=
  map part_view
    (Part000.play (map (fun k => ieee_of_Z (1000 + 16 * Z.of_nat k)) (seq 0 127))
       (Part000.count_up 0 (@part_counter float ieee_number "1,234+"))).

(** ** Further pages and schemes *)

(** A page with the header and the sentinel, not yet observed. *)
Definition header_and_sentinel : Part000.StickyPage :=
  {| Part000.header := Some ∅; Part000.sentinel := true; Part000.observers := 0 |}.

(** The state after the clicks [ts], oldest first. *)
Definition after_clicks (ts : list ClickTarget) (p : NavPage) : NavPage :=
  foldl (fun q t => click t q) p ts.

(** On a fresh page without an overlay, a click on the close button of
    the overlay the controller builds closes the menu, whatever was
    clicked before. *)
Definition close_button_closes (init : NavPage -> outcome NavPage) : Prop :=
  forall (p : NavPage) (ts : list ClickTarget),
    menuToggle p = true -> listeners p = [] -> mobileMenus p = [] ->
    exists p' : NavPage,
      init p = Returned p' /\
      open_class ∉ body (click (CloseButton 0) (after_clicks ts p')).

(** On a page that comes with an overlay, only the open control is bound:
    a click on anything else changes no class of the body. *)
Definition given_overlay_is_not_bound (init : NavPage -> outcome NavPage) : Prop :=
  forall (p : NavPage) (ts : list ClickTarget) (t : ClickTarget),
    menuToggle p = true -> listeners p = [] -> mobileMenus p <> [] ->
    t <> MenuToggle ->
    exists p' : NavPage,
      init p = Returned p' /\
      body (click t (after_clicks ts p')) = body (after_clicks ts p').

Definition nav_page_with_overlay : NavPage :=
  {| menuToggle := true;
     mobileMenus := [ {| links := ["/about"%string]; closeButton := true |} ];
     desktopNav := Some ["/about"%string];
     body := {[ "mobile-menu-is-open"%string ]}; listeners := [] |}.

(** A carousel with track and buttons, nothing bound yet. *)
Definition carousel_page (t : Part000.Track) : Part000.CarouselPage :=
  {| Part000.track := Some t; Part000.nextButton := true; Part000.prevButton := true;
     Part000.nextListeners := 0; Part000.prevListeners := 0 |}.

(** A click on the next button ([true]) or on the previous one. *)
Definition carousel_click (p : Part000.CarouselPage) (next : bool) : Part000.CarouselPage :=
  if next then Part000.click_next p else Part000.click_prev p.

(** Next clicks minus previous clicks. *)
Fixpoint net_clicks (clicks : list bool) : Z :=
  match clicks with
  | [] => 0
  | true :: r => net_clicks r + 1
  | false :: r => net_clicks r - 1
  end.

(** What the reveal observer has done to the element numbered [i], whose
    class list was [cl] when the page was loaded. *)
Definition revealed (w : Watch (list (gset string))) (i : nat) (cl : gset string) : gset string :=
  if bool_decide (i ∈ handled w) then classList_add "is-animated" cl else cl.

(** An observer over [n] targets that starts in [w] handles a target at
    the first batch that reports it as intersecting, and stops watching
    it. *)
Definition handles_reports {Page : Type} (process : nat -> Page -> Page)
    (n : nat) (w : Watch Page) : Prop :=
  forall (batches : list (list Entry)) (batch : list Entry) (i : nat),
    (i < n)%nat -> i ∈ fired batch ->
    let w' := notify process batch (foldl (fun w b => notify process b w) w batches) in
    i ∈ handled w' /\ i ∉ watched w'.

(** Every target below [n] is watched or has been handled, and none is
    both. *)
Definition covers {Page : Type} (n : nat) (w : Watch Page) : Prop :=
  (forall i : nat, (i < n)%nat -> i ∈ watched w \/ i ∈ handled w) /\
  (forall i : nat, i ∈ handled w -> i ∉ watched w).

Definition three_counters : MainJs.CounterPage float :=
  {| MainJs.innerText := ["12"%string; "7%"%string; "1,000+"%string];
     MainJs.frameRequests := [] |}.

Definition stored_empty_system_dark : ThemePage :=
  {| themeToggleButton := true; dataTheme := None;
     localStorage := {[ "theme"%string := ""%string ]};
     prefersDark := true; clickListeners := 0 |}.

(** The page a reload finds after [q]: the attribute is gone, the store
    is kept. *)
Definition reloaded (q : ThemePage) (systemPrefersDark : bool) : ThemePage :=
  {| themeToggleButton := true; dataTheme := None; localStorage := localStorage q;
     prefersDark := systemPrefersDark; clickListeners := 0 |}.

(** An animation frame writes the texts of the counters being animated
    and no other: the text numbered [j], which no pending callback
    animates, is left alone, the number of texts stays, and no callback
    for [j] is requested. *)
Definition frame_keeps {Page Closure : Type}
    (texts : Page -> list string) (requests : Page -> list Closure)
    (counter_of : Closure -> nat) (frame : Page -> Page) : Prop :=
  forall (p : Page) (j : nat),
    Forall (fun a => counter_of a <> j) (requests p) ->
    texts (frame p) !! j = texts p !! j /\
    length (texts (frame p)) = length (texts p) /\
    Forall (fun a => counter_of a <> j) (requests (frame p)).

(** A string without digits and without commas. *)
Fixpoint plain (s : string) : bool :=
  match s with
  | EmptyString => true
  | String c r => negb (is_digit c || is_comma c) && plain r
  end.

(** The number whose decimal digits, least significant first, are [ds]. *)
Fixpoint le_value (ds : list Z) : Z :=
  match ds with
  | [] => 0
  | d :: r => d + 10 * le_value r
  end.

(** The frames of a schedule, run one after the other. *)
Definition part_frames (ts : list Q) (p : Part000.CounterPage exact) : Part000.CounterPage exact :=
  foldl (fun p t => Part000.animationFrame (EFin t) p) p ts.

(* ================================================================== *)
(** * Properties                                                        *)
(* ================================================================== *)

(** ** Class lists *)

Lemma classList_remove_absent (c : string) (cl : gset string) : c ∉ classList_remove c cl.
Proof.
  unfold classList_remove. intros [_ Hn]%elem_of_difference.
  apply Hn, elem_of_singleton. reflexivity.
Qed.

Lemma classList_add_present (c : string) (cl : gset string) : c ∈ classList_add c cl.
Proof. unfold classList_add. apply elem_of_union. left. apply elem_of_singleton. reflexivity. Qed.

(** ** Theme *)

Lemma applyTheme_dataTheme theme p : dataTheme (applyTheme theme p) = Some theme.
Proof. reflexivity. Qed.

Lemma applyTheme_persisted theme p :
  localStorage (applyTheme theme p) !! "theme" = dataTheme (applyTheme theme p).
Proof. cbn. apply lookup_insert_eq. Qed.

Lemma on_toggle_click_persisted p :
  localStorage (on_toggle_click p) !! "theme" = dataTheme (on_toggle_click p).
Proof. apply applyTheme_persisted. Qed.

Lemma on_toggle_click_listeners p : clickListeners (on_toggle_click p) = clickListeners p.
Proof. reflexivity. Qed.

Lemma on_toggle_click_two_valued p :
  dataTheme (on_toggle_click p) = Some "light"%string \/
  dataTheme (on_toggle_click p) = Some "dark"%string.
Proof. unfold on_toggle_click. case_bool_decide; [left | right]; reflexivity. Qed.

Lemma click_toggle_single p :
  clickListeners p = 1%nat -> click_toggle p = on_toggle_click p.
Proof. intros E. unfold click_toggle. rewrite E. reflexivity. Qed.

Lemma clicks_listeners n p :
  clickListeners p = 1%nat -> clickListeners (Nat.iter n click_toggle p) = 1%nat.
Proof.
  intros E. induction n as [|n IH]; [exact E|].
  rewrite Nat.iter_succ, (click_toggle_single _ IH). exact IH.
Qed.

Lemma on_toggle_click_involutive p :
  dataTheme p = Some "light" \/ dataTheme p = Some "dark" ->
  dataTheme (on_toggle_click (on_toggle_click p)) = dataTheme p.
Proof. intros [E | E]; unfold on_toggle_click; cbn; rewrite E; reflexivity. Qed.

Lemma initThemeToggle_resolves : resolves_initial_theme initThemeToggle.
Proof.
  intros p Hb. unfold initThemeToggle. rewrite Hb. cbn [negb].
  eexists. split; [reflexivity|]. cbn [dataTheme add_click_listener applyTheme].
  unfold initialTheme.
  split; [|split].
  - intros -> ->. reflexivity.
  - intros -> ->. reflexivity.
  - intros s -> Hs. destruct s; [congruence | reflexivity].
Qed.

(** C1. On initialisation of the theme controller (the toggle button is
    in the document): with nothing stored and a system preference for
    dark the applied theme is "dark"; with nothing stored and no such
    preference it is "light"; a stored preference (a non-empty string) is
    applied whatever the system prefers, [prefersDark] being free in the
    last part.  Both files. *)
Theorem initial_theme_resolution :
  resolves_initial_theme MainJs.initThemeToggle /\
  resolves_initial_theme Part000.initThemeToggle.
Proof. split; exact initThemeToggle_resolves. Qed.

Lemma initial_theme_resolution_witness :
  exists p' : ThemePage,
    MainJs.initThemeToggle stored_light_system_dark = Returned p' /\
    dataTheme p' = Some "light"%string.
Proof.
  destruct (proj1 initial_theme_resolution stored_light_system_dark eq_refl)
    as (p' & Hinit & _ & _ & Hstored).
  exists p'. split; [exact Hinit|].
  apply (Hstored "light"%string); [vm_compute; reflexivity | discriminate].
Defined.

Lemma initialTheme_two_valued (p : ThemePage) :
  stored_in_contract p ->
  initialTheme p = "light"%string \/ initialTheme p = "dark"%string.
Proof.
  unfold initialTheme. intros [E | [E | E]]; rewrite E.
  - destruct (prefersDark p); [right | left]; reflexivity.
  - left. reflexivity.
  - right. reflexivity.
Qed.

Lemma toggle_involution_main : toggles_as_involution initThemeToggle click_toggle.
Proof.
  intros p p' n Hb Hl Hinit q.
  unfold initThemeToggle in Hinit. rewrite Hb in Hinit. cbn [negb] in Hinit.
  injection Hinit as <-.
  assert (H1 : clickListeners (add_click_listener (applyTheme (initialTheme p) p)) = 1%nat).
  { cbn. rewrite Hl. reflexivity. }
  assert (Hq : clickListeners q = 1%nat) by (apply clicks_listeners; exact H1).
  split; [|split].
  - intros Hv.
    rewrite (click_toggle_single q Hq).
    rewrite click_toggle_single by (rewrite on_toggle_click_listeners; exact Hq).
    apply on_toggle_click_involutive. exact Hv.
  - subst q. destruct n as [|n].
    + intros [Hc | Hn]; [|lia]. unfold two_valued. cbn.
      destruct (initialTheme_two_valued p Hc) as [-> | ->]; [left | right]; reflexivity.
    + intros _. rewrite Nat.iter_succ, click_toggle_single by (apply clicks_listeners; exact H1).
      apply on_toggle_click_two_valued.
  - subst q. destruct n as [|n].
    + cbn. apply lookup_insert_eq.
    + rewrite Nat.iter_succ, click_toggle_single by (apply clicks_listeners; exact H1).
      apply on_toggle_click_persisted.
Qed.

(** C2. Theme toggling is an involution on the two themes: on a loaded
    page, two clicks on the toggle return the [data-theme] attribute to
    the value it had, the attribute being "light" or "dark" as it is
    after any click and after a load whose stored value kept to the
    contract; and after initial load and after every click the value
    stored under [theme] equals the attribute.  Both files. *)
Theorem theme_toggle_involution :
  toggles_as_involution MainJs.initThemeToggle MainJs.click_toggle /\
  toggles_as_involution Part000.initThemeToggle Part000.click_toggle.
Proof. split; exact toggle_involution_main. Qed.

Lemma theme_toggle_involution_witness :
  exists p' : ThemePage,
    MainJs.initThemeToggle fresh_theme_page = Returned p' /\
    dataTheme p' = Some "dark"%string /\
    dataTheme (click_toggle (click_toggle p')) = dataTheme p' /\
    localStorage p' !! "theme" = dataTheme p'.
Proof.
  eexists. split; [reflexivity|]. split; [reflexivity|].
  pose proof (proj1 theme_toggle_involution fresh_theme_page _ 0%nat
                eq_refl eq_refl eq_refl) as (Hinv & _ & Hstore).
  split; [apply Hinv; right; reflexivity | exact Hstore].
Defined.

(** ** Sticky header, threshold strategy *)

Lemma Qltb_true x y : Qltb x y = true <-> (x < y)%Q.
Proof.
  unfold Qltb. rewrite negb_true_iff. split.
  - intros E. apply Qnot_le_lt. intros L. apply Qle_bool_iff in L.
    rewrite L in E. discriminate E.
  - intros L. destruct (Qle_bool y x) eqn:E; [|reflexivity].
    apply Qle_bool_iff in E. exfalso. exact (Qlt_not_le _ _ L E).
Qed.

Lemma Qltb_false x y : Qltb x y = false <-> (y <= x)%Q.
Proof.
  unfold Qltb. rewrite negb_false_iff. apply Qle_bool_iff.
Qed.

Lemma on_scroll_sticky scrollY cl :
  "is-sticky"%string ∈ on_scroll scrollY cl <-> (stickyPoint < scrollY)%Q.
Proof.
  unfold on_scroll. destruct (Qltb stickyPoint scrollY) eqn:E.
  - apply Qltb_true in E. split; [intros _; exact E|].
    intros _. unfold classList_add. apply elem_of_union. left.
    apply elem_of_singleton. reflexivity.
  - apply Qltb_false in E. unfold classList_remove. split.
    + intros [_ Hn]%elem_of_difference. destruct Hn. by apply elem_of_singleton.
    + intros L. exfalso. exact (Qlt_not_le _ _ L E).
Qed.

Lemma scroll_listeners_sticky n scrollY cl :
  "is-sticky"%string ∈ Nat.iter (S n) (on_scroll scrollY) cl <-> (stickyPoint < scrollY)%Q.
Proof. rewrite Nat.iter_succ. apply on_scroll_sticky. Qed.

(** Against C3 as stated: 10 is at the threshold, and after a scroll
    event at offset 10 the header is without the sticky class. *)
Lemma sticky_at_threshold_counterexample :
  exists p : StickyPage,
    initStickyHeader header_only = Returned p /\
    (stickyPoint <= 10)%Q /\
    classList_contains "is-sticky" <$> header (scroll 10 p) = Some false.
Proof.
  eexists. split; [reflexivity|]. split; [apply Qle_refl|].
  vm_compute. reflexivity.
Qed.

(** C3, amended.  In the threshold strategy, after a scroll event at an
    offset at or below the threshold of 10 px the header is without the
    sticky class, and after one at an offset above 10 px it has it. *)
Theorem sticky_threshold (p : StickyPage) (classes : gset string) (scrollY : Q) :
  header p = Some classes ->
  exists (p' : StickyPage) (classes' : gset string),
    initStickyHeader p = Returned p' /\
    header (scroll scrollY p') = Some classes' /\
    ((scrollY <= 10)%Q -> "is-sticky"%string ∉ classes') /\
    ((10 < scrollY)%Q -> "is-sticky"%string ∈ classes').
Proof.
  intros Hh. unfold initStickyHeader. rewrite Hh.
  eexists. eexists. split; [reflexivity|].
  unfold scroll. cbn [header scrollListeners fmap option_fmap option_map].
  split; [reflexivity|]. split.
  - intros L In. apply scroll_listeners_sticky in In.
    exact (Qlt_not_le _ _ In L).
  - intros L. apply scroll_listeners_sticky. exact L.
Qed.

Lemma sticky_threshold_witness :
  exists (p' : StickyPage) (classes' : gset string),
    initStickyHeader header_only = Returned p' /\
    header (scroll (21 # 2) p') = Some classes' /\
    "is-sticky"%string ∈ classes'.
Proof.
  destruct (sticky_threshold header_only ∅ (21 # 2) eq_refl)
    as (p' & classes' & Hinit & Hscroll & _ & Habove).
  exists p', classes'. split; [exact Hinit|]. split; [exact Hscroll|].
  apply Habove. reflexivity.
Defined.

(** ** Sticky header, sentinel strategy *)

(** X1.  In the sentinel strategy of part_000, after a report on the
    sentinel the header is sticky exactly when the first entry says the
    sentinel does not intersect the viewport. *)
Lemma sentinel_sticky (p : Part000.StickyPage) (classes : gset string)
    (entry : Entry) (entries : list Entry) :
  Part000.header p = Some classes -> Part000.sentinel p = true -> Part000.observers p = 0%nat ->
  exists (p' p'' : Part000.StickyPage) (classes' : gset string),
    Part000.initStickyHeader p = Returned p' /\
    Part000.sentinel_notify (entry :: entries) p' = Returned p'' /\
    Part000.header p'' = Some classes' /\
    ("is-sticky"%string ∈ classes' <-> isIntersecting entry = false).
Proof.
  intros Hh Hs Ho. unfold Part000.initStickyHeader. rewrite Hh, Hs, Ho. cbn [negb].
  eexists. eexists. eexists. split; [reflexivity|].
  unfold Part000.sentinel_notify. cbn. split; [reflexivity|]. split; [reflexivity|].
  destruct (isIntersecting entry); cbn [negb classList_toggle_force].
  - split; [|discriminate]. intros In. exfalso. exact (classList_remove_absent _ _ In).
  - split; [reflexivity|]. intros _. apply classList_add_present.
Qed.

(** ** Mobile navigation *)

Lemma click_body t p : body (click t p) = foldl (run_if t) (body p) (listeners p).
Proof. reflexivity. Qed.

Lemma clicks_keep (ts : list ClickTarget) (p : NavPage) :
  mobileMenus (foldl (fun q t => click t q) p ts) = mobileMenus p /\
  listeners (foldl (fun q t => click t q) p ts) = listeners p.
Proof.
  revert p. induction ts as [|t ts IH]; intros p; [split; reflexivity|].
  cbn [foldl]. destruct (IH (click t p)) as [-> ->]. split; reflexivity.
Qed.

Lemma run_if_other t cl l :
  Forall (fun tl : ClickTarget * Listener => tl.1 <> t) l -> foldl (run_if t) cl l = cl.
Proof.
  revert cl. induction l as [|tl l IH]; intros cl Hall; [reflexivity|].
  inversion Hall as [|? ? Hne Hrest]; subst. cbn [foldl]. unfold run_if at 2.
  rewrite bool_decide_eq_false_2 by exact Hne. apply IH. exact Hrest.
Qed.

(** Listeners that only remove the class keep it away. *)
Lemma run_if_stays_closed t cl l :
  Forall (fun tl : ClickTarget * Listener => tl.1 = t -> tl.2 = RemoveOpen) l ->
  open_class ∉ cl -> open_class ∉ foldl (run_if t) cl l.
Proof.
  revert cl. induction l as [|tl l IH]; intros cl Hall Hcl; [exact Hcl|].
  inversion Hall as [|? ? Hhd Hrest]; subst. cbn [foldl]. apply IH; [exact Hrest|].
  unfold run_if. case_bool_decide as E; [|exact Hcl].
  rewrite (Hhd E). cbn. apply classList_remove_absent.
Qed.

(** A listener that removes the class, followed only by its like, leaves
    the menu closed. *)
Lemma run_if_closes t cl l :
  Forall (fun tl : ClickTarget * Listener => tl.1 = t -> tl.2 = RemoveOpen) l ->
  Exists (fun tl : ClickTarget * Listener => tl.1 = t) l ->
  open_class ∉ foldl (run_if t) cl l.
Proof.
  revert cl. induction l as [|tl l IH]; intros cl Hall Hex; [inversion Hex|].
  inversion Hall as [|? ? Hhd Hrest]; subst. cbn [foldl].
  destruct (decide (tl.1 = t)) as [E | E].
  - apply run_if_stays_closed; [exact Hrest|].
    unfold run_if. rewrite bool_decide_eq_true_2 by exact E.
    rewrite (Hhd E). cbn. apply classList_remove_absent.
  - unfold run_if at 2. rewrite bool_decide_eq_false_2 by exact E.
    apply IH; [exact Hrest|]. inversion Hex; subst; [contradiction | assumption].
Qed.

Lemma toggle_flips cl :
  open_class ∈ classList_toggle open_class cl <-> open_class ∉ cl.
Proof.
  unfold classList_toggle, classList_contains.
  case_bool_decide as E.
  - split; [intros In; exfalso; exact (classList_remove_absent _ _ In) | contradiction].
  - split; [intros _; exact E | intros _; apply classList_add_present].
Qed.

Lemma bind_links_spec menu ks p :
  let p' := foldl (fun p k => addEventListener (Link menu k) RemoveOpen p) p ks in
  listeners p' = listeners p ++ map (fun k => (Link menu k, RemoveOpen)) ks /\
  mobileMenus p' = mobileMenus p /\ body p' = body p /\
  menuToggle p' = menuToggle p /\ desktopNav p' = desktopNav p.
Proof.
  revert p. induction ks as [|k ks IH]; intros p; cbn [foldl map].
  - rewrite app_nil_r. repeat split.
  - destruct (IH (addEventListener (Link menu k) RemoveOpen p)) as (-> & -> & -> & -> & ->).
    cbn. rewrite <- app_assoc. repeat split.
Qed.

(** What the controller leaves behind on a fresh page with the open
    control: the overlays and the listeners. *)
Lemma main_initMobileNav_spec p :
  menuToggle p = true -> listeners p = [] ->
  exists p', MainJs.initMobileNav p = Returned p' /\ body p' = body p /\
    ((mobileMenus p = [] /\
      mobileMenus p' = [ {| links := default [] (desktopNav p); closeButton := true |} ] /\
      listeners p' = [(CloseButton 0, RemoveOpen); (MenuToggle, ToggleOpen)])
     \/
     (mobileMenus p <> [] /\ mobileMenus p' = mobileMenus p /\
      listeners p' = [(MenuToggle, ToggleOpen)])).
Proof.
  intros Ht Hl. unfold MainJs.initMobileNav. rewrite Ht. cbn [negb].
  eexists. split; [reflexivity|].
  destruct (mobileMenus p) as [|o os] eqn:E.
  - split; [reflexivity|]. left. cbn. rewrite Hl, E. repeat split.
  - split; [reflexivity|]. right. cbn. rewrite Hl, E. repeat split. discriminate.
Qed.

Lemma part_initMobileNav_spec p :
  menuToggle p = true -> listeners p = [] ->
  exists p', Part000.initMobileNav p = Returned p' /\ body p' = body p /\
    ((mobileMenus p = [] /\
      mobileMenus p' = [ {| links := default [] (desktopNav p); closeButton := true |} ] /\
      listeners p' =
        (CloseButton 0, RemoveOpen)
          :: map (fun k => (Link 0 k, RemoveOpen)) (seq 0 (length (default [] (desktopNav p))))
          ++ [(MenuToggle, ToggleOpen)])
     \/
     (mobileMenus p <> [] /\ mobileMenus p' = mobileMenus p /\
      listeners p' = [(MenuToggle, ToggleOpen)])).
Proof.
  intros Ht Hl. unfold Part000.initMobileNav. rewrite Ht. cbn [negb].
  eexists. split; [reflexivity|].
  destruct (mobileMenus p) as [|o os] eqn:E.
  - unfold Part000.bind_links.
    match goal with |- context [foldl ?f ?q ?ks] =>
      destruct (bind_links_spec 0 ks q) as (Hls & Hmm & Hb & _ & _) end.
    cbn [addEventListener body mobileMenus listeners] in *.
    split; [exact Hb|]. left. rewrite Hmm, Hls. cbn. rewrite Hl, E. repeat split.
  - split; [reflexivity|]. right. cbn. rewrite Hl, E. repeat split. discriminate.
Qed.

Lemma toggle_listener_flips (pre : list (ClickTarget * Listener)) cl :
  Forall (fun tl : ClickTarget * Listener => tl.1 <> MenuToggle) pre ->
  open_class ∈ foldl (run_if MenuToggle) cl (pre ++ [(MenuToggle, ToggleOpen)]) <->
  open_class ∉ cl.
Proof.
  intros Hpre. rewrite foldl_app, (run_if_other _ _ _ Hpre). cbn.
  apply toggle_flips.
Qed.

Lemma link_listeners_not_toggle n :
  Forall (fun tl : ClickTarget * Listener => tl.1 <> MenuToggle)
    (map (fun k => (Link 0 k, RemoveOpen)) (seq 0 n)).
Proof. apply Forall_map, Forall_forall. intros k _. discriminate. Qed.

Lemma main_builds_overlay_at_init : builds_overlay_at_init MainJs.initMobileNav.
Proof.
  intros p Ht Hl.
  destruct (main_initMobileNav_spec p Ht Hl) as (p' & Hinit & _ & Hcases).
  exists p'. split; [exact Hinit|].
  split; [|split].
  - intros E. destruct Hcases as [(_ & -> & _) | (Hne & _)]; [reflexivity | contradiction].
  - intros Hne. destruct Hcases as [(E & _) | (_ & -> & _)]; [contradiction | reflexivity].
  - intros ts q. destruct (clicks_keep ts p') as [Hmm Hls]. fold q in Hmm, Hls.
    split; [exact Hmm|]. split; [exact Hmm|].
    rewrite click_body, Hls.
    destruct Hcases as [(_ & _ & ->) | (_ & _ & ->)].
    + apply (toggle_listener_flips [(CloseButton 0, RemoveOpen)]).
      repeat constructor. discriminate.
    + apply (toggle_listener_flips []). constructor.
Qed.

Lemma part_builds_overlay_at_init : builds_overlay_at_init Part000.initMobileNav.
Proof.
  intros p Ht Hl.
  destruct (part_initMobileNav_spec p Ht Hl) as (p' & Hinit & _ & Hcases).
  exists p'. split; [exact Hinit|].
  split; [|split].
  - intros E. destruct Hcases as [(_ & -> & _) | (Hne & _)]; [reflexivity | contradiction].
  - intros Hne. destruct Hcases as [(E & _) | (_ & -> & _)]; [contradiction | reflexivity].
  - intros ts q. destruct (clicks_keep ts p') as [Hmm Hls]. fold q in Hmm, Hls.
    split; [exact Hmm|]. split; [exact Hmm|].
    rewrite click_body, Hls.
    destruct Hcases as [(_ & _ & ->) | (_ & _ & ->)].
    + rewrite app_comm_cons. apply toggle_listener_flips.
      constructor; [discriminate | apply link_listeners_not_toggle].
    + apply (toggle_listener_flips []). constructor.
Qed.

(** Against C5 as stated: the overlay is there once the controller is
    initialised, before any open request, and the first click on the open
    control creates none.  Both files. *)
Lemma lazy_overlay_counterexample :
  exists p1 p2 : NavPage,
    MainJs.initMobileNav fresh_nav_page = Returned p1 /\
    Part000.initMobileNav fresh_nav_page = Returned p2 /\
    length (mobileMenus fresh_nav_page) = 0%nat /\
    length (mobileMenus p1) = 1%nat /\
    length (mobileMenus (click MenuToggle p1)) = 1%nat /\
    length (mobileMenus p2) = 1%nat /\
    length (mobileMenus (click MenuToggle p2)) = 1%nat.
Proof. eexists. eexists. repeat split. Qed.

(** C5, amended.  The overlay is built at most once per page load, by the
    controller's initialisation and not by a click: on a page with the
    open control, initialisation leaves exactly one overlay when there
    was none and creates none when there was one; every click on the
    open control, the first included, creates no overlay and flips the
    open state.  Both files. *)
Theorem overlay_built_once_at_init :
  builds_overlay_at_init MainJs.initMobileNav /\
  builds_overlay_at_init Part000.initMobileNav.
Proof. split; [exact main_builds_overlay_at_init | exact part_builds_overlay_at_init]. Qed.

Lemma overlay_built_once_at_init_witness :
  exists p' : NavPage,
    Part000.initMobileNav fresh_nav_page = Returned p' /\
    length (mobileMenus p') = 1%nat /\
    mobileMenus (click MenuToggle (click MenuToggle p')) = mobileMenus p'.
Proof.
  destruct (proj2 overlay_built_once_at_init fresh_nav_page eq_refl eq_refl)
    as (p' & Hinit & Hone & _ & Hclicks).
  exists p'. split; [exact Hinit|]. split; [exact (Hone eq_refl)|].
  exact (proj1 (proj2 (Hclicks [MenuToggle]))).
Defined.

(** X2.  In part_000 a click on a link of the overlay the controller
    built closes the menu, whatever was clicked before. *)
Lemma part_link_click_closes (p : NavPage) (ts : list ClickTarget) (k : nat) :
  menuToggle p = true -> listeners p = [] -> mobileMenus p = [] ->
  (k < length (default [] (desktopNav p)))%nat ->
  exists p' : NavPage,
    Part000.initMobileNav p = Returned p' /\
    open_class ∉ body (click (Link 0 k) (foldl (fun q t => click t q) p' ts)).
Proof.
  intros Ht Hl Hm Hk.
  destruct (part_initMobileNav_spec p Ht Hl) as (p' & Hinit & _ & Hcases).
  exists p'. split; [exact Hinit|].
  destruct Hcases as [(_ & _ & Hls) | (Hne & _)]; [|contradiction].
  rewrite click_body. destruct (clicks_keep ts p') as [_ ->]. rewrite Hls.
  apply run_if_closes.
  - constructor; [intros E; discriminate E|].
    apply Forall_app. split.
    + apply Forall_map, Forall_forall. intros j _ _. reflexivity.
    + repeat constructor. intros E. discriminate E.
  - apply Exists_cons_tl, Exists_app. left.
    apply Exists_exists. exists (Link 0 k, RemoveOpen). split; [|reflexivity].
    apply list_elem_of_In, in_map_iff. exists k. split; [reflexivity|].
    apply in_seq. lia.
Qed.

(** C6 on main.js.  The overlay built from a navigation with the links
    /about and /contact holds both; the menu is open after a click on the
    open control, and still open after a click on the first link: main.js
    binds no listener to the links. *)
Theorem main_link_click_keeps_menu_open :
  exists p' : NavPage,
    MainJs.initMobileNav fresh_nav_page = Returned p' /\
    mobileMenus p' = [ {| links := ["/about"%string; "/contact"%string]; closeButton := true |} ] /\
    listeners p' = [(CloseButton 0, RemoveOpen); (MenuToggle, ToggleOpen)] /\
    open_class ∈ body (click MenuToggle p') /\
    open_class ∈ body (click (Link 0 0) (click MenuToggle p')).
Proof.
  eexists. split; [reflexivity|]. split; [reflexivity|]. split; [reflexivity|].
  split; apply (bool_decide_unpack _); vm_compute; exact I.
Qed.

(** ** Absent elements *)

(** Against C8 as stated: on a document with neither carousel container,
    [initCarousels] of main.js, with the library loaded, constructs both
    carousels all the same. *)
Lemma carousel_without_elements_counterexample :
  exists p' : MainJs.CarouselPage,
    MainJs.initCarousels no_carousel_elements = Returned p' /\
    testimonial no_carousel_elements = false /\
    logoCarousel no_carousel_elements = false /\
    map fst (swipers p') = [".tm-testimonial"%string; ".tm-logo-carousel"%string] /\
    swipers no_carousel_elements = [].
Proof. eexists. repeat split. Qed.

(** C8, amended.  Every controller that looks its elements up returns
    without changing anything, and without throwing, when they are
    absent: both sticky headers, the theme toggle, the mobile navigation,
    the reveal and counter observers of both files and the testimonial
    carousel of part_000.  [initCarousels] of main.js looks no element
    up.  When [Swiper] is undefined it logs one warning, constructs
    nothing and returns.  When [Swiper] is not a constructor it throws a
    TypeError.  Otherwise it calls the constructor for the testimonial
    selector and then for the logo selector, whether or not an element
    matches: it throws what the first call that throws does, and returns
    with both carousels recorded when both calls return. *)
Theorem absent_elements_no_op :
  (forall p, MainJs.header p = None -> MainJs.initStickyHeader p = Returned p) /\
  (forall p, Part000.header p = None \/ Part000.sentinel p = false ->
             Part000.initStickyHeader p = Returned p) /\
  (forall p, themeToggleButton p = false ->
             MainJs.initThemeToggle p = Returned p /\ Part000.initThemeToggle p = Returned p) /\
  (forall p, menuToggle p = false ->
             MainJs.initMobileNav p = Returned p /\ Part000.initMobileNav p = Returned p) /\
  (forall w, page w = [] ->
             MainJs.initScrollAnimations w = Returned w /\
             Part000.initScrollAnimations w = Returned w) /\
  (forall (num : Type) (N : Number num) (w : Watch (MainJs.CounterPage num)),
      MainJs.innerText (page w) = [] -> MainJs.initCounters w = Returned w) /\
  (forall (num : Type) (N : Number num) (w : Watch (Part000.CounterPage num)),
      Part000.innerText (page w) = [] -> Part000.initCounters w = Returned w) /\
  (forall p, Part000.track p = None \/ Part000.nextButton p = false \/
             Part000.prevButton p = false ->
             Part000.initTestimonialCarousel p = Returned p) /\
  (forall p, swiper p = SwiperUndefined ->
             MainJs.initCarousels p =
               Returned (console_warn "Swiper library is not loaded. Carousels will not work." p)) /\
  (forall p, swiper p = SwiperNotConstructor ->
             MainJs.initCarousels p = Threw "TypeError") /\
  (forall p construct, swiper p = SwiperConstructor construct ->
             MainJs.initCarousels p =
               match construct (testimonial p) ".tm-testimonial"%string testimonial_options with
               | Some error => Threw error
               | None =>
                   match construct (logoCarousel p) ".tm-logo-carousel"%string
                           logo_carousel_options with
                   | Some error => Threw error
                   | None => Returned (with_both_carousels p)
                   end
               end).
Proof.
  repeat apply conj.
  - intros p E. unfold MainJs.initStickyHeader. rewrite E. reflexivity.
  - intros p [E | E]; unfold Part000.initStickyHeader.
    + rewrite E. reflexivity.
    + rewrite E. destruct (Part000.header p); reflexivity.
  - intros p E. unfold Part000.initThemeToggle, MainJs.initThemeToggle.
    rewrite E. split; reflexivity.
  - intros p E. unfold Part000.initMobileNav, MainJs.initMobileNav.
    rewrite E. split; reflexivity.
  - intros w E. unfold Part000.initScrollAnimations, MainJs.initScrollAnimations.
    rewrite E. split; reflexivity.
  - intros num N w E. unfold MainJs.initCounters. rewrite E. reflexivity.
  - intros num N w E. unfold Part000.initCounters. rewrite E. reflexivity.
  - intros p [E | [E | E]]; unfold Part000.initTestimonialCarousel.
    + rewrite E. reflexivity.
    + rewrite E. destruct (Part000.track p); reflexivity.
    + rewrite E, orb_true_r. destruct (Part000.track p); reflexivity.
  - intros p E. unfold MainJs.initCarousels. rewrite E. reflexivity.
  - intros p E. unfold MainJs.initCarousels, new_Swiper. rewrite E. reflexivity.
  - intros p construct E. unfold MainJs.initCarousels, new_Swiper. rewrite E.
    change (matches ".tm-testimonial" p) with (testimonial p).
    destruct (construct (testimonial p) _ _); [reflexivity|].
    cbn [and_then swiper testimonial logoCarousel console swipers matches String.eqb Ascii.eqb
         Bool.eqb].
    destruct (construct (logoCarousel p) _ _); [reflexivity|].
    unfold with_both_carousels. rewrite E, <- app_assoc. reflexivity.
Qed.

Lemma empty_document_untouched {num : Type} `{Number num} :
  Part000.domContentLoaded empty_document = Returned empty_document.
Proof. reflexivity. Qed.

Lemma absent_elements_no_op_witness :
  Part000.initStickyHeader empty_document_sticky = Returned empty_document_sticky /\
  MainJs.initCarousels no_carousel_elements = Returned (with_both_carousels no_carousel_elements) /\
  MainJs.initCarousels carousels_need_container = Threw "Error".
Proof.
  split; [|split].
  - apply (proj1 (proj2 absent_elements_no_op) empty_document_sticky).
    left. reflexivity.
  - exact (proj2 (proj2 (proj2 (proj2 (proj2 (proj2 (proj2 (proj2 (proj2 (proj2
             absent_elements_no_op)))))))))
             no_carousel_elements _ eq_refl).
  - exact (proj2 (proj2 (proj2 (proj2 (proj2 (proj2 (proj2 (proj2 (proj2 (proj2
             absent_elements_no_op)))))))))
             carousels_need_container _ eq_refl).
Defined.

(** ** One-shot observers *)

Section OneShot.
Context {Page : Type} (process : nat -> Page -> Page).

Lemma callback_spec (l : list Entry) (w : Watch Page) :
  watched (callback process l w) = watched w ∖ list_to_set (fired l) /\
  handled (callback process l w) = handled w ++ fired l.
Proof.
  revert w. induction l as [|e r IH]; intros w; cbn [callback foldl fired].
  - split; [|symmetry; apply app_nil_r].
    cbn. apply leibniz_equiv. intros x. rewrite elem_of_difference.
    split; [intros Hx; split; [exact Hx | apply not_elem_of_empty] | intros [Hx _]; exact Hx].
  - destruct (IH (on_entry process w e)) as [Hw Hh].
    unfold callback in Hw, Hh. rewrite Hw, Hh. unfold on_entry.
    destruct (isIntersecting e); cbn [watched handled unobserve].
    + split; [|symmetry; apply (app_assoc (handled w) [target e] (fired r))].
      apply leibniz_equiv. intros x.
      rewrite !elem_of_difference, list_to_set_cons, elem_of_union. tauto.
    + split; reflexivity.
Qed.

Lemma fired_filter_watched (batch : list Entry) (s : gset nat) :
  fired (filter (fun e => target e ∈ s) batch) `sublist_of` fired batch /\
  forall i, i ∈ fired (filter (fun e => target e ∈ s) batch) -> i ∈ s.
Proof.
  induction batch as [|e r [IHs IHi]]; [split; [constructor | intros i Hi; inversion Hi]|].
  rewrite filter_cons. destruct (decide (target e ∈ s)) as [In | Out]; cbn [fired].
  - destruct (isIntersecting e).
    + split; [apply sublist_skip; exact IHs|].
      intros i [-> | Hi]%elem_of_cons; [exact In | exact (IHi i Hi)].
    + split; assumption.
  - destruct (isIntersecting e); [|split; assumption].
    split; [apply sublist_cons; exact IHs | exact IHi].
Qed.

Lemma notify_once_only (batch : list Entry) (w : Watch Page) :
  one_report_per_target batch -> once_only w -> once_only (notify process batch w).
Proof.
  intros Hb [Hnd Hout]. unfold notify, once_only.
  destruct (callback_spec (filter (fun e => target e ∈ watched w) batch) w) as [-> ->].
  destruct (fired_filter_watched batch (watched w)) as [Hsub Hin].
  split.
  - apply NoDup_app. split; [exact Hnd|]. split.
    + intros i Hi Hf. exact (Hout i Hi (Hin i Hf)).
    + exact (sublist_NoDup _ _ Hb Hsub).
  - intros i [Hi | Hi]%elem_of_app; rewrite elem_of_difference.
    + intros [Hw _]. exact (Hout i Hi Hw).
    + intros [_ Hn]. apply Hn, elem_of_list_to_set. exact Hi.
Qed.

Lemma notifications_once_only (batches : list (list Entry)) (w : Watch Page) :
  Forall one_report_per_target batches -> once_only w ->
  once_only (foldl (fun w b => notify process b w) w batches).
Proof.
  revert w. induction batches as [|b bs IH]; intros w Hall Hw; [exact Hw|].
  inversion Hall as [|? ? Hb Hbs]; subst. cbn [foldl].
  apply IH; [exact Hbs|]. apply notify_once_only; assumption.
Qed.

(** A report about a target that is no longer watched does not reach the
    callback. *)
Lemma notify_unwatched (i : nat) (b : bool) (w : Watch Page) :
  i ∉ watched w -> notify process [ {| target := i; isIntersecting := b |} ] w = w.
Proof.
  intros Hi. unfold notify. rewrite filter_cons.
  cbn [target]. rewrite decide_False by exact Hi. reflexivity.
Qed.

Lemma observe_all_handled (ks : list nat) (w : Watch Page) :
  handled (foldl (fun w i => observe i w) w ks) = handled w.
Proof.
  revert w. induction ks as [|k ks IH]; intros w; [reflexivity|].
  cbn [foldl]. rewrite IH. reflexivity.
Qed.
End OneShot.

Lemma fires_once_from {Page : Type} (process : nat -> Page -> Page) (w : Watch Page) :
  once_only w -> fires_once process w.
Proof.
  intros Hw batches Hall w'.
  destruct (notifications_once_only process batches w Hall Hw) as [Hnd Hout].
  fold w' in Hnd, Hout. split; [exact Hnd|].
  intros i Hi. split; [exact (Hout i Hi)|].
  intros b. apply notify_unwatched. exact (Hout i Hi).
Qed.

Lemma observe_all_once_only {Page : Type} (n : nat) (p : Page) :
  once_only (observe_all n (unobserved p)).
Proof.
  unfold once_only, observe_all. rewrite observe_all_handled. cbn.
  split; [constructor | intros i Hi; inversion Hi].
Qed.

(** C7 at a batch that reports one target as intersecting twice.  The
    callback unobserves the target at the first entry and processes it
    again at the second: the browser built the batch before the callback
    ran.  The reveal observer handles element 0 twice.  The counter
    observer of main.js starts two animations of the one counter.  That
    of part_000 starts two as well, the second one from the text "0"
    that the first processing wrote: the counter that showed "1,234+"
    ends on "0".  Reported once, it ends on "1,234+". *)
Theorem duplicate_report_processed_twice :
  (exists w : Watch (list (gset string)),
      MainJs.initScrollAnimations (unobserved two_reveal_targets) = Returned w /\
      Part000.initScrollAnimations (unobserved two_reveal_targets) = Returned w /\
      handled (reveal_notify entered_twice w) = [0; 0]%nat) /\
  (exists w : Watch (MainJs.CounterPage float),
      MainJs.initCounters (unobserved (main_counter "1,234+")) = Returned w /\
      handled (MainJs.counter_notify entered_twice w) = [0; 0]%nat /\
      length (MainJs.frameRequests (page (MainJs.counter_notify entered_twice w))) = 2%nat) /\
  (exists w : Watch (Part000.CounterPage float),
      Part000.initCounters (unobserved (part_counter "1,234+")) = Returned w /\
      handled (Part000.counter_notify entered_twice w) = [0; 0]%nat /\
      length (Part000.frameRequests (page (Part000.counter_notify entered_twice w))) = 2%nat /\
      map part_view
        (Part000.play [ieee_of_Z 1000; ieee_of_Z 3000]
           (page (Part000.counter_notify entered_twice w)))
      = [(["0"%string], true); (["0"%string], false)] /\
      map part_view
        (Part000.play [ieee_of_Z 1000; ieee_of_Z 3000]
           (page (Part000.counter_notify [ {| target := 0; isIntersecting := true |} ] w)))
      = [(["0"%string], true); (["1,234+"%string], false)]).
Proof.
  split; [|split].
  - eexists. split; [reflexivity|]. split; [reflexivity|]. vm_compute. reflexivity.
  - eexists. split; [reflexivity|]. split; vm_compute; reflexivity.
  - eexists. split; [reflexivity|]. repeat split; vm_compute; reflexivity.
Qed.

(** ** Counters: text without digits *)

Lemma exact_nan_laws : nan_laws exact_number.
Proof.
  split; try reflexivity.
  - intros [|x]; reflexivity.
  - intros [|x]; reflexivity.
  - intros [|x]; reflexivity.
Qed.

Lemma Prim2SF_nan : Prim2SF PrimFloat.nan = S754_nan.
Proof. reflexivity. Qed.

Lemma ieee_nan_laws : nan_laws ieee_number.
Proof.
  split; cbn [lt add mul div nan math_floor toLocaleString ieee_number].
  - intros x. rewrite ltb_spec, Prim2SF_nan. destruct (Prim2SF x); reflexivity.
  - intros x. apply Prim2SF_inj. rewrite add_spec, Prim2SF_nan.
    destruct (Prim2SF x); reflexivity.
  - intros x. apply Prim2SF_inj. rewrite mul_spec, Prim2SF_nan.
    destruct (Prim2SF x); reflexivity.
  - intros y. apply Prim2SF_inj. rewrite div_spec, Prim2SF_nan. reflexivity.
  - reflexivity.
  - reflexivity.
Qed.

Lemma parseInt_no_digits {num : Type} `{Number num} (text : string) :
  no_digits text -> parseInt (replace_non_digits text) = nan.
Proof. intros E. unfold no_digits in E. rewrite E. reflexivity. Qed.

Lemma main_count_up_single {num : Type} `{Number num} (text : string) :
  MainJs.count_up 0 (main_counter text) =
  {| MainJs.innerText := [text]; MainJs.frameRequests := [main_animation text] |}.
Proof. reflexivity. Qed.

Lemma part_count_up_single {num : Type} `{Number num} (text : string) :
  Part000.count_up 0 (part_counter text) =
  {| Part000.innerText := ["0"%string]; Part000.frameRequests := [part_animation text] |}.
Proof.
  unfold Part000.count_up, part_counter, part_animation.
  cbn [Part000.innerText lookup list_lookup default from_option id].
  destruct (replace_digits_commas text); reflexivity.
Qed.

Section NanCounters.
Context {num : Type} {N : Number num} (laws : nan_laws N).

Lemma main_nan_counter (text : string) :
  no_digits text ->
  let p := MainJs.animationFrame (MainJs.count_up 0 (main_counter text)) in
  MainJs.innerText p = [("NaN" ++ replace_digits_commas text)%string] /\
  MainJs.frameRequests p = [].
Proof.
  intros Hd. rewrite main_count_up_single. unfold main_animation.
  rewrite (parseInt_no_digits text Hd).
  unfold MainJs.animationFrame. cbn [MainJs.frameRequests MainJs.innerText foldl].
  unfold MainJs.updateCount. cbn [MainJs.current MainJs.increment MainJs.target_value].
  rewrite (div_nan_l N laws), (add_nan_r N laws), (lt_nan_r N laws).
  cbn. rewrite (nan_text N laws). split; reflexivity.
Qed.

Lemma part_nan_frames (timestamps : list num) (a : Part000.Animation num) (s : string) :
  Part000.target_value a = nan -> Part000.counter a = 0%nat ->
  Forall (shows_nan (Part000.suffix a))
    (Part000.play timestamps {| Part000.innerText := [s]; Part000.frameRequests := [a] |}).
Proof.
  revert a s. induction timestamps as [|t r IH]; intros a s Ht Hc; [constructor|].
  cbn [Part000.play]. set (p := Part000.animationFrame t _).
  assert (Hp : (exists a', p = {| Part000.innerText := ["NaN"%string];
                                   Part000.frameRequests := [a'] |} /\
                           Part000.target_value a' = nan /\ Part000.counter a' = 0%nat /\
                           Part000.suffix a' = Part000.suffix a) \/
               p = {| Part000.innerText := [("NaN" ++ Part000.suffix a)%string];
                      Part000.frameRequests := [] |}).
  { subst p. unfold Part000.animationFrame. cbn [Part000.frameRequests Part000.innerText foldl].
    unfold Part000.step. rewrite Ht, Hc, (mul_nan_r N laws), (floor_nan N laws), (nan_text N laws).
    destruct (lt _ _).
    - left. eexists. split; [reflexivity|]. cbn. repeat split; assumption.
    - right. reflexivity. }
  destruct Hp as [(a' & -> & Ht' & Hc' & Hs') | ->].
  - constructor.
    + left. split; [reflexivity | discriminate].
    + rewrite <- Hs'. apply IH; assumption.
  - constructor; [right; split; reflexivity|].
    clear. induction r as [|t' r IHr]; [constructor|].
    cbn [Part000.play]. constructor; [right; split; reflexivity | exact IHr].
Qed.

Lemma part_nan_counter (text : string) (timestamps : list num) :
  no_digits text ->
  let p := Part000.count_up 0 (part_counter text) in
  Part000.innerText p = ["0"%string] /\
  Forall (shows_nan (replace_digits_commas text)) (Part000.play timestamps p).
Proof.
  intros Hd p. subst p. rewrite part_count_up_single. split; [reflexivity|].
  apply (part_nan_frames timestamps (part_animation text) "0"); [|reflexivity].
  cbn. apply parseInt_no_digits. exact Hd.
Qed.
End NanCounters.

(** Against C9 as stated: the counter that shows "N/A" is animated.  In
    main.js its text is "NaNN/A" after the first frame; in part_000 it is
    "0" as soon as the counter is seen, "NaN" after a frame at 1000 ms
    and "NaNN/A" after a frame at 3000 ms. *)
Lemma nan_counter_counterexample :
  no_digits "N/A" /\
  MainJs.innerText
    (MainJs.animationFrame (MainJs.count_up 0 (@main_counter float ieee_number "N/A")))
  = ["NaNN/A"%string] /\
  Part000.innerText (Part000.count_up 0 (@part_counter float ieee_number "N/A"))
  = ["0"%string] /\
  map Part000.innerText
    (Part000.play [ieee_of_Z 1000; ieee_of_Z 3000]
       (Part000.count_up 0 (@part_counter float ieee_number "N/A")))
  = [["NaN"%string]; ["NaNN/A"%string]].
Proof. repeat split; vm_compute; reflexivity. Qed.

(** C9, amended.  When a counter's text has no digit the parsed target
    is NaN and the counter is animated all the same.  main.js leaves the
    text until the first frame, which writes "NaN" followed by the text
    without its commas and requests no further frame.  part_000 writes
    "0" at once, then "NaN" on every frame while the animation runs, and
    "NaN" followed by the text without its commas when it is over.  In
    binary64 and in exact arithmetic. *)
Theorem nan_counter_is_animated (text : string) :
  no_digits text ->
  (let p := MainJs.animationFrame (MainJs.count_up 0 (@main_counter float ieee_number text)) in
   MainJs.innerText p = [("NaN" ++ replace_digits_commas text)%string] /\
   MainJs.frameRequests p = []) /\
  (let p := MainJs.animationFrame (MainJs.count_up 0 (@main_counter exact exact_number text)) in
   MainJs.innerText p = [("NaN" ++ replace_digits_commas text)%string] /\
   MainJs.frameRequests p = []) /\
  (forall timestamps : list float,
      let p := Part000.count_up 0 (@part_counter float ieee_number text) in
      Part000.innerText p = ["0"%string] /\
      Forall (shows_nan (replace_digits_commas text)) (Part000.play timestamps p)) /\
  (forall timestamps : list exact,
      let p := Part000.count_up 0 (@part_counter exact exact_number text) in
      Part000.innerText p = ["0"%string] /\
      Forall (shows_nan (replace_digits_commas text)) (Part000.play timestamps p)).
Proof.
  intros Hd. repeat apply conj.
  - exact (proj1 (main_nan_counter ieee_nan_laws text Hd)).
  - exact (proj2 (main_nan_counter ieee_nan_laws text Hd)).
  - exact (proj1 (main_nan_counter exact_nan_laws text Hd)).
  - exact (proj2 (main_nan_counter exact_nan_laws text Hd)).
  - intros timestamps. exact (part_nan_counter ieee_nan_laws text timestamps Hd).
  - intros timestamps. exact (part_nan_counter exact_nan_laws text timestamps Hd).
Qed.

Lemma nan_counter_is_animated_witness :
  MainJs.innerText
    (MainJs.animationFrame (MainJs.count_up 0 (@main_counter float ieee_number "TBD, soon")))
  = ["NaNTBD soon"%string].
Proof.
  exact (proj1 (proj1 (nan_counter_is_animated "TBD, soon" eq_refl))).
Defined.

(** ** Counters in exact arithmetic *)

Lemma string_app_nil_r (s : string) : (s ++ "")%string = s.
Proof.
  induction s as [|c s IH]; [reflexivity|].
  change (String c (s ++ "")%string = String c s). f_equal. exact IH.
Qed.

(** On a non-negative integer the rational rendering is the integer one. *)
Lemma group_rational_int (v : Z) : 0 <= v -> group_rational (inject_Z v) = group_int v.
Proof.
  intros Hv. unfold group_rational, group_int.
  cbn [Qnum inject_Z]. destruct (v <? 0) eqn:E; [apply Z.ltb_lt in E; lia|].
  assert (Ht : Qfloor (Qabs (inject_Z v) * 1000 + (1 # 2)) = v * 1000).
  { unfold Qfloor, Qabs, inject_Z, Qmult, Qplus. cbn [Qnum Qden].
    rewrite Z.abs_eq by exact Hv.
    change (Z.pos (1 * 1 * 2)) with 2. change (Z.pos (1 * 1)) with 1. change (Z.pos 2) with 2.
    replace (v * 1000 * 2 + 1 * 1) with (v * 1000 * 2 + 1) by lia.
    rewrite Z.div_add_l by lia. change (1 / 2) with 0. lia. }
  rewrite Ht, Z.div_mul, Z.mod_mul by lia. cbn [fraction_digits Z.eqb].
  apply string_app_nil_r.
Qed.

Lemma exact_text_int (v : Z) : 0 <= v -> toLocaleString (EFin (inject_Z v)) = group_int v.
Proof. exact (group_rational_int v). Qed.

(** The digits read back from a string of digits are a natural number. *)
Lemma digits_value_nonneg (s : string) (acc : Z) :
  0 <= acc -> 0 <= digits_value acc (replace_non_digits s).
Proof.
  revert acc. induction s as [|c s IH]; intros acc Ha; [exact Ha|].
  unfold replace_non_digits. cbn [filter_chars]. destruct (is_digit c) eqn:E.
  - cbn [digits_value]. apply IH. unfold digit_value.
    unfold is_digit in E. apply andb_true_iff in E. destruct E as [E1 _].
    apply N.leb_le in E1. lia.
  - apply IH. exact Ha.
Qed.

Lemma parseInt_exact (text : string) :
  @parseInt exact exact_number (replace_non_digits text) = ENaN \/
  exists n : Z, 0 <= n /\ @parseInt exact exact_number (replace_non_digits text) = EFin (inject_Z n).
Proof.
  unfold parseInt, parse_digits.
  destruct (replace_non_digits text) eqn:E; [left; reflexivity|].
  right. eexists. split; [|reflexivity].
  rewrite <- E. apply digits_value_nonneg. lia.
Qed.

(** *** main.js: the increment reaches the target within 125 frames *)

Lemma main_exact_frame (n : Z) (sfx s : string) (i c : Q) :
  MainJs.animationFrame (main_running s (main_closure n sfx i c)) =
  let c' := Qred (c + i) in
  if Qltb c' (inject_Z n)
  then main_running (group_rational (inject_Z (Qceiling c'))) (main_closure n sfx i c')
  else main_done (toLocaleString (EFin (inject_Z n)) ++ sfx).
Proof.
  unfold MainJs.animationFrame, main_running, main_closure, main_done.
  cbn [MainJs.frameRequests MainJs.innerText foldl].
  unfold MainJs.updateCount.
  cbn [MainJs.current MainJs.increment MainJs.target_value MainJs.counter MainJs.suffix
       add lt exact_number exact_lift2 exact_lt].
  cbv zeta. destruct (Qltb (Qred (c + i)) (inject_Z n)); reflexivity.
Qed.

Lemma main_done_stays (m : nat) (s : string) :
  Nat.iter m MainJs.animationFrame (main_done s) = main_done s.
Proof. induction m as [|m IH]; [reflexivity|]. rewrite Nat.iter_succ, IH. reflexivity. Qed.

(** While fewer than 125 frames have run, a positive target is not
    reached: the frame is rendered and the next one requested. *)
Lemma main_exact_running (n : Z) (sfx s0 : string) (i : Q) (k : nat) :
  0 < n -> (i == n # 125)%Q -> (k <= 124)%nat ->
  exists (s : string) (c : Q),
    Nat.iter k MainJs.animationFrame (main_running s0 (main_closure n sfx i 0)) =
    main_running s (main_closure n sfx i c) /\
    (c == (Z.of_nat k * n) # 125)%Q.
Proof.
  intros Hn Hi. induction k as [|k IH]; intros Hk.
  - exists s0, 0%Q. split; reflexivity.
  - destruct IH as (s & c & Heq & Hc); [lia|].
    assert (Hc' : (Qred (c + i) == (Z.of_nat (S k) * n) # 125)%Q).
    { rewrite Qred_correct, Hc, Hi. unfold Qeq, Qplus. cbn [Qnum Qden]. lia. }
    rewrite Nat.iter_succ, Heq, main_exact_frame. cbv zeta.
    assert (Hlt : Qltb (Qred (c + i)) (inject_Z n) = true).
    { apply Qltb_true. rewrite Hc'. unfold Qlt, inject_Z. cbn [Qnum Qden]. nia. }
    rewrite Hlt. eexists. eexists. split; [reflexivity | exact Hc'].
Qed.

Lemma main_exact_stops (text : string) :
  let p := Nat.iter 125 MainJs.animationFrame
             (MainJs.count_up 0 (@main_counter exact exact_number text)) in
  MainJs.frameRequests p = [] /\
  MainJs.innerText p =
    [(toLocaleString (@parseInt exact exact_number (replace_non_digits text))
      ++ replace_digits_commas text)%string].
Proof.
  cbv zeta. destruct (parseInt_exact text) as [Hnan | (n & Hn & Hp)].
  - (* no digit: the first frame is the last *)
    rewrite Nat.iter_succ_r.
    assert (Hd : no_digits text).
    { unfold no_digits. unfold parseInt, parse_digits in Hnan.
      destruct (replace_non_digits text); [reflexivity | discriminate Hnan]. }
    destruct (main_nan_counter exact_nan_laws text Hd) as [Ht Hr].
    cbv zeta in Ht, Hr.
    destruct (MainJs.animationFrame _) as [texts requests] eqn:E.
    cbn [MainJs.innerText MainJs.frameRequests] in Ht, Hr. subst texts requests.
    change {| MainJs.innerText := [?s]; MainJs.frameRequests := [] |} with (main_done s).
    rewrite main_done_stays, Hnan. split; reflexivity.
  - rewrite main_count_up_single. unfold main_animation. rewrite Hp.
    set (i := Qred (inject_Z n / Qred (inject_Z 2000 / inject_Z 16))).
    assert (Hi : (i == n # 125)%Q).
    { subst i. rewrite Qred_correct.
      change (Qred (inject_Z 2000 / inject_Z 16)) with (125 # 1)%Q.
      unfold Qeq, Qdiv, Qmult, Qinv, inject_Z. cbn [Qnum Qden]. lia. }
    change (div (EFin (inject_Z n)) (div (of_Z 2000) (of_Z 16))) with (EFin i).
    change (of_Z 0) with (EFin 0).
    change {| MainJs.innerText := [text]; MainJs.frameRequests := [?a] |}
      with (main_running text a).
    fold (main_closure n (replace_digits_commas text) i 0).
    destruct (Z.eq_dec n 0) as [-> | Hne].
    + (* target 0: the first frame is the last *)
      rewrite Nat.iter_succ_r, main_exact_frame. cbv zeta.
      assert (Hlt : Qltb (Qred (0 + i)) (inject_Z 0) = false).
      { apply Qltb_false. rewrite Qred_correct, Hi. unfold Qle, Qplus. cbn. lia. }
      rewrite Hlt, main_done_stays. split; reflexivity.
    + assert (Hpos : 0 < n) by lia.
      destruct (main_exact_running n (replace_digits_commas text) text i 124 Hpos Hi (le_n _))
        as (s & c & Hrun & Hc).
      rewrite Nat.iter_succ, Hrun, main_exact_frame. cbv zeta.
      assert (Hlt : Qltb (Qred (c + i)) (inject_Z n) = false).
      { apply Qltb_false. rewrite Qred_correct, Hc, Hi.
        unfold Qle, Qplus, inject_Z. cbn [Qnum Qden]. lia. }
      rewrite Hlt. split; reflexivity.
Qed.

(** *** part_000: the frame at or after 2000 ms is the last *)

Lemma Qltb_asym (x y : Q) : Qltb x y = true -> Qltb y x = false.
Proof.
  intros H. apply Qltb_true in H. apply Qltb_false. apply Qlt_le_weak. exact H.
Qed.

Lemma part_exact_frame (tg : exact) (sfx s0 : string) (st : option Q) (t : Q) :
  Part000.animationFrame (EFin t) (part_running s0 (part_closure tg sfx st)) =
  if Qltb (elapsed_fraction st t) 1
  then part_running
         (toLocaleString (math_floor (mul (EFin (elapsed_fraction st t)) tg)))
         (part_closure tg sfx (Some (start_of st t)))
  else part_done (toLocaleString tg ++ sfx).
Proof.
  unfold Part000.animationFrame, part_running, part_closure, part_done.
  cbn [Part000.frameRequests Part000.innerText foldl].
  unfold Part000.step, Part000.progress_at, Part000.start_time.
  cbn [Part000.startTime Part000.duration Part000.target_value Part000.counter Part000.suffix].
  assert (Hs : match EFin <$> st with
               | Some s => if to_boolean s then s else EFin t
               | None => EFin t
               end = EFin (start_of st t)).
  { destruct st as [s|]; [|reflexivity]. cbn. destruct (Qeq_bool s 0); reflexivity. }
  rewrite Hs.
  change (div (sub (EFin t) (EFin (start_of st t))) (of_Z 2000))
    with (EFin (elapsed_fraction st t)).
  set (x := elapsed_fraction st t).
  change (math_min (EFin x) (of_Z 1)) with (if Qltb 1 x then EFin 1 else EFin x).
  destruct (Qltb 1 x) eqn:E1.
  - rewrite (Qltb_asym _ _ E1). reflexivity.
  - change (lt (EFin x) (of_Z 1)) with (Qltb x 1).
    destruct (Qltb x 1); reflexivity.
Qed.

Lemma part_done_frame (t : exact) (s : string) :
  Part000.animationFrame t (part_done s) = part_done s.
Proof. reflexivity. Qed.

(** Frames leave a closure with a fixed non-zero start time running on
    that start time, or end the animation on the final text. *)
Lemma part_exact_frames (tg : exact) (sfx : string) (s : Q) (ts : list Q) (s0 : string) :
  Qeq_bool s 0 = false ->
  let p := foldl (fun p t => Part000.animationFrame (EFin t) p)
             (part_running s0 (part_closure tg sfx (Some s))) ts in
  (exists s1, p = part_running s1 (part_closure tg sfx (Some s))) \/
  p = part_done (toLocaleString tg ++ sfx).
Proof.
  intros Hs. revert s0. induction ts as [|t r IH]; intros s0; cbn [foldl].
  - left. exists s0. reflexivity.
  - rewrite part_exact_frame.
    assert (Hst : start_of (Some s) t = s) by (cbn; rewrite Hs; reflexivity).
    rewrite Hst. destruct (Qltb _ 1).
    + apply IH.
    + right. clear. induction r as [|t' r IHr]; [reflexivity|].
      cbn [foldl]. rewrite part_done_frame. exact IHr.
Qed.

Lemma part_exact_stops (text : string) (t0 t : Q) (ts : list Q) :
  Qeq_bool t0 0 = false -> (2000 <= t - t0)%Q ->
  foldl (fun p t => Part000.animationFrame (EFin t) p)
    (Part000.count_up 0 (@part_counter exact exact_number text)) (t0 :: ts ++ [t])
  = part_done (toLocaleString (@parseInt exact exact_number (replace_non_digits text))
               ++ replace_digits_commas text).
Proof.
  intros H0 Hlate. rewrite part_count_up_single.
  set (tg := @parseInt exact exact_number (replace_non_digits text)).
  set (sfx := replace_digits_commas text).
  change {| Part000.innerText := ["0"%string];
            Part000.frameRequests := [part_animation text] |}
    with (part_running "0" (part_closure tg sfx None)).
  cbn [foldl]. rewrite part_exact_frame.
  assert (Hfirst : Qltb (elapsed_fraction None t0) 1 = true).
  { apply Qltb_true. unfold elapsed_fraction, start_of.
    rewrite !Qred_correct. unfold Qminus. rewrite Qplus_opp_r. reflexivity. }
  rewrite Hfirst. change (start_of None t0) with t0.
  rewrite foldl_app. cbn [foldl].
  destruct (part_exact_frames tg sfx t0 ts
              (toLocaleString (math_floor (mul (EFin (elapsed_fraction None t0)) tg))) H0)
    as [(s1 & ->) | ->]; [|reflexivity].
  rewrite part_exact_frame.
  assert (Hlast : Qltb (elapsed_fraction (Some t0) t) 1 = false).
  { apply Qltb_false. unfold elapsed_fraction, start_of. rewrite H0.
    rewrite !Qred_correct. apply Qle_shift_div_l; [reflexivity|].
    rewrite Qmult_1_l. exact Hlate. }
  rewrite Hlast. reflexivity.
Qed.

(** *** part_000: the frames of "1,234+" on a non-decreasing schedule *)

Lemma elapsed_fraction_eq (st : option Q) (t : Q) :
  (elapsed_fraction st t == (t - start_of st t) * (1 # 2000))%Q.
Proof. unfold elapsed_fraction. rewrite !Qred_correct. reflexivity. Qed.

Lemma shown_value_eq (st : option Q) (t : Q) :
  shown_value st t = Qfloor ((t - start_of st t) * (1 # 2000) * inject_Z 1234).
Proof.
  unfold shown_value. rewrite Qred_correct, elapsed_fraction_eq. reflexivity.
Qed.

Lemma shown_value_unset (st : option Q) (t : Q) :
  start_of st t = t -> shown_value st t = 0.
Proof.
  intros E. rewrite shown_value_eq, E.
  assert (H : ((t - t) * (1 # 2000) * inject_Z 1234 == inject_Z 0)%Q).
  { change (inject_Z 1234) with (1234 # 1)%Q. change (inject_Z 0) with 0%Q. lra. }
  rewrite H. apply Qfloor_Z.
Qed.

Lemma shown_value_below (st : option Q) (t : Q) :
  Qltb (elapsed_fraction st t) 1 = true -> shown_value st t <= 1233.
Proof.
  intros H. apply Qltb_true in H. rewrite elapsed_fraction_eq in H.
  rewrite shown_value_eq.
  assert (Hlt : (inject_Z (Qfloor ((t - start_of st t) * (1 # 2000) * inject_Z 1234))
                 < inject_Z 1234)%Q).
  { eapply Qle_lt_trans; [apply Qfloor_le|].
    change (inject_Z 1234) with (1234 # 1)%Q. lra. }
  rewrite <- Zlt_Qlt in Hlt. lia.
Qed.

Lemma shown_value_mono (st : option Q) (t t' : Q) :
  (t <= t')%Q -> shown_value st t <= shown_value (Some (start_of st t)) t'.
Proof.
  intros Hle. destruct (Qeq_bool (start_of st t) 0) eqn:E.
  - assert (Hst : start_of st t = t).
    { destruct st as [s|]; [|reflexivity]. cbn in E |- *.
      destruct (Qeq_bool s 0) eqn:Es; [reflexivity|]. rewrite Es in E. discriminate E. }
    rewrite (shown_value_unset st t Hst).
    rewrite (shown_value_unset (Some (start_of st t)) t'); [lia|].
    cbn. rewrite E. reflexivity.
  - rewrite !shown_value_eq.
    assert (Hst' : start_of (Some (start_of st t)) t' = start_of st t)
      by (cbn; rewrite E; reflexivity).
    rewrite Hst'. apply Qfloor_resp_le.
    change (inject_Z 1234) with (1234 # 1)%Q. lra.
Qed.

Lemma part_exact_frame_1234 (s0 : string) (st : option Q) (t : Q) :
  0 <= shown_value st t ->
  Part000.animationFrame (EFin t) (part_running s0 (part_closure target_1234 "+" st)) =
  if Qltb (elapsed_fraction st t) 1
  then part_running (group_int (shown_value st t))
         (part_closure target_1234 "+" (Some (start_of st t)))
  else part_done "1,234+".
Proof.
  intros Hv. rewrite part_exact_frame. destruct (Qltb _ 1); [|reflexivity].
  f_equal. exact (exact_text_int (shown_value st t) Hv).
Qed.

Lemma part_done_trace (ts : list exact) (s : string) :
  Forall (fun o => o = ([s], false)) (map part_view (Part000.play ts (part_done s))).
Proof.
  induction ts as [|t r IH]; [constructor|].
  cbn [Part000.play map]. rewrite part_done_frame. constructor; [reflexivity | exact IH].
Qed.

Lemma part_sorted_trace (ts : list Q) (st : option Q) (s0 : string) (lo : Z) :
  StronglySorted Qle ts -> Forall (fun t => lo <= shown_value st t) ts -> 0 <= lo ->
  counts_up "1,234+" 1233 lo
    (map part_view
       (Part000.play (map EFin ts) (part_running s0 (part_closure target_1234 "+" st)))).
Proof.
  revert st s0 lo. induction ts as [|t r IH]; intros st s0 lo Hsorted Hlo H0;
    [apply counts_nil|].
  apply StronglySorted_inv in Hsorted. destruct Hsorted as [Hr Hall].
  apply Forall_cons_1 in Hlo. destruct Hlo as [Hv _].
  cbn [map Part000.play].
  rewrite part_exact_frame_1234 by lia.
  destruct (Qltb (elapsed_fraction st t) 1) eqn:E.
  - cbn [map part_view]. change (part_view (part_running ?s ?a)) with ([s], true).
    apply counts_frame.
    + split; [exact Hv | apply shown_value_below; exact E].
    + apply IH; [exact Hr | | lia].
      apply Forall_forall. intros t' Ht'.
      apply shown_value_mono. rewrite List.Forall_forall in Hall. apply Hall.
      apply list_elem_of_In. exact Ht'.
  - apply counts_done. constructor; [reflexivity|]. apply part_done_trace.
Qed.

(** ** Counters: the frames of "1,234+" *)

Ltac count_frames :=
  repeat lazymatch goal with
  | |- counts_up _ _ _ (([?s], true) :: _) =>
      let v := eval vm_compute in (digits_value 0 (replace_non_digits s)) in
      apply (counts_frame _ _ _ v); [lia|]
  | |- counts_up _ _ _ _ => apply counts_done; repeat constructor
  end.

(** Against C4 as stated: in main.js the 125th frame of "1,234+" shows
    "1,234", the grouping of 1234 itself, while the animation is still
    pending; the sum of 125 increments is 1233.9999999999998 in binary64
    and [Math.ceil] rounds it up. *)
Lemma increment_counter_counterexample :
  main_1234_frames !! 124%nat = Some ([group_int 1234], true) /\
  main_1234_frames !! 125%nat = Some (["1,234+"%string], false) /\
  group_int 1234 = "1,234"%string.
Proof. repeat split; vm_compute; reflexivity. Qed.

(** C4, amended.  For the counter that shows "1,234+": while the
    animation is pending every frame shows a digit-grouped integer that
    is at least the one of the frame before and at most 1234, and the
    frame that ends it shows exactly "1,234+".  main.js in binary64: 125
    frames count up to 1234 and the 126th is the final one.  part_000 in
    exact arithmetic, on every non-decreasing schedule of timestamps: the
    pending frames stay below 1234, and a frame 2000 ms or more after a
    non-zero first timestamp leaves "1,234+" with nothing pending.
    part_000 in binary64 at one frame per 16 ms: the same. *)
Theorem counter_1234_frames :
  counts_up "1,234+" 1234 0 main_1234_frames /\
  last main_1234_frames = Some (["1,234+"%string], false) /\
  (forall ts : list Q,
      Sorted Qle ts ->
      counts_up "1,234+" 1233 0
        (map part_view
           (Part000.play (map EFin ts)
              (Part000.count_up 0 (@part_counter exact exact_number "1,234+"))))) /\
  (forall (t0 t : Q) (ts : list Q),
      Qeq_bool t0 0 = false -> (2000 <= t - t0)%Q ->
      foldl (fun p t => Part000.animationFrame (EFin t) p)
        (Part000.count_up 0 (@part_counter exact exact_number "1,234+")) (t0 :: ts ++ [t])
      = part_done "1,234+") /\
  counts_up "1,234+" 1233 0 part_1234_frames_16ms /\
  last part_1234_frames_16ms = Some (["1,234+"%string], false).
Proof.
  split; [|split; [|split; [|split; [|split]]]].
  - unfold main_1234_frames.
    let l := eval vm_compute in main_1234_frames in change (counts_up "1,234+" 1234 0 l).
    count_frames.
  - vm_compute. reflexivity.
  - intros ts Hsorted. rewrite part_count_up_single.
    change {| Part000.innerText := ["0"%string];
              Part000.frameRequests := [part_animation "1,234+"] |}
      with (part_running "0" (part_closure target_1234 "+" None)).
    apply part_sorted_trace; [| |lia].
    + apply Sorted_StronglySorted; [|exact Hsorted].
      intros x y z. apply Qle_trans.
    + apply Forall_forall. intros t _.
      rewrite (shown_value_unset None t eq_refl). lia.
  - intros t0 t ts H0 Hlate. exact (part_exact_stops "1,234+" t0 t ts H0 Hlate).
  - let l := eval vm_compute in part_1234_frames_16ms in change (counts_up "1,234+" 1233 0 l).
    count_frames.
  - vm_compute. reflexivity.
Qed.

Lemma counter_1234_frames_witness :
  Sorted Qle [1000; 1016; 2000; 3000]%Q /\
  counts_up "1,234+" 1233 0
    (map part_view
       (Part000.play (map EFin [1000; 1016; 2000; 3000]%Q)
          (Part000.count_up 0 (@part_counter exact exact_number "1,234+")))).
Proof.
  assert (Hs : Sorted Qle [1000; 1016; 2000; 3000]%Q).
  { repeat constructor; unfold Qle; cbn; lia. }
  split; [exact Hs|].
  exact (proj1 (proj2 (proj2 counter_1234_frames)) _ Hs).
Defined.

(** ** Rounding in binary64

    The primitive operations are specified by the functions of
    [SpecFloat].  What follows bounds what they return on positive
    operands, in terms of the rational value of a double. *)

Lemma pow2_pos (e : Z) : (0 < pow2 e)%Q.
Proof. apply Qpower_0_lt. reflexivity. Qed.

Lemma pow2_add (a b : Z) : (pow2 (a + b) == pow2 a * pow2 b)%Q.
Proof. apply Qpower_plus. discriminate. Qed.

Lemma pow2_Z (e : Z) : 0 <= e -> (pow2 e == inject_Z (2 ^ e))%Q.
Proof. intros He. symmetry. apply (Zpower_Qpower 2 e He). Qed.

Lemma pow2_le (a b : Z) : a <= b -> (pow2 a <= pow2 b)%Q.
Proof. intros H. apply Qpower_le_compat_l; [exact H | discriminate]. Qed.

Lemma pow2_0 : (pow2 0 == 1)%Q.
Proof. reflexivity. Qed.

Lemma F2Q_scale (m e k : Z) : 0 <= k -> (F2Q (m * 2 ^ k) e == F2Q m (e + k))%Q.
Proof.
  intros Hk. unfold F2Q. rewrite pow2_add, inject_Z_mult, (pow2_Z k Hk). ring.
Qed.

Lemma F2Q_le (m n e : Z) : m <= n -> (F2Q m e <= F2Q n e)%Q.
Proof.
  intros H. unfold F2Q. apply Qmult_le_compat_r; [|apply Qlt_le_weak, pow2_pos].
  rewrite <- Zle_Qle. exact H.
Qed.

Lemma F2Q_lt (m n e : Z) : m < n -> (F2Q m e < F2Q n e)%Q.
Proof.
  intros H. unfold F2Q. apply Qmult_lt_compat_r; [apply pow2_pos|].
  rewrite <- Zlt_Qlt. exact H.
Qed.

Lemma F2Q_le_inv (m n e : Z) : (F2Q m e <= F2Q n e)%Q -> m <= n.
Proof.
  intros H. destruct (Z_le_gt_dec m n) as [L | G]; [exact L|].
  exfalso. apply (Qlt_not_le _ _ (F2Q_lt n m e ltac:(lia))). exact H.
Qed.

(** *** Digits and shifts *)

Lemma digits2_log2 (p : positive) : Z.pos (digits2_pos p) = Z.log2 (Z.pos p) + 1.
Proof.
  destruct p as [p | p |]; cbn [digits2_pos Z.log2]; [| |reflexivity];
    rewrite Pos2Z.inj_succ; f_equal; clear; induction p; cbn [digits2_pos Pos.size];
    try reflexivity; rewrite IHp; reflexivity.
Qed.

Lemma Zdigits2_log2 (m : Z) : 0 < m -> Zdigits2 m = Z.log2 m + 1.
Proof. destruct m; try lia. intros _. apply digits2_log2. Qed.

Lemma Zdigits2_bounds (m : Z) : 0 < m -> 2 ^ (Zdigits2 m - 1) <= m < 2 ^ Zdigits2 m.
Proof.
  intros Hm. rewrite (Zdigits2_log2 m Hm).
  replace (Z.log2 m + 1 - 1) with (Z.log2 m) by lia.
  exact (Z.log2_spec m Hm).
Qed.

Lemma Zdigits2_pos (m : Z) : 0 < m -> 0 < Zdigits2 m.
Proof. intros Hm. rewrite (Zdigits2_log2 m Hm). pose proof (Z.log2_nonneg m). lia. Qed.

Lemma Zdigits2_unique (m d : Z) : 0 < d -> 2 ^ (d - 1) <= m < 2 ^ d -> Zdigits2 m = d.
Proof.
  intros Hd H. assert (Hm : 0 < m) by (pose proof (Z.pow_pos_nonneg 2 (d - 1)); lia).
  rewrite (Zdigits2_log2 m Hm).
  rewrite (Z.log2_unique m (d - 1)); [lia | lia |].
  replace (Z.succ (d - 1)) with d by lia. exact H.
Qed.

Lemma Zdigits2_le (m n : Z) : 0 < m -> m <= n -> Zdigits2 m <= Zdigits2 n.
Proof.
  intros Hm H. rewrite !Zdigits2_log2 by lia. pose proof (Z.log2_le_mono m n H). lia.
Qed.

Lemma Zdigits2_div (m k : Z) :
  0 < m -> 0 <= k -> k < Zdigits2 m -> Zdigits2 (m / 2 ^ k) = Zdigits2 m - k.
Proof.
  intros Hm Hk Hd. pose proof (Zdigits2_bounds m Hm) as [Lo Hi].
  apply Zdigits2_unique; [lia|].
  assert (P : 0 < 2 ^ k) by (apply Z.pow_pos_nonneg; lia).
  split.
  - apply Z.div_le_lower_bound; [exact P|].
    rewrite <- Z.pow_add_r by lia. replace (k + (Zdigits2 m - k - 1)) with (Zdigits2 m - 1) by lia.
    exact Lo.
  - apply Z.div_lt_upper_bound; [exact P|].
    rewrite <- Z.pow_add_r by lia. replace (k + (Zdigits2 m - k)) with (Zdigits2 m) by lia.
    exact Hi.
Qed.

Lemma Zdigits2_div_small (m k : Z) : 0 < m -> Zdigits2 m <= k -> m / 2 ^ k = 0.
Proof.
  intros Hm Hk. pose proof (Zdigits2_bounds m Hm) as [Lo Hi].
  apply Z.div_small. split; [lia|].
  apply (Z.lt_le_trans _ _ _ Hi). apply Z.pow_le_mono_r; lia.
Qed.

Lemma shr_1_m (mrs : shr_record) : 0 <= shr_m mrs -> shr_m (shr_1 mrs) = shr_m mrs / 2.
Proof.
  destruct mrs as [m r s]. cbn [shr_m]. intros Hm.
  destruct m as [|p|p]; [reflexivity| |lia].
  destruct p as [p|p|]; cbn [shr_1 shr_m].
  - rewrite Pos2Z.inj_xI. apply (Z.div_unique _ _ _ 1); lia.
  - rewrite Pos2Z.inj_xO. apply (Z.div_unique _ _ _ 0); lia.
  - reflexivity.
Qed.

Lemma iter_shr_m (p : positive) (mrs : shr_record) :
  0 <= shr_m mrs -> shr_m (SpecFloat.iter_pos shr_1 p mrs) = shr_m mrs / 2 ^ Z.pos p.
Proof.
  revert mrs. induction p as [p IH | p IH |]; intros mrs Hm; cbn [SpecFloat.iter_pos].
  - assert (H1 : 0 <= shr_m (shr_1 mrs)) by (rewrite shr_1_m by exact Hm; apply Z.div_pos; lia).
    assert (H2 : 0 <= shr_m (SpecFloat.iter_pos shr_1 p (shr_1 mrs))).
    { rewrite IH by exact H1. apply Z.div_pos; [exact H1|]. apply Z.pow_pos_nonneg; lia. }
    rewrite IH by exact H2. rewrite IH by exact H1. rewrite shr_1_m by exact Hm.
    rewrite !Z.div_div by (try apply Z.pow_pos_nonneg; lia).
    f_equal. replace (Z.pos p~1) with (1 + Z.pos p + Z.pos p) by lia.
    rewrite !Z.pow_add_r by lia. change (2 ^ 1) with 2. ring.
  - assert (H2 : 0 <= shr_m (SpecFloat.iter_pos shr_1 p mrs)).
    { rewrite IH by exact Hm. apply Z.div_pos; [exact Hm|]. apply Z.pow_pos_nonneg; lia. }
    rewrite IH by exact H2. rewrite IH by exact Hm.
    rewrite !Z.div_div by (try apply Z.pow_pos_nonneg; lia).
    f_equal. replace (Z.pos p~0) with (Z.pos p + Z.pos p) by lia.
    rewrite !Z.pow_add_r by lia. reflexivity.
  - rewrite shr_1_m by exact Hm. reflexivity.
Qed.

Lemma shr_record_of_loc_m (m : Z) (l : location) : shr_m (shr_record_of_loc m l) = m.
Proof. destruct l as [|[]]; reflexivity. Qed.

Lemma shr_spec (mrs : shr_record) (e n : Z) :
  0 <= shr_m mrs ->
  snd (shr mrs e n) = e + Z.max 0 n /\
  shr_m (fst (shr mrs e n)) = shr_m mrs / 2 ^ Z.max 0 n.
Proof.
  intros Hm. destruct n as [|p|p]; cbn [shr fst snd].
  - rewrite Z.max_l by lia. cbn. split; [lia | symmetry; apply Z.div_1_r].
  - rewrite Z.max_r by lia. split; [reflexivity | apply iter_shr_m; exact Hm].
  - rewrite Z.max_l by lia. cbn. split; [lia | symmetry; apply Z.div_1_r].
Qed.

Lemma fexp64 (e : Z) : fexp prec emax e = Z.max (e - 53) (-1074).
Proof. reflexivity. Qed.

Lemma shr_fexp_spec (m e : Z) (l : location) :
  0 <= m ->
  snd (shr_fexp prec emax m e l) = Z.max e (fexp prec emax (Zdigits2 m + e)) /\
  shr_m (fst (shr_fexp prec emax m e l)) =
    m / 2 ^ (Z.max e (fexp prec emax (Zdigits2 m + e)) - e).
Proof.
  intros Hm. unfold shr_fexp.
  destruct (shr_spec (shr_record_of_loc m l) e (fexp prec emax (Zdigits2 m + e) - e)) as [He Hs].
  - rewrite shr_record_of_loc_m. exact Hm.
  - rewrite He, Hs, shr_record_of_loc_m.
    replace (Z.max e (fexp prec emax (Zdigits2 m + e)) - e)
      with (Z.max 0 (fexp prec emax (Zdigits2 m + e) - e)) by lia.
    split; [lia | reflexivity].
Qed.

Lemma round_nearest_even_bounds (m : Z) (l : location) :
  m <= round_nearest_even m l <= m + 1.
Proof. destruct l as [|[]]; cbn; try lia. destruct (Z.even m); lia. Qed.

(** The second shift of [binary_round_aux] loses nothing. *)
Lemma second_shift_exact (m2 e1 c : Z) :
  0 < m2 -> 0 < c -> m2 <= 2 ^ c -> fexp prec emax (c + e1) <= e1 ->
  let e3 := Z.max e1 (fexp prec emax (Zdigits2 m2 + e1)) in
  0 < m2 / 2 ^ (e3 - e1) /\ (F2Q (m2 / 2 ^ (e3 - e1)) e3 == F2Q m2 e1)%Q.
Proof.
  intros Hm Hc Hle Hf.
  assert (Hd : Zdigits2 m2 <= c + 1).
  { pose proof (Zdigits2_bounds m2 Hm) as [Lo _].
    destruct (Z_le_gt_dec (Zdigits2 m2) (c + 1)) as [L | G]; [exact L|]. exfalso.
    assert (2 ^ (c + 1) <= 2 ^ (Zdigits2 m2 - 1)) by (apply Z.pow_le_mono_r; lia).
    assert (2 ^ c < 2 ^ (c + 1)) by (apply Z.pow_lt_mono_r; lia). clear Hf. lia. }
  cbv zeta. rewrite !fexp64 in *.
  set (e3 := Z.max e1 _).
  destruct (Z_le_gt_dec (Zdigits2 m2) c) as [L | G].
  - assert (e3 = e1) by (subst e3; lia). rewrite H, Z.sub_diag, Z.pow_0_r, Z.div_1_r.
    split; [exact Hm | reflexivity].
  - assert (Hdc : Zdigits2 m2 = c + 1) by lia.
    pose proof (Zdigits2_bounds m2 Hm) as [Lo _]. rewrite Hdc in Lo.
    replace (c + 1 - 1) with c in Lo by lia.
    assert (Hm2 : m2 = 2 ^ c) by lia.
    assert (He : e3 = e1 \/ e3 = e1 + 1) by (subst e3; lia).
    destruct He as [-> | ->].
    + rewrite Z.sub_diag, Z.pow_0_r, Z.div_1_r. split; [exact Hm | reflexivity].
    + replace (e1 + 1 - e1) with 1 by lia. rewrite Z.pow_1_r.
      assert (Hh : m2 = 2 ^ (c - 1) * 2).
      { rewrite Hm2. replace c with (c - 1 + 1) at 1 by lia. rewrite Z.pow_add_r by lia.
        reflexivity. }
      rewrite Hh at 1 2. rewrite Z.div_mul by lia.
      split; [apply Z.pow_pos_nonneg; lia|].
      rewrite <- (F2Q_scale (2 ^ (c - 1)) e1 1) by lia. rewrite Z.pow_1_r, <- Hh. reflexivity.
Qed.

(** What [binary_round_aux] returns on a positive mantissa. *)
Lemma binary_round_aux_bounds (mx ex : Z) (lx : location) :
  0 < mx ->
  let e1 := Z.max ex (fexp prec emax (Zdigits2 mx + ex)) in
  let m1 := mx / 2 ^ (e1 - ex) in
  match binary_round_aux prec emax false mx ex lx with
  | S754_zero false => m1 = 0
  | S754_infinity false => True
  | S754_finite false m e => (F2Q m1 e1 <= F2Q (Z.pos m) e <= F2Q (m1 + 1) e1)%Q
  | _ => False
  end.
Proof.
  intros Hm e1 m1. unfold binary_round_aux.
  destruct (shr_fexp_spec mx ex lx ltac:(lia)) as [He1 Hm1].
  destruct (shr_fexp prec emax mx ex lx) as [mrs' e'] eqn:E1. cbn [fst snd] in He1, Hm1.
  fold e1 in He1, Hm1. fold m1 in Hm1. subst e'.
  pose proof (round_nearest_even_bounds (shr_m mrs') (loc_of_shr_record mrs')) as Hr.
  set (m2 := round_nearest_even (shr_m mrs') (loc_of_shr_record mrs')) in *.
  rewrite Hm1 in Hr.
  assert (Hm1nn : 0 <= m1) by (apply Z.div_pos; [lia | apply Z.pow_pos_nonneg; lia]).
  destruct (shr_fexp_spec m2 e1 loc_Exact ltac:(lia)) as [He3 Hm3].
  destruct (shr_fexp prec emax m2 e1 loc_Exact) as [mrs'' e''] eqn:E2. cbn [fst snd] in He3, Hm3.
  subst e''. rewrite Hm3.
  destruct (Z.eq_dec m2 0) as [Z0 | NZ].
  - rewrite Z0. rewrite Z.div_0_l by (apply Z.pow_nonzero; lia). lia.
  - assert (Hm2 : 0 < m2) by lia.
    assert (He1lo : -1074 <= e1) by (subst e1; rewrite fexp64; lia).
    assert (Hk : 0 <= e1 - ex) by (subst e1; lia).
    destruct (second_shift_exact m2 e1 (Z.max 1 (Zdigits2 mx - (e1 - ex)))) as [Hpos Hex].
    + exact Hm2.
    + lia.
    + destruct (Z_le_gt_dec (Zdigits2 mx) (e1 - ex)) as [L | G].
      * assert (m1 = 0) by (apply Zdigits2_div_small; [exact Hm | exact L]).
        rewrite Z.max_l by lia. change (2 ^ 1) with 2. lia.
      * rewrite Z.max_r by lia.
        pose proof (Zdigits2_div mx (e1 - ex) Hm Hk ltac:(lia)) as Hd. fold m1 in Hd.
        assert (0 < m1).
        { destruct (Z.eq_dec m1 0) as [E0|]; [|lia]. rewrite E0 in Hd. cbn in Hd. lia. }
        pose proof (Zdigits2_bounds m1 ltac:(lia)) as [_ Hi]. rewrite Hd in Hi. lia.
    + rewrite fexp64. subst e1. rewrite fexp64 in *. lia.
    + cbv zeta in Hpos, Hex.
      destruct (m2 / 2 ^ (Z.max e1 (fexp prec emax (Zdigits2 m2 + e1)) - e1)) as [|m3|m3] eqn:E3;
        try lia.
      destruct (_ <=? _); [|exact I].
      rewrite Hex. split; apply F2Q_le; lia.
Qed.

Lemma Zdigits2_mul_pow2 (m j : Z) : 0 < m -> 0 <= j -> Zdigits2 (m * 2 ^ j) = Zdigits2 m + j.
Proof.
  intros Hm Hj. pose proof (Zdigits2_bounds m Hm) as [Lo Hi].
  pose proof (Zdigits2_pos m Hm) as Hd.
  assert (P : 0 < 2 ^ j) by (apply Z.pow_pos_nonneg; lia).
  apply Zdigits2_unique; [lia|].
  replace (Zdigits2 m + j - 1) with (Zdigits2 m - 1 + j) by lia.
  rewrite !Z.pow_add_r by lia. split; nia.
Qed.

Lemma pow2_F2Q (j e : Z) : e <= j -> (pow2 j == F2Q (2 ^ (j - e)) e)%Q.
Proof.
  intros H. unfold F2Q. rewrite <- (pow2_Z (j - e)) by lia. rewrite <- pow2_add.
  replace (j - e + e) with j by lia. reflexivity.
Qed.

Lemma F2Q_pos (m e : Z) : 0 < m -> (0 < F2Q m e)%Q.
Proof.
  intros H. unfold F2Q. apply Qmult_lt_0_compat; [|apply pow2_pos].
  change 0%Q with (inject_Z 0). rewrite <- Zlt_Qlt. exact H.
Qed.

Lemma F2Q_nonneg (m e : Z) : 0 <= m -> (0 <= F2Q m e)%Q.
Proof.
  intros H. unfold F2Q. apply Qmult_le_0_compat; [|apply Qlt_le_weak, pow2_pos].
  change 0%Q with (inject_Z 0). rewrite <- Zle_Qle. exact H.
Qed.

Lemma F2Q_plus (m n e : Z) : (F2Q (m + n) e == F2Q m e + F2Q n e)%Q.
Proof. unfold F2Q. rewrite inject_Z_plus. ring. Qed.

Lemma F2Q_1 (e : Z) : (F2Q 1 e == pow2 e)%Q.
Proof. unfold F2Q. ring. Qed.

(** A value is below the power of two of its digits and exponent. *)
Lemma F2Q_digits (m e : Z) :
  0 < m -> (pow2 (Zdigits2 m + e - 1) <= F2Q m e < pow2 (Zdigits2 m + e))%Q.
Proof.
  intros Hm. pose proof (Zdigits2_bounds m Hm) as [Lo Hi].
  pose proof (Zdigits2_pos m Hm) as Hd. split.
  - rewrite (pow2_F2Q (Zdigits2 m + e - 1) e) by lia. apply F2Q_le.
    replace (Zdigits2 m + e - 1 - e) with (Zdigits2 m - 1) by lia. exact Lo.
  - rewrite (pow2_F2Q (Zdigits2 m + e) e) by lia. apply F2Q_lt.
    replace (Zdigits2 m + e - e) with (Zdigits2 m) by lia. exact Hi.
Qed.

(** The relative error of rounding, from below. *)
Lemma binary_round_aux_rel (mx ex : Z) (lx : location) :
  0 < mx ->
  -1074 <= Zdigits2 mx + ex - 53 \/ fexp prec emax (Zdigits2 mx + ex) <= ex ->
  match binary_round_aux prec emax false mx ex lx with
  | S754_infinity false => True
  | S754_finite false m e => (F2Q mx ex <= (1 + eps) * F2Q (Z.pos m) e)%Q
  | _ => False
  end.
Proof.
  intros Hm Hn. pose proof (binary_round_aux_bounds mx ex lx Hm) as Hb. cbv zeta in Hb.
  set (e1 := Z.max ex (fexp prec emax (Zdigits2 mx + ex))) in *.
  set (m1 := mx / 2 ^ (e1 - ex)) in *.
  assert (Hk : 0 <= e1 - ex) by (subst e1; lia).
  assert (P : 0 < 2 ^ (e1 - ex)) by (apply Z.pow_pos_nonneg; lia).
  assert (Hcore : 0 < m1 /\ (F2Q mx ex <= (1 + eps) * F2Q m1 e1)%Q).
  { destruct (Z.eq_dec e1 ex) as [E | NE].
    - assert (Hm1 : m1 = mx) by (subst m1; rewrite E, Z.sub_diag, Z.pow_0_r, Z.div_1_r; reflexivity).
      rewrite Hm1, E. split; [exact Hm|].
      pose proof (F2Q_pos mx ex Hm). unfold eps. lra.
    - assert (Hnorm : -1074 <= Zdigits2 mx + ex - 53 /\ e1 = Zdigits2 mx + ex - 53).
      { subst e1. rewrite fexp64 in *. lia. }
      destruct Hnorm as [Hnorm He1].
      assert (Hkd : e1 - ex = Zdigits2 mx - 53) by lia.
      assert (Hd1 : Zdigits2 m1 = 53).
      { subst m1. rewrite Zdigits2_div by lia. lia. }
      assert (Hm1 : 0 < m1).
      { destruct (Z.eq_dec m1 0) as [E0|]; [rewrite E0 in Hd1; discriminate Hd1|].
        assert (0 <= m1) by (apply Z.div_pos; lia). lia. }
      pose proof (Zdigits2_bounds m1 Hm1) as [Lo _]. rewrite Hd1 in Lo.
      change (2 ^ (53 - 1)) with 4503599627370496 in Lo.
      split; [exact Hm1|].
      assert (Hup : mx < (m1 + 1) * 2 ^ (e1 - ex)).
      { pose proof (Z.mul_succ_div_gt mx (2 ^ (e1 - ex)) P). fold m1 in H. lia. }
      apply Qle_trans with (F2Q ((m1 + 1) * 2 ^ (e1 - ex)) ex); [apply F2Q_le; lia|].
      rewrite (F2Q_scale (m1 + 1) ex (e1 - ex) Hk).
      replace (ex + (e1 - ex)) with e1 by lia.
      rewrite F2Q_plus. unfold F2Q at 2. unfold F2Q.
      pose proof (pow2_pos e1) as Pp.
      assert (Hq : (inject_Z 4503599627370496 <= inject_Z m1)%Q) by (rewrite <- Zle_Qle; exact Lo).
      assert (He : (eps * inject_Z 4503599627370496 == 1)%Q) by reflexivity.
      assert (Hx : (1 <= eps * inject_Z m1)%Q).
      { rewrite <- He. apply Qmult_le_l; [reflexivity | exact Hq]. }
      assert (Hy : (1 * pow2 e1 <= eps * inject_Z m1 * pow2 e1)%Q).
      { apply Qmult_le_compat_r; [exact Hx | apply Qlt_le_weak, Pp]. }
      change (inject_Z 1) with 1%Q. lra. }
  destruct Hcore as [Hm1 Hrel].
  destruct (binary_round_aux prec emax false mx ex lx) as [[]|[]| |[] m e]; try exact Hb; try lia.
  destruct Hb as [Hlo _].
  apply Qle_trans with ((1 + eps) * F2Q m1 e1)%Q; [exact Hrel|].
  apply Qmult_le_l; [reflexivity | exact Hlo].
Qed.

(** Rounding does not go below a power of two that the value reaches. *)
Lemma binary_round_aux_ge_pow2 (mx ex : Z) (lx : location) (j : Z) :
  0 < mx -> (pow2 j <= F2Q mx ex)%Q ->
  -1074 <= Zdigits2 mx + ex - 53 \/ fexp prec emax (Zdigits2 mx + ex) <= ex ->
  match binary_round_aux prec emax false mx ex lx with
  | S754_infinity false => True
  | S754_finite false m e => (pow2 j <= F2Q (Z.pos m) e)%Q
  | _ => False
  end.
Proof.
  intros Hm Hj Hn. pose proof (binary_round_aux_bounds mx ex lx Hm) as Hb. cbv zeta in Hb.
  set (e1 := Z.max ex (fexp prec emax (Zdigits2 mx + ex))) in *.
  set (m1 := mx / 2 ^ (e1 - ex)) in *.
  assert (Hk : 0 <= e1 - ex) by (subst e1; lia).
  assert (P : 0 < 2 ^ (e1 - ex)) by (apply Z.pow_pos_nonneg; lia).
  assert (Hm1 : 0 < m1).
  { destruct (Z.eq_dec e1 ex) as [E | NE].
    - subst m1. rewrite E, Z.sub_diag, Z.pow_0_r, Z.div_1_r. exact Hm.
    - assert (e1 - ex = Zdigits2 mx - 53) by (subst e1; rewrite fexp64 in *; lia).
      assert (Hd1 : Zdigits2 m1 = 53) by (subst m1; rewrite Zdigits2_div by lia; lia).
      destruct (Z.eq_dec m1 0) as [E0|]; [rewrite E0 in Hd1; discriminate Hd1|].
      assert (0 <= m1) by (apply Z.div_pos; lia). lia. }
  assert (Hcore : (pow2 j <= F2Q m1 e1)%Q).
  { destruct (Z_le_gt_dec e1 j) as [L | G].
    - rewrite (pow2_F2Q j e1 L). apply F2Q_le.
      apply Z.div_le_lower_bound; [exact P|].
      rewrite <- Z.pow_add_r by lia. replace (e1 - ex + (j - e1)) with (j - ex) by lia.
      apply (F2Q_le_inv _ _ ex). rewrite <- pow2_F2Q by lia. exact Hj.
    - apply Qle_trans with (pow2 e1); [apply pow2_le; lia|].
      rewrite <- F2Q_1. apply F2Q_le. lia. }
  destruct (binary_round_aux prec emax false mx ex lx) as [[]|[]| |[] m e]; try exact Hb; try lia.
  destruct Hb as [Hlo _]. exact (Qle_trans _ _ _ Hcore Hlo).
Qed.

(** ** Valid floats and their order *)

Lemma valid_finite (s : bool) (m : positive) (e : Z) :
  SpecFloat.valid_binary prec emax (S754_finite s m e) = true ->
  fexp prec emax (Zdigits2 (Z.pos m) + e) = e /\ e <= 971.
Proof.
  cbn [SpecFloat.valid_binary]. unfold bounded, canonical_mantissa.
  intros [H1 H2]%andb_true_iff. apply Z.eqb_eq in H1. apply Z.leb_le in H2.
  split; [exact H1 | exact H2].
Qed.

Lemma canonical_lt (s1 s2 : bool) (m1 m2 : positive) (e1 e2 : Z) :
  SpecFloat.valid_binary prec emax (S754_finite s1 m1 e1) = true ->
  SpecFloat.valid_binary prec emax (S754_finite s2 m2 e2) = true ->
  e1 < e2 -> (F2Q (Z.pos m1) e1 < F2Q (Z.pos m2) e2)%Q.
Proof.
  intros [V1 _]%valid_finite [V2 _]%valid_finite H. rewrite fexp64 in V1, V2.
  destruct (F2Q_digits (Z.pos m1) e1 ltac:(lia)) as [_ Hi].
  destruct (F2Q_digits (Z.pos m2) e2 ltac:(lia)) as [Lo _].
  apply Qlt_le_trans with (pow2 (Zdigits2 (Z.pos m1) + e1)); [exact Hi|].
  apply Qle_trans with (pow2 (Zdigits2 (Z.pos m2) + e2 - 1)); [|exact Lo].
  apply pow2_le. lia.
Qed.

Lemma SFltb_ge (m1 m2 : positive) (e1 e2 : Z) :
  SpecFloat.valid_binary prec emax (S754_finite false m1 e1) = true ->
  SpecFloat.valid_binary prec emax (S754_finite false m2 e2) = true ->
  (F2Q (Z.pos m2) e2 <= F2Q (Z.pos m1) e1)%Q ->
  SFltb (S754_finite false m1 e1) (S754_finite false m2 e2) = false.
Proof.
  intros V1 V2 H. unfold SFltb. cbn [SFcompare].
  destruct (Z.compare_spec e1 e2) as [E | L | G]; [|exfalso|reflexivity].
  - subst e2. change (Pos.compare_cont Eq m1 m2) with (Pos.compare m1 m2).
    destruct (Pos.compare_spec m1 m2) as [E | L | G]; try reflexivity.
    exfalso. apply (Qlt_not_le _ _ (F2Q_lt (Z.pos m1) (Z.pos m2) e1 ltac:(lia))). exact H.
  - exact (Qlt_not_le _ _ (canonical_lt false false m1 m2 e1 e2 V1 V2 L) H).
Qed.

Lemma SFleb_inv (mc : positive) (ec : Z) (x : spec_float) :
  SpecFloat.valid_binary prec emax (S754_finite false mc ec) = true ->
  SpecFloat.valid_binary prec emax x = true ->
  SFleb (S754_finite false mc ec) x = true ->
  x = S754_infinity false \/
  exists m e, x = S754_finite false m e /\ (F2Q (Z.pos mc) ec <= F2Q (Z.pos m) e)%Q.
Proof.
  intros Vc Vx. unfold SFleb. destruct x as [s | s | | s m e]; cbn [SFcompare].
  - discriminate.
  - destruct s; [discriminate | left; reflexivity].
  - discriminate.
  - destruct s; [discriminate|]. intros H. right. exists m, e. split; [reflexivity|].
    destruct (Z.compare_spec ec e) as [E | L | G]; [| |discriminate H].
    + subst e. change (Pos.compare_cont Eq mc m) with (Pos.compare mc m) in H.
      destruct (Pos.compare_spec mc m) as [E | L | G]; [| |discriminate H];
        apply F2Q_le; lia.
    + apply Qlt_le_weak. exact (canonical_lt false false mc m ec e Vc Vx L).
Qed.

Lemma iter_xO (m d : positive) : Z.pos (Pos.iter xO m d) = Z.pos m * 2 ^ Z.pos d.
Proof.
  induction d as [|d IH] using Pos.peano_ind.
  - cbn [Pos.iter]. rewrite Z.pow_1_r. lia.
  - rewrite Pos.iter_succ, Pos2Z.inj_succ, Z.pow_succ_r by lia.
    rewrite Pos2Z.inj_xO, IH. ring.
Qed.

Lemma shl_align_spec (m : positive) (e e' : Z) :
  snd (shl_align m e e') = Z.min e e' /\
  Z.pos (fst (shl_align m e e')) = Z.pos m * 2 ^ (e - Z.min e e').
Proof.
  unfold shl_align. destruct (e' - e) as [|d|d] eqn:E; cbn [fst snd].
  - rewrite Z.min_l by lia. rewrite Z.sub_diag, Z.pow_0_r. lia.
  - rewrite Z.min_l by lia. rewrite Z.sub_diag, Z.pow_0_r. lia.
  - rewrite Z.min_r by lia. split; [reflexivity|]. rewrite iter_xO. f_equal. f_equal. lia.
Qed.

(** The second shift of [binary_round_aux] yields a canonical mantissa. *)
Lemma shr_canonical (m2 e1 : Z) :
  0 < m2 -> e1 <= fexp prec emax (Zdigits2 m2 + e1) ->
  let e3 := Z.max e1 (fexp prec emax (Zdigits2 m2 + e1)) in
  let m3 := m2 / 2 ^ (e3 - e1) in
  0 < m3 -> fexp prec emax (Zdigits2 m3 + e3) = e3.
Proof.
  intros Hm He e3 m3 Hm3.
  assert (E3 : e3 = fexp prec emax (Zdigits2 m2 + e1)) by (subst e3; lia).
  assert (Hk : 0 <= e3 - e1) by lia.
  destruct (Z_le_gt_dec (Zdigits2 m2) (e3 - e1)) as [L | G].
  - exfalso. subst m3. rewrite (Zdigits2_div_small m2 (e3 - e1) Hm L) in Hm3. lia.
  - assert (Hd : Zdigits2 m3 = Zdigits2 m2 - (e3 - e1)) by (apply Zdigits2_div; lia).
    rewrite Hd. replace (Zdigits2 m2 - (e3 - e1) + e3) with (Zdigits2 m2 + e1) by lia.
    symmetry. exact E3.
Qed.

Lemma binary_round_aux_valid (mx ex : Z) (lx : location) :
  0 < mx -> ex <= fexp prec emax (Zdigits2 mx + ex) ->
  SpecFloat.valid_binary prec emax (binary_round_aux prec emax false mx ex lx) = true.
Proof.
  intros Hm Hex. unfold binary_round_aux.
  destruct (shr_fexp_spec mx ex lx ltac:(lia)) as [He1 Hm1].
  destruct (shr_fexp prec emax mx ex lx) as [mrs' e'] eqn:E1. cbn [fst snd] in He1, Hm1.
  set (e1 := Z.max ex (fexp prec emax (Zdigits2 mx + ex))) in *.
  set (m1 := mx / 2 ^ (e1 - ex)) in *. subst e'.
  pose proof (round_nearest_even_bounds (shr_m mrs') (loc_of_shr_record mrs')) as Hr.
  set (m2 := round_nearest_even (shr_m mrs') (loc_of_shr_record mrs')) in *.
  rewrite Hm1 in Hr.
  assert (Hk : 0 <= e1 - ex) by (subst e1; lia).
  assert (Hm1nn : 0 <= m1) by (apply Z.div_pos; [lia | apply Z.pow_pos_nonneg; lia]).
  destruct (shr_fexp_spec m2 e1 loc_Exact ltac:(lia)) as [He3 Hm3].
  destruct (shr_fexp prec emax m2 e1 loc_Exact) as [mrs'' e''] eqn:E2. cbn [fst snd] in He3, Hm3.
  subst e''.
  destruct (shr_m mrs'') as [|m3|m3] eqn:E3; [reflexivity| |reflexivity].
  destruct (Z.leb_spec (Z.max e1 (fexp prec emax (Zdigits2 m2 + e1))) (emax - prec)) as [Hle | Hgt];
    [|reflexivity].
  cbn [SpecFloat.valid_binary]. unfold bounded, canonical_mantissa.
  apply andb_true_iff. split; [|apply Z.leb_le; exact Hle].
  apply Z.eqb_eq.
  assert (Hm2 : 0 < m2).
  { destruct (Z.eq_dec m2 0) as [E0|]; [|lia]. exfalso.
    rewrite E0, Z.div_0_l in Hm3 by (apply Z.pow_nonzero; lia). discriminate Hm3. }
  assert (Hcond : e1 <= fexp prec emax (Zdigits2 m2 + e1)).
  { assert (He1 : e1 = fexp prec emax (Zdigits2 mx + ex)) by (subst e1; lia).
    destruct (Z_le_gt_dec (Zdigits2 mx) (e1 - ex)) as [L | G].
    - rewrite fexp64 in *. lia.
    - pose proof (Zdigits2_div mx (e1 - ex) Hm Hk ltac:(lia)) as Hd. fold m1 in Hd.
      assert (0 < m1).
      { destruct (Z.eq_dec m1 0) as [E0|]; [|lia]. rewrite E0 in Hd. cbn in Hd. lia. }
      pose proof (Zdigits2_le m1 m2 ltac:(lia) ltac:(lia)).
      rewrite fexp64 in *. lia. }
  pose proof (shr_canonical m2 e1 Hm2 Hcond) as Hc. cbv zeta in Hc.
  rewrite <- Hm3 in Hc. change (Zdigits2 (Z.pos m3)) with (Z.pos (digits2_pos m3)) in Hc.
  apply Hc. lia.
Qed.

Lemma binary_round_ok (p : positive) (e : Z) :
  SpecFloat.valid_binary prec emax (binary_round prec emax false p e) = true /\
  (-1074 <= Zdigits2 (Z.pos p) + e - 53 \/ -1074 <= e ->
   match binary_round prec emax false p e with
   | S754_infinity false => True
   | S754_finite false m e' => (F2Q (Z.pos p) e <= (1 + eps) * F2Q (Z.pos m) e')%Q
   | _ => False
   end).
Proof.
  unfold binary_round.
  destruct (shl_align_spec p e (fexp prec emax (Z.pos (digits2_pos p) + e))) as [He Hm].
  destruct (shl_align p e (fexp prec emax (Z.pos (digits2_pos p) + e))) as [mz ez].
  cbn [fst snd] in He, Hm.
  change (Z.pos (digits2_pos p)) with (Zdigits2 (Z.pos p)) in *.
  set (f := fexp prec emax (Zdigits2 (Z.pos p) + e)) in *.
  assert (Hk : 0 <= e - Z.min e f) by lia.
  assert (Hd : Zdigits2 (Z.pos mz) + ez = Zdigits2 (Z.pos p) + e).
  { rewrite Hm, Zdigits2_mul_pow2 by lia. lia. }
  assert (Hv : (F2Q (Z.pos mz) ez == F2Q (Z.pos p) e)%Q).
  { rewrite Hm, (F2Q_scale (Z.pos p) ez (e - Z.min e f) Hk).
    replace (ez + (e - Z.min e f)) with e by lia. reflexivity. }
  split.
  - apply binary_round_aux_valid; [lia|]. rewrite Hd. fold f. lia.
  - intros Hn.
    pose proof (binary_round_aux_rel (Z.pos mz) ez loc_Exact ltac:(lia)) as Hr.
    rewrite Hd in Hr. fold f in Hr.
    assert (Hside : -1074 <= Zdigits2 (Z.pos p) + e - 53 \/ f <= ez).
    { subst f. rewrite fexp64 in *. lia. }
    specialize (Hr Hside).
    destruct (binary_round_aux prec emax false (Z.pos mz) ez loc_Exact) as [[]|[]| |[] m e'];
      try exact Hr.
    rewrite <- Hv. exact Hr.
Qed.

(** ** Addition of two positive floats *)

Lemma SFadd_pos (mx my : positive) (ex ey : Z) :
  SpecFloat.valid_binary prec emax (S754_finite false mx ex) = true ->
  SpecFloat.valid_binary prec emax (S754_finite false my ey) = true ->
  match SFadd prec emax (S754_finite false mx ex) (S754_finite false my ey) with
  | S754_infinity false => True
  | S754_finite false m e =>
      (F2Q (Z.pos mx) ex + F2Q (Z.pos my) ey <= (1 + eps) * F2Q (Z.pos m) e)%Q
  | _ => False
  end.
Proof.
  intros [Vx _]%valid_finite [Vy _]%valid_finite. cbn [SFadd cond_Zopp].
  set (ez := Z.min ex ey).
  destruct (shl_align_spec mx ex ez) as [_ Hx]. destruct (shl_align_spec my ey ez) as [_ Hy].
  assert (Ex : Z.min ex ez = ez) by (subst ez; lia).
  assert (Ey : Z.min ey ez = ez) by (subst ez; lia).
  rewrite Ex in Hx. rewrite Ey in Hy.
  set (px := fst (shl_align mx ex ez)) in *. set (py := fst (shl_align my ey ez)) in *.
  change (Z.pos px + Z.pos py) with (Z.pos (px + py)). cbn [binary_normalize].
  destruct (binary_round_ok (px + py) ez) as [_ Hr].
  assert (Hez : -1074 <= ez) by (subst ez; rewrite fexp64 in *; lia).
  specialize (Hr (or_intror Hez)).
  assert (Hv : (F2Q (Z.pos (px + py)) ez == F2Q (Z.pos mx) ex + F2Q (Z.pos my) ey)%Q).
  { rewrite Pos2Z.inj_add, F2Q_plus, Hx, Hy.
    rewrite (F2Q_scale (Z.pos mx) ez (ex - ez)) by lia.
    rewrite (F2Q_scale (Z.pos my) ez (ey - ez)) by lia.
    replace (ez + (ex - ez)) with ex by lia. replace (ez + (ey - ez)) with ey by lia.
    reflexivity. }
  destruct (binary_round prec emax false (px + py) ez) as [[]|[]| |[] m e]; try exact Hr.
  rewrite <- Hv. exact Hr.
Qed.

Lemma F2Q_succ_eps (m e : Z) :
  4503599627370496 <= m -> (F2Q (m + 1) e <= (1 + eps) * F2Q m e)%Q.
Proof.
  intros Lo. rewrite F2Q_plus. unfold F2Q.
  pose proof (pow2_pos e) as Pp.
  assert (Hq : (inject_Z 4503599627370496 <= inject_Z m)%Q) by (rewrite <- Zle_Qle; exact Lo).
  assert (He : (eps * inject_Z 4503599627370496 == 1)%Q) by reflexivity.
  assert (Hx : (1 <= eps * inject_Z m)%Q).
  { rewrite <- He. apply Qmult_le_l; [reflexivity | exact Hq]. }
  assert (Hy : (1 * pow2 e <= eps * inject_Z m * pow2 e)%Q).
  { apply Qmult_le_compat_r; [exact Hx | apply Qlt_le_weak, Pp]. }
  change (inject_Z 1) with 1%Q. lra.
Qed.

Lemma F2Q_mult (m n e f : Z) : (F2Q m e * F2Q n f == F2Q (m * n) (e + f))%Q.
Proof. unfold F2Q. rewrite pow2_add, inject_Z_mult. ring. Qed.

(** ** Division of two positive floats whose quotient is not subnormal *)

Lemma SFdiv_pos (mx my : positive) (ex ey : Z) :
  -1074 <= Zdigits2 (Z.pos mx) + ex - (Zdigits2 (Z.pos my) + ey) - 53 ->
  match SFdiv prec emax (S754_finite false mx ex) (S754_finite false my ey) with
  | S754_infinity false => True
  | S754_finite false m e =>
      (F2Q (Z.pos mx) ex <= (1 + eps) * (1 + eps) * F2Q (Z.pos m) e * F2Q (Z.pos my) ey)%Q /\
      ((F2Q (Z.pos my) ey <= F2Q (Z.pos mx) ex)%Q -> (1 <= F2Q (Z.pos m) e)%Q)
  | _ => False
  end.
Proof.
  intros Hn. cbn [SFdiv xorb]. unfold SFdiv_core_binary.
  set (d1 := Zdigits2 (Z.pos mx)) in *. set (d2 := Zdigits2 (Z.pos my)) in *.
  assert (Hf : fexp prec emax (d1 + ex - (d2 + ey)) = d1 + ex - (d2 + ey) - 53)
    by (rewrite fexp64; lia).
  rewrite Hf.
  set (e' := Z.min (d1 + ex - (d2 + ey) - 53) (ex - ey)).
  set (s := ex - ey - e').
  assert (Hs : 0 <= s) by (subst s e'; lia).
  assert (Hs2 : 53 - d1 + d2 <= s) by (subst s e'; lia).
  set (m' := match s with Z0 => Z.pos mx | Z.pos _ => Z.shiftl (Z.pos mx) s | Z.neg _ => 0 end).
  assert (Hm' : m' = Z.pos mx * 2 ^ s).
  { subst m'. destruct s as [|p|p] eqn:Es; [rewrite Z.pow_0_r; lia | | lia].
    apply Z.shiftl_mul_pow2. lia. }
  assert (Hloc : Z.div_eucl m' (Z.pos my) = (m' / Z.pos my, m' mod Z.pos my)).
  { unfold Z.modulo, Z.div. destruct (Z.div_eucl m' (Z.pos my)). reflexivity. }
  rewrite Hloc. clear Hloc.
  set (q := m' / Z.pos my). assert (Hq : q = m' / Z.pos my) by reflexivity.
  clearbody m' q.
  pose proof (Zdigits2_bounds (Z.pos mx) ltac:(lia)) as [Lo1 Hi1]. fold d1 in Lo1, Hi1.
  pose proof (Zdigits2_bounds (Z.pos my) ltac:(lia)) as [Lo2 Hi2]. fold d2 in Lo2, Hi2.
  pose proof (Zdigits2_pos (Z.pos mx) ltac:(lia)) as Hd1. fold d1 in Hd1.
  pose proof (Zdigits2_pos (Z.pos my) ltac:(lia)) as Hd2. fold d2 in Hd2.
  set (J := d1 - 1 + s - d2).
  assert (HJ : 52 <= J) by (subst J; lia).
  assert (HqJ : 2 ^ J <= q).
  { rewrite Hq. apply Z.div_le_lower_bound; [lia|].
    apply Z.le_trans with (2 ^ d2 * 2 ^ J).
    - apply Z.mul_le_mono_nonneg_r; [apply Z.pow_nonneg; lia | lia].
    - rewrite <- Z.pow_add_r by lia. replace (d2 + J) with (d1 - 1 + s) by (subst J; lia).
      rewrite Z.pow_add_r by lia. rewrite Hm'.
      apply Z.mul_le_mono_nonneg_r; [apply Z.pow_nonneg; lia | exact Lo1]. }
  assert (Hq52 : 4503599627370496 <= q).
  { apply Z.le_trans with (2 ^ J); [|exact HqJ].
    change 4503599627370496 with (2 ^ 52). apply Z.pow_le_mono_r; lia. }
  assert (Hqpos : 0 < q) by lia.
  assert (HdJ : J + 1 <= Zdigits2 q).
  { assert (Zdigits2 (2 ^ J) = J + 1).
    { apply Zdigits2_unique; [lia|]. replace (J + 1 - 1) with J by lia.
      split; [lia | apply Z.pow_lt_mono_r; lia]. }
    rewrite <- H. apply Zdigits2_le; [apply Z.pow_pos_nonneg; lia | exact HqJ]. }
  assert (Hnq : -1074 <= Zdigits2 q + e' - 53) by (subst J s; lia).
  pose proof (binary_round_aux_rel q e' (new_location (Z.pos my) (m' mod Z.pos my)) Hqpos
                (or_introl Hnq)) as Hrel.
  pose proof (Z.mul_div_le m' (Z.pos my) ltac:(lia)) as Hlow. rewrite <- Hq in Hlow.
  pose proof (Z.mul_succ_div_gt m' (Z.pos my) ltac:(lia)) as Hup. rewrite <- Hq in Hup.
  assert (Hvx : (F2Q (Z.pos mx) ex == F2Q m' (e' + ey))%Q).
  { rewrite Hm', (F2Q_scale (Z.pos mx) (e' + ey) s Hs).
    replace (e' + ey + s) with ex by (subst s; lia). reflexivity. }
  assert (Hone : (F2Q (Z.pos my) ey <= F2Q (Z.pos mx) ex)%Q -> (pow2 0 <= F2Q q e')%Q).
  { intros Hge. destruct (Z_le_gt_dec e' 0) as [L | G].
    - rewrite (pow2_F2Q 0 e' L). apply F2Q_le. rewrite Hq.
      apply Z.div_le_lower_bound; [lia|].
      apply (F2Q_le_inv _ _ (e' + ey)). rewrite <- Hvx.
      rewrite (F2Q_scale (Z.pos my) (e' + ey) (0 - e')) by lia.
      replace (e' + ey + (0 - e')) with ey by lia. exact Hge.
    - apply Qle_trans with (pow2 e'); [apply pow2_le; lia|].
      rewrite <- F2Q_1. apply F2Q_le. lia. }
  pose proof (fun H => binary_round_aux_ge_pow2 q e'
                (new_location (Z.pos my) (m' mod Z.pos my)) 0 Hqpos (Hone H) (or_introl Hnq))
    as Hge1.
  destruct (binary_round_aux prec emax false q e' (new_location (Z.pos my) (m' mod Z.pos my)))
    as [[]|[]| |[] m e]; try exact Hrel.
  split.
  - pose proof (F2Q_succ_eps q e' Hq52) as Hsucc.
    assert (Hlt : (F2Q (Z.pos mx) ex <= F2Q (q + 1) e' * F2Q (Z.pos my) ey)%Q).
    { rewrite Hvx, F2Q_mult. apply F2Q_le. lia. }
    pose proof (F2Q_pos (Z.pos my) ey ltac:(lia)) as Py.
    pose proof (F2Q_pos (Z.pos m) e ltac:(lia)) as Pm.
    pose proof (F2Q_pos q e' Hqpos) as Pq.
    assert (He : (0 < eps)%Q) by reflexivity.
    apply Qle_trans with (F2Q (q + 1) e' * F2Q (Z.pos my) ey)%Q; [exact Hlt|].
    apply Qmult_le_compat_r; [|apply Qlt_le_weak, Py].
    apply Qle_trans with ((1 + eps) * F2Q q e')%Q; [exact Hsucc|].
    rewrite <- Qmult_assoc. apply Qmult_le_l; [lra | exact Hrel].
  - intros Hge. rewrite <- pow2_0. exact (Hge1 Hge).
Qed.

(** ** The primitive operations on positive doubles *)

Lemma pow2_lt_inv (a b : Z) : (pow2 a < pow2 b)%Q -> a < b.
Proof.
  intros H. destruct (Z_lt_ge_dec a b) as [L | G]; [exact L|]. exfalso.
  apply (Qlt_not_le _ _ H). apply pow2_le. lia.
Qed.

Lemma float_add_pos (x y : float) (vx vy : Q) :
  finite_pos x vx -> finite_pos y vy ->
  plus_infinity (x + y)%float \/
  exists v : Q, finite_pos (x + y)%float v /\ (vx + vy <= (1 + eps) * v)%Q.
Proof.
  intros (mx & ex & Ex & Hx) (my & ey & Ey & Hy).
  pose proof (Prim2SF_valid x) as Vx. pose proof (Prim2SF_valid y) as Vy.
  rewrite Ex in Vx. rewrite Ey in Vy.
  pose proof (SFadd_pos mx my ex ey Vx Vy) as H.
  unfold plus_infinity, finite_pos. rewrite add_spec, Ex, Ey. unfold SF64add.
  destruct (SFadd prec emax _ _) as [[]|[]| |[] m e]; try contradiction.
  - left. reflexivity.
  - right. exists (F2Q (Z.pos m) e). split; [exists m, e; split; reflexivity|].
    rewrite Hx, Hy. exact H.
Qed.

Lemma float_add_zero (y : float) :
  Prim2SF y <> S754_zero true -> (ieee_of_Z 0 + y)%float = y.
Proof.
  intros Hz. apply Prim2SF_inj. rewrite add_spec.
  change (Prim2SF (ieee_of_Z 0)) with (S754_zero false). unfold SF64add.
  destruct (Prim2SF y) as [[]|s| |s m e]; try reflexivity.
  exfalso. exact (Hz eq_refl).
Qed.

Lemma float_ltb_ge (x y : float) (vx vy : Q) :
  finite_pos x vx -> finite_pos y vy -> (vy <= vx)%Q -> (x <? y)%float = false.
Proof.
  intros (mx & ex & Ex & Hx) (my & ey & Ey & Hy) H.
  pose proof (Prim2SF_valid x) as Vx. pose proof (Prim2SF_valid y) as Vy.
  rewrite Ex in Vx. rewrite Ey in Vy.
  rewrite ltb_spec, Ex, Ey. apply SFltb_ge; [exact Vx | exact Vy|].
  rewrite <- Hx, <- Hy. exact H.
Qed.

Lemma float_ltb_infinity (x y : float) : plus_infinity x -> (x <? y)%float = false.
Proof.
  unfold plus_infinity. intros E. rewrite ltb_spec, E. unfold SFltb.
  destruct (Prim2SF y) as [s|[]| |[] m e]; reflexivity.
Qed.

Lemma float_leb_inv (c x : float) (vc : Q) :
  finite_pos c vc -> (c <=? x)%float = true ->
  plus_infinity x \/ exists v : Q, finite_pos x v /\ (vc <= v)%Q.
Proof.
  intros (mc & ec & Ec & Hc) H.
  pose proof (Prim2SF_valid c) as Vc. pose proof (Prim2SF_valid x) as Vx.
  rewrite Ec in Vc. rewrite leb_spec, Ec in H.
  destruct (SFleb_inv mc ec (Prim2SF x) Vc Vx H) as [Hi | (m & e & E & Hle)].
  - left. exact Hi.
  - right. exists (F2Q (Z.pos m) e). split; [exists m, e; split; [exact E | reflexivity]|].
    rewrite Hc. exact Hle.
Qed.

(** Division by a positive float, the quotient not subnormal. *)
Lemma float_div_pos (x y : float) (vx vy : Q) (j : Z) (my : positive) (ey : Z) :
  Prim2SF y = S754_finite false my ey -> (vy == F2Q (Z.pos my) ey)%Q ->
  finite_pos x vx -> (pow2 j <= vx)%Q ->
  -1074 <= j + 1 - (Zdigits2 (Z.pos my) + ey) - 53 ->
  plus_infinity (x / y)%float \/
  exists v : Q, finite_pos (x / y)%float v /\
    (vx <= (1 + eps) * (1 + eps) * v * vy)%Q /\ ((vy <= vx)%Q -> (1 <= v)%Q).
Proof.
  intros Ey Hy (mx & ex & Ex & Hx) Hj Hn.
  assert (Hd : j < Zdigits2 (Z.pos mx) + ex).
  { apply pow2_lt_inv. apply Qle_lt_trans with vx; [exact Hj|].
    rewrite Hx. apply F2Q_digits. lia. }
  pose proof (SFdiv_pos mx my ex ey ltac:(clear - Hd Hn; lia)) as H.
  unfold plus_infinity, finite_pos. rewrite div_spec, Ex, Ey. unfold SF64div.
  destruct (SFdiv prec emax _ _) as [[]|[]| |[] m e]; try contradiction.
  - left. reflexivity.
  - right. exists (F2Q (Z.pos m) e). split; [exists m, e; split; reflexivity|].
    rewrite Hx, Hy. exact H.
Qed.

(** [parseInt] of a natural number, in binary64. *)
Lemma ieee_of_Z_cases (n : Z) :
  0 < n ->
  ieee_of_Z n = infinity \/
  exists v : Q, finite_pos (ieee_of_Z n) v /\ (inject_Z n <= (1 + eps) * v)%Q.
Proof.
  intros Hn. unfold ieee_of_Z. destruct n as [|p|p]; try lia. cbn [binary_normalize].
  destruct (binary_round_ok p 0) as [Hv Hr].
  assert (H0 : -1074 <= 0) by lia. specialize (Hr (or_intror H0)).
  unfold finite_pos. 
  destruct (binary_round prec emax false p 0) as [[]|[]| |[] m e] eqn:E; try contradiction.
  - left. reflexivity.
  - right. exists (F2Q (Z.pos m) e). rewrite (Prim2SF_SF2Prim _ Hv).
    split; [exists m, e; split; reflexivity|].
    apply Qle_trans with (F2Q (Z.pos p) 0); [|exact Hr].
    unfold F2Q. rewrite pow2_0. lra.
Qed.

(** Rounding does not go below a float that the value reaches. *)
Lemma binary_round_aux_ge (mx ex : Z) (lx : location) (mc ec : Z) :
  0 < mx -> 0 < mc < 2 ^ 53 -> (F2Q mc ec <= F2Q mx ex)%Q ->
  -1074 <= Zdigits2 mx + ex - 53 \/ fexp prec emax (Zdigits2 mx + ex) <= ex ->
  match binary_round_aux prec emax false mx ex lx with
  | S754_infinity false => True
  | S754_finite false m e => (F2Q mc ec <= F2Q (Z.pos m) e)%Q
  | _ => False
  end.
Proof.
  intros Hm Hmc Hc Hn. pose proof (binary_round_aux_bounds mx ex lx Hm) as Hb. cbv zeta in Hb.
  set (e1 := Z.max ex (fexp prec emax (Zdigits2 mx + ex))) in *.
  set (m1 := mx / 2 ^ (e1 - ex)) in *.
  assert (Hk : 0 <= e1 - ex) by (subst e1; lia).
  assert (P : 0 < 2 ^ (e1 - ex)) by (apply Z.pow_pos_nonneg; lia).
  assert (Hcore : 0 < m1 /\ (F2Q mc ec <= F2Q m1 e1)%Q).
  { destruct (Z.eq_dec e1 ex) as [E | NE].
    - assert (Hm1 : m1 = mx) by (subst m1; rewrite E, Z.sub_diag, Z.pow_0_r, Z.div_1_r; reflexivity).
      rewrite Hm1, E. split; [exact Hm | exact Hc].
    - assert (He1 : e1 - ex = Zdigits2 mx - 53) by (subst e1; rewrite fexp64 in *; lia).
      assert (Hd1 : Zdigits2 m1 = 53) by (subst m1; rewrite Zdigits2_div by lia; lia).
      assert (Hm1 : 0 < m1).
      { destruct (Z.eq_dec m1 0) as [E0|]; [rewrite E0 in Hd1; discriminate Hd1|].
        assert (0 <= m1) by (apply Z.div_pos; lia). lia. }
      split; [exact Hm1|].
      pose proof (Zdigits2_bounds m1 Hm1) as [Lo _]. rewrite Hd1 in Lo.
      destruct (Z_le_gt_dec e1 ec) as [L | G].
      + assert (Hcs : (F2Q mc ec == F2Q (mc * 2 ^ (ec - e1)) e1)%Q).
        { rewrite (F2Q_scale mc e1 (ec - e1)) by lia.
          replace (e1 + (ec - e1)) with ec by lia. reflexivity. }
        assert (Hcx : (F2Q mc ec == F2Q (mc * 2 ^ (ec - ex)) ex)%Q).
        { rewrite (F2Q_scale mc ex (ec - ex)) by lia.
          replace (ex + (ec - ex)) with ec by lia. reflexivity. }
        rewrite Hcs. apply F2Q_le.
        apply Z.div_le_lower_bound; [exact P|].
        assert (Hpw : 2 ^ (e1 - ex) * (mc * 2 ^ (ec - e1)) = mc * 2 ^ (ec - ex)).
        { replace (ec - ex) with (e1 - ex + (ec - e1)) by lia.
          rewrite Z.pow_add_r by lia. ring. }
        rewrite Hpw. apply (F2Q_le_inv _ _ ex). rewrite <- Hcx. exact Hc.
      + assert (H53 : (F2Q (2 ^ 53) ec == pow2 (53 + ec))%Q).
        { rewrite (pow2_F2Q (53 + ec) ec) by lia.
          replace (53 + ec - ec) with 53 by lia. reflexivity. }
        assert (H52 : (F2Q (2 ^ (53 - 1)) e1 == pow2 (52 + e1))%Q).
        { rewrite (pow2_F2Q (52 + e1) e1) by lia.
          replace (52 + e1 - e1) with (53 - 1) by lia. reflexivity. }
        apply Qle_trans with (F2Q (2 ^ 53) ec); [apply F2Q_le; lia|].
        apply Qle_trans with (F2Q (2 ^ (53 - 1)) e1); [|apply F2Q_le; exact Lo].
        rewrite H53, H52. apply pow2_le. lia. }
  destruct Hcore as [Hm1 Hge].
  destruct (binary_round_aux prec emax false mx ex lx) as [[]|[]| |[] m e]; try exact Hb; try lia.
  destruct Hb as [Hlo _]. exact (Qle_trans _ _ _ Hge Hlo).
Qed.

Lemma binary_round_ge (p : positive) (e : Z) (mc ec : Z) :
  0 < mc < 2 ^ 53 -> (F2Q mc ec <= F2Q (Z.pos p) e)%Q -> -1074 <= e ->
  match binary_round prec emax false p e with
  | S754_infinity false => True
  | S754_finite false m e' => (F2Q mc ec <= F2Q (Z.pos m) e')%Q
  | _ => False
  end.
Proof.
  intros Hmc Hc He0. unfold binary_round.
  destruct (shl_align_spec p e (fexp prec emax (Z.pos (digits2_pos p) + e))) as [He Hm].
  destruct (shl_align p e (fexp prec emax (Z.pos (digits2_pos p) + e))) as [mz ez].
  cbn [fst snd] in He, Hm.
  change (Z.pos (digits2_pos p)) with (Zdigits2 (Z.pos p)) in *.
  set (f := fexp prec emax (Zdigits2 (Z.pos p) + e)) in *.
  assert (Hk : 0 <= e - Z.min e f) by lia.
  assert (Hd : Zdigits2 (Z.pos mz) + ez = Zdigits2 (Z.pos p) + e).
  { rewrite Hm, Zdigits2_mul_pow2 by lia. lia. }
  assert (Hv : (F2Q (Z.pos mz) ez == F2Q (Z.pos p) e)%Q).
  { rewrite Hm, (F2Q_scale (Z.pos p) ez (e - Z.min e f) Hk).
    replace (ez + (e - Z.min e f)) with e by lia. reflexivity. }
  rewrite <- Hv in Hc.
  assert (Hside : -1074 <= Zdigits2 (Z.pos mz) + ez - 53 \/
                  fexp prec emax (Zdigits2 (Z.pos mz) + ez) <= ez).
  { rewrite Hd. fold f. subst f. rewrite fexp64 in *. lia. }
  exact (binary_round_aux_ge (Z.pos mz) ez loc_Exact mc ec ltac:(lia) Hmc Hc Hside).
Qed.

(** ** Subtraction of a smaller positive float *)

Lemma SFsub_ge (mx my : positive) (ex ey : Z) (mc ec : Z) :
  SpecFloat.valid_binary prec emax (S754_finite false mx ex) = true ->
  SpecFloat.valid_binary prec emax (S754_finite false my ey) = true ->
  0 < mc < 2 ^ 53 ->
  (F2Q mc ec <= F2Q (Z.pos mx) ex - F2Q (Z.pos my) ey)%Q ->
  match SFsub prec emax (S754_finite false mx ex) (S754_finite false my ey) with
  | S754_infinity false => True
  | S754_finite false m e => (F2Q mc ec <= F2Q (Z.pos m) e)%Q
  | _ => False
  end.
Proof.
  intros [Vx _]%valid_finite [Vy _]%valid_finite Hmc Hc. cbn [SFsub cond_Zopp].
  set (ez := Z.min ex ey).
  destruct (shl_align_spec mx ex ez) as [_ Hx]. destruct (shl_align_spec my ey ez) as [_ Hy].
  assert (Ex : Z.min ex ez = ez) by (subst ez; lia).
  assert (Ey : Z.min ey ez = ez) by (subst ez; lia).
  rewrite Ex in Hx. rewrite Ey in Hy.
  set (px := fst (shl_align mx ex ez)) in *. set (py := fst (shl_align my ey ez)) in *.
  assert (Hez : -1074 <= ez) by (subst ez; rewrite fexp64 in *; lia).
  assert (Hv : (F2Q (Z.pos px - Z.pos py) ez == F2Q (Z.pos mx) ex - F2Q (Z.pos my) ey)%Q).
  { replace (Z.pos px - Z.pos py) with (Z.pos px + - Z.pos py) by lia.
    rewrite F2Q_plus, Hx.
    rewrite (F2Q_scale (Z.pos mx) ez (ex - ez)) by lia.
    replace (ez + (ex - ez)) with ex by lia.
    assert (Hn : (F2Q (- Z.pos py) ez == - F2Q (Z.pos my) ey)%Q).
    { assert (Hs : (F2Q (Z.pos py) ez == F2Q (Z.pos my) ey)%Q).
      { rewrite Hy, (F2Q_scale (Z.pos my) ez (ey - ez)) by lia.
        replace (ez + (ey - ez)) with ey by lia. reflexivity. }
      rewrite <- Hs. unfold F2Q. rewrite inject_Z_opp. ring. }
    rewrite Hn. ring. }
  assert (Hpos : 0 < Z.pos px - Z.pos py).
  { destruct (Z_lt_le_dec 0 (Z.pos px - Z.pos py)) as [L | G]; [exact L|]. exfalso.
    pose proof (F2Q_pos mc ec ltac:(lia)) as Pc.
    assert (Hle : (F2Q (Z.pos px - Z.pos py) ez <= F2Q 0 ez)%Q) by (apply F2Q_le; exact G).
    assert (H0 : (F2Q 0 ez == 0)%Q) by (unfold F2Q; ring).
    rewrite Hv, H0 in Hle. lra. }
  destruct (Z.pos px - Z.pos py) as [|d|d] eqn:Ed; try lia. cbn [binary_normalize].
  apply binary_round_ge; [exact Hmc | rewrite Hv; exact Hc | exact Hez].
Qed.

Lemma SFleb_ge (mc m : positive) (ec e : Z) :
  SpecFloat.valid_binary prec emax (S754_finite false mc ec) = true ->
  SpecFloat.valid_binary prec emax (S754_finite false m e) = true ->
  (F2Q (Z.pos mc) ec <= F2Q (Z.pos m) e)%Q ->
  SFleb (S754_finite false mc ec) (S754_finite false m e) = true.
Proof.
  intros Vc Vx H. unfold SFleb. cbn [SFcompare].
  destruct (Z.compare_spec ec e) as [E | L | G]; [|reflexivity|exfalso].
  - subst e. change (Pos.compare_cont Eq mc m) with (Pos.compare mc m).
    destruct (Pos.compare_spec mc m) as [E | L | G]; try reflexivity.
    exfalso. apply (Qlt_not_le _ _ (F2Q_lt (Z.pos m) (Z.pos mc) ec ltac:(lia))). exact H.
  - exact (Qlt_not_le _ _ (canonical_lt false false m mc e ec Vx Vc G) H).
Qed.

(** ** Counters in binary64: main.js ends within 126 frames *)

Lemma main_ieee_frame (T : float) (sfx s : string) (i c : float) :
  MainJs.animationFrame (main_ieee_running s (main_ieee_closure T sfx i c)) =
  let c' := (c + i)%float in
  if (c' <? T)%float
  then main_ieee_running (toLocaleString (math_ceil c')) (main_ieee_closure T sfx i c')
  else main_ieee_done (toLocaleString T ++ sfx).
Proof.
  unfold MainJs.animationFrame, main_ieee_running, main_ieee_closure, main_ieee_done.
  cbn [MainJs.frameRequests MainJs.innerText foldl].
  unfold MainJs.updateCount.
  cbn [MainJs.current MainJs.increment MainJs.target_value MainJs.counter MainJs.suffix
       add lt ieee_number].
  cbv zeta. destruct (_ <? _)%float; reflexivity.
Qed.

Lemma main_ieee_done_stays (m : nat) (s : string) :
  Nat.iter m MainJs.animationFrame (main_ieee_done s) = main_ieee_done s.
Proof. induction m as [|m IH]; [reflexivity|]. rewrite Nat.iter_succ, IH. reflexivity. Qed.

Lemma loss_rounding (x y : Q) : (0 <= y)%Q -> (x <= (1 + eps) * y)%Q -> (x * loss <= y)%Q.
Proof. unfold eps, loss. intros Hy H. lra. Qed.

Lemma share_reaches : (1 <= share 125)%Q.
Proof. apply Qle_bool_iff. vm_compute. reflexivity. Qed.

Lemma main_ieee_run (T i : float) (sfx : string) (vT vi : Q) :
  finite_pos T vT -> finite_pos i vi -> (vT * first_share <= vi)%Q ->
  forall (j k : nat) (s : string) (c : float) (v : Q),
    (k + j = 125)%nat -> finite_pos c v -> (vT * share k <= v)%Q -> (c <? T)%float = true ->
    Nat.iter j MainJs.animationFrame (main_ieee_running s (main_ieee_closure T sfx i c)) =
    main_ieee_done (toLocaleString T ++ sfx).
Proof.
  intros HT Hi Hfirst.
  assert (HvT : (0 < vT)%Q).
  { destruct HT as (m & e & _ & ->). apply F2Q_pos. lia. }
  induction j as [|j IH]; intros k s c v Hk Hc Hv Hlt.
  - exfalso. assert (k = 125%nat) by lia. subst k.
    rewrite (float_ltb_ge c T v vT Hc HT) in Hlt; [discriminate Hlt|].
    apply Qle_trans with (vT * share 125)%Q; [|exact Hv].
    rewrite <- (Qmult_1_r vT) at 1. apply Qmult_le_l; [exact HvT | exact share_reaches].
  - rewrite Nat.iter_succ_r, main_ieee_frame. cbv zeta.
    destruct (float_add_pos c i v vi Hc Hi) as [Hinf | (v' & Hc' & Hv')].
    + rewrite (float_ltb_infinity _ T Hinf). apply main_ieee_done_stays.
    + destruct (c + i <? T)%float eqn:E; [|apply main_ieee_done_stays].
      apply (IH (S k) _ _ v'); [lia | exact Hc' | | exact E].
      cbn [share].
      assert (Hv'0 : (0 <= v')%Q).
      { destruct Hc' as (m' & e' & _ & ->). apply F2Q_nonneg. lia. }
      apply (loss_rounding _ _ Hv'0) in Hv'.
      apply Qle_trans with ((v + vi) * loss)%Q; [|exact Hv'].
      rewrite Qmult_assoc. apply Qmult_le_compat_r; [|unfold loss; lra].
      rewrite Qmult_plus_distr_r. apply Qplus_le_compat; assumption.
Qed.

Lemma parseInt_cases {num : Type} `{Number num} (text : string) :
  (no_digits text /\ parseInt (replace_non_digits text) = nan) \/
  exists n : Z, 0 <= n /\ parseInt (replace_non_digits text) = of_Z n.
Proof.
  unfold parseInt, parse_digits, no_digits.
  destruct (replace_non_digits text) eqn:E; [left; split; reflexivity|].
  right. eexists. split; [|reflexivity].
  rewrite <- E. apply digits_value_nonneg. lia.
Qed.

Lemma duration_over_16_spec :
  Prim2SF duration_over_16 = S754_finite false 8796093022208000 (-46) /\
  (125 == F2Q 8796093022208000 (-46))%Q.
Proof. split; reflexivity. Qed.

Lemma finite_pos_nonneg (x : float) (v : Q) : finite_pos x v -> (0 < v)%Q.
Proof. intros (m & e & _ & ->). apply F2Q_pos. lia. Qed.

Lemma finite_pos_not_zero (x : float) (v : Q) : finite_pos x v -> Prim2SF x <> S754_zero true.
Proof. intros (m & e & -> & _). discriminate. Qed.

(** In binary64 the counter of main.js has ended after 126 frames. *)
Lemma main_ieee_stops (text : string) :
  let p := Nat.iter 126 MainJs.animationFrame
             (MainJs.count_up 0 (@main_counter float ieee_number text)) in
  MainJs.frameRequests p = [] /\
  MainJs.innerText p =
    [(toLocaleString (@parseInt float ieee_number (replace_non_digits text))
      ++ replace_digits_commas text)%string].
Proof.
  cbv zeta. destruct (@parseInt_cases float ieee_number text) as [[Hd Hnan] | (n & Hn & Hp)].
  - rewrite Nat.iter_succ_r.
    destruct (main_nan_counter ieee_nan_laws text Hd) as [Ht Hr].
    cbv zeta in Ht, Hr.
    destruct (MainJs.animationFrame _) as [texts requests] eqn:E.
    cbn [MainJs.innerText MainJs.frameRequests] in Ht, Hr. subst texts requests.
    change {| MainJs.innerText := [?s]; MainJs.frameRequests := [] |} with (main_ieee_done s).
    rewrite main_ieee_done_stays, Hnan. split; reflexivity.
  - rewrite main_count_up_single. unfold main_animation. rewrite Hp.
    change (@div float ieee_number (@of_Z float ieee_number 2000) (@of_Z float ieee_number 16))
      with duration_over_16.
    change (@of_Z float ieee_number) with ieee_of_Z.
    change (@div float ieee_number) with PrimFloat.div.
    set (T := ieee_of_Z n).
    change {| MainJs.innerText := [text]; MainJs.frameRequests := [?a] |}
      with (main_ieee_running text a).
    fold (main_ieee_closure T (replace_digits_commas text) (T / duration_over_16)%float (ieee_of_Z 0)).
    rewrite Nat.iter_succ_r, main_ieee_frame. cbv zeta.
    destruct (Z.eq_dec n 0) as [E0 | Hne].
    + subst T. rewrite E0.
      assert (E : (ieee_of_Z 0 + ieee_of_Z 0 / duration_over_16 <? ieee_of_Z 0)%float = false)
        by (vm_compute; reflexivity).
      rewrite E.
      rewrite main_ieee_done_stays. split; reflexivity.
    + destruct (ieee_of_Z_cases n ltac:(lia)) as [Hinf | (vT & HT & HvT)].
      * fold T in Hinf. rewrite Hinf.
        assert (E : (ieee_of_Z 0 + infinity / duration_over_16 <? infinity)%float = false)
          by (vm_compute; reflexivity).
        rewrite E.
        rewrite main_ieee_done_stays. split; reflexivity.
      * fold T in HT. destruct duration_over_16_spec as [E125 V125].
        assert (Hhalf : (pow2 (-1) <= vT)%Q).
        { assert (H1 : (inject_Z 1 <= inject_Z n)%Q) by (rewrite <- Zle_Qle; lia).
          change (pow2 (-1)) with (1 # 2)%Q. change (inject_Z 1) with 1%Q in H1.
          unfold eps in HvT. lra. }
        assert (Hnorm : -1074 <= -1 + 1 - (Zdigits2 8796093022208000 + -46) - 53).
        { change (Zdigits2 8796093022208000) with 53. lia. }
        destruct (float_div_pos T duration_over_16 vT 125 (-1) _ _ E125 V125 HT Hhalf Hnorm)
          as [Hiinf | (vi & Hi & Hvi & _)].
        -- assert (Hz : Prim2SF (T / duration_over_16)%float <> S754_zero true)
             by (rewrite Hiinf; discriminate).
           rewrite (float_add_zero _ Hz), (float_ltb_infinity _ T Hiinf).
           rewrite main_ieee_done_stays. split; reflexivity.
        -- rewrite (float_add_zero _ (finite_pos_not_zero _ _ Hi)).
           destruct (T / duration_over_16 <? T)%float eqn:E.
           ++ rewrite (main_ieee_run T (T / duration_over_16)%float (replace_digits_commas text) vT vi HT Hi)
                with (k := 0%nat) (v := vi).
              ** split; reflexivity.
              ** pose proof (finite_pos_nonneg _ _ Hi). unfold first_share, loss.
                 unfold eps in Hvi. lra.
              ** reflexivity.
              ** exact Hi.
              ** cbn [share]. pose proof (finite_pos_nonneg _ _ Hi). unfold first_share, loss.
                 unfold eps in Hvi. lra.
              ** exact E.
           ++ rewrite main_ieee_done_stays. split; reflexivity.
Qed.

(** ** Counters in binary64: part_000 ends at 2000 ms *)

(** [Math.min(x, 1) < 1] fails as soon as [x < 1] does. *)
Lemma ieee_min_not_below (x : float) :
  (x <? ieee_of_Z 1)%float = false -> (ieee_min x (ieee_of_Z 1) <? ieee_of_Z 1)%float = false.
Proof.
  intros H. unfold ieee_min.
  destruct (is_nan x || is_nan (ieee_of_Z 1)); [vm_compute; reflexivity|].
  destruct (ieee_of_Z 1 <? x)%float; [vm_compute; reflexivity|].
  rewrite H. destruct (get_sign x); [exact H | vm_compute; reflexivity].
Qed.

Lemma f2000_spec :
  Prim2SF (ieee_of_Z 2000) = S754_finite false 8796093022208000 (-42) /\
  (2000 == F2Q 8796093022208000 (-42))%Q.
Proof. split; reflexivity. Qed.

Lemma f1_spec : finite_pos (ieee_of_Z 1) 1.
Proof. exists 4503599627370496%positive, (-52). split; reflexivity. Qed.

(** Once the elapsed time the script computes is 2000 ms or more, the
    progress is not below 1. *)
Lemma part_ieee_late (elapsed : float) :
  (ieee_of_Z 2000 <=? elapsed)%float = true ->
  (ieee_min (elapsed / ieee_of_Z 2000) (ieee_of_Z 1) <? ieee_of_Z 1)%float = false.
Proof.
  intros H. apply ieee_min_not_below.
  destruct f2000_spec as [E2000 V2000].
  assert (H2000 : finite_pos (ieee_of_Z 2000) 2000).
  { exists 8796093022208000%positive, (-42). split; [exact E2000 | exact V2000]. }
  destruct (float_leb_inv _ _ _ H2000 H) as [Hinf | (v & Hv & Hle)].
  - apply float_ltb_infinity. unfold plus_infinity in *.
    rewrite div_spec, Hinf, E2000. reflexivity.
  - assert (Hj : (pow2 10 <= v)%Q).
    { change (pow2 10) with 1024%Q. lra. }
    assert (Hnorm : -1074 <= 10 + 1 - (Zdigits2 8796093022208000 + -42) - 53).
    { change (Zdigits2 8796093022208000) with 53. lia. }
    destruct (float_div_pos elapsed (ieee_of_Z 2000) v 2000 10 _ _ E2000 V2000 Hv Hj Hnorm)
      as [Hinf | (q & Hq & _ & Hone)].
    + apply float_ltb_infinity. exact Hinf.
    + apply (float_ltb_ge _ _ q 1 Hq f1_spec). apply Hone. exact Hle.
Qed.

Lemma part_ieee_frame (T : float) (sfx s0 : string) (st : option float) (t : float) :
  Part000.animationFrame t (part_ieee_running s0 (part_ieee_closure T sfx st)) =
  let start := Part000.start_time (part_ieee_closure T sfx st) t in
  let progress := ieee_min ((t - start) / ieee_of_Z 2000) (ieee_of_Z 1) in
  if (progress <? ieee_of_Z 1)%float
  then part_ieee_running (toLocaleString (math_floor (progress * T)%float))
         (part_ieee_closure T sfx (Some start))
  else part_ieee_done (toLocaleString T ++ sfx).
Proof.
  unfold Part000.animationFrame, part_ieee_running, part_ieee_closure, part_ieee_done.
  cbn [Part000.frameRequests Part000.innerText foldl].
  unfold Part000.step, Part000.progress_at.
  cbn [Part000.startTime Part000.duration Part000.target_value Part000.counter Part000.suffix
       lt sub div mul math_min of_Z ieee_number].
  cbv zeta. destruct (_ <? _)%float; reflexivity.
Qed.

Lemma part_ieee_done_frames (ts : list float) (s : string) :
  foldl (fun p t => Part000.animationFrame t p) (part_ieee_done s) ts = part_ieee_done s.
Proof. induction ts as [|t r IH]; [reflexivity|]. cbn [foldl]. exact IH. Qed.

(** Frames leave a closure with a truthy start time running on that
    start time, or end the animation on the final text. *)
Lemma part_ieee_frames (T : float) (sfx : string) (start : float) (ts : list float) (s0 : string) :
  ieee_to_boolean start = true ->
  let p := foldl (fun p t => Part000.animationFrame t p)
             (part_ieee_running s0 (part_ieee_closure T sfx (Some start))) ts in
  (exists s1, p = part_ieee_running s1 (part_ieee_closure T sfx (Some start))) \/
  p = part_ieee_done (toLocaleString T ++ sfx).
Proof.
  intros Hs. revert s0. induction ts as [|t r IH]; intros s0; cbn [foldl].
  - left. exists s0. reflexivity.
  - rewrite part_ieee_frame.
    assert (Hst : Part000.start_time (part_ieee_closure T sfx (Some start)) t = start).
    { unfold Part000.start_time. cbn [Part000.startTime part_ieee_closure to_boolean ieee_number].
      rewrite Hs. reflexivity. }
    rewrite Hst. cbv zeta. destruct (_ <? _)%float.
    + apply IH.
    + right. apply part_ieee_done_frames.
Qed.

(** In binary64 the counter of part_000 has ended after a frame whose
    timestamp is 2000 ms or more past a truthy first timestamp. *)
Lemma part_ieee_stops (text : string) (t0 t : float) (ts : list float) :
  ieee_to_boolean t0 = true -> (ieee_of_Z 2000 <=? t - t0)%float = true ->
  foldl (fun p t => Part000.animationFrame t p)
    (Part000.count_up 0 (@part_counter float ieee_number text)) (t0 :: ts ++ [t])
  = part_ieee_done (toLocaleString (@parseInt float ieee_number (replace_non_digits text))
                    ++ replace_digits_commas text).
Proof.
  intros H0 Hlate. rewrite part_count_up_single.
  set (T := @parseInt float ieee_number (replace_non_digits text)).
  set (sfx := replace_digits_commas text).
  change {| Part000.innerText := ["0"%string];
            Part000.frameRequests := [part_animation text] |}
    with (part_ieee_running "0" (part_ieee_closure T sfx None)).
  cbn [foldl]. rewrite part_ieee_frame. cbv zeta.
  change (Part000.start_time (part_ieee_closure T sfx None) t0) with t0.
  destruct (_ <? _)%float; [|apply part_ieee_done_frames].
  rewrite foldl_app. cbn [foldl].
  destruct (part_ieee_frames T sfx t0 ts
              (toLocaleString (math_floor
                 (ieee_min ((t0 - t0) / ieee_of_Z 2000) (ieee_of_Z 1) * T)%float)) H0)
    as [(s1 & ->) | ->]; [|reflexivity].
  rewrite part_ieee_frame. cbv zeta.
  assert (Hst : Part000.start_time (part_ieee_closure T sfx (Some t0)) t = t0).
  { unfold Part000.start_time. cbn [Part000.startTime part_ieee_closure to_boolean ieee_number].
    rewrite H0. reflexivity. }
  rewrite Hst, (part_ieee_late _ Hlate). reflexivity.
Qed.

(** When the timestamps are positive doubles 2000 ms or more apart, so is
    the difference the script computes. *)
Lemma float_sub_late (t t0 : float) (v v0 : Q) :
  finite_pos t v -> finite_pos t0 v0 -> (2000 <= v - v0)%Q ->
  (ieee_of_Z 2000 <=? t - t0)%float = true.
Proof.
  intros (m & e & Et & Hv) (m0 & e0 & Et0 & Hv0) Hlate.
  pose proof (Prim2SF_valid t) as Vt. pose proof (Prim2SF_valid t0) as Vt0.
  pose proof (Prim2SF_valid (t - t0)) as Vd.
  pose proof (Prim2SF_valid (ieee_of_Z 2000)) as V2000.
  rewrite Et in Vt. rewrite Et0 in Vt0.
  destruct f2000_spec as [E2000 Q2000]. rewrite E2000 in V2000.
  assert (Hc : (F2Q 8796093022208000 (-42) <= F2Q (Z.pos m) e - F2Q (Z.pos m0) e0)%Q).
  { rewrite <- Q2000, <- Hv, <- Hv0. exact Hlate. }
  assert (Hmc : 0 < 8796093022208000 < 2 ^ 53) by (split; reflexivity).
  pose proof (SFsub_ge m m0 e e0 8796093022208000 (-42) Vt Vt0 Hmc Hc) as H.
  rewrite leb_spec, E2000. rewrite sub_spec, Et, Et0 in Vd |- *. unfold SF64sub in *.
  destruct (SFsub prec emax _ _) as [[]|[]| |[] m' e']; try contradiction.
  - reflexivity.
  - apply SFleb_ge; [exact V2000 | exact Vd | exact H].
Qed.

Lemma finite_pos_truthy (x : float) (v : Q) : finite_pos x v -> ieee_to_boolean x = true.
Proof.
  intros (m & e & E & _). unfold ieee_to_boolean, is_nan, is_zero.
  rewrite !FloatAxioms.eqb_spec, E.
  change (Prim2SF zero) with (S754_zero false). cbn [SFeqb SFcompare].
  rewrite Z.compare_refl, Pos.compare_cont_refl. reflexivity.
Qed.

(** ** Counters: the animation stops *)

Lemma part_frame_stops {num : Type} `{Number num}
    (t : num) (a : Part000.Animation num) (p : Part000.CounterPage num) :
  lt (Part000.progress_at a t) (of_Z 1) = false ->
  Part000.innerText (Part000.step t a p) =
    <[ Part000.counter a :=
         (toLocaleString (Part000.target_value a) ++ Part000.suffix a)%string ]>
      (Part000.innerText p) /\
  Part000.frameRequests (Part000.step t a p) = Part000.frameRequests p.
Proof.
  intros Hlt. unfold Part000.step. rewrite Hlt. split; [|reflexivity].
  cbn [Part000.innerText Part000.set_innerText]. apply list_insert_insert_eq.
Qed.

Lemma main_ieee_ended (text : string) (k : nat) :
  (126 <= k)%nat ->
  Nat.iter k MainJs.animationFrame (MainJs.count_up 0 (@main_counter float ieee_number text)) =
  main_ieee_done (toLocaleString (@parseInt float ieee_number (replace_non_digits text))
                  ++ replace_digits_commas text).
Proof.
  intros Hk. replace k with ((k - 126) + 126)%nat by lia. rewrite Nat.iter_add.
  destruct (main_ieee_stops text) as [Hreq Htext]. cbv zeta in Hreq, Htext.
  destruct (Nat.iter 126 _ _) as [texts requests].
  cbn [MainJs.innerText MainJs.frameRequests] in Hreq, Htext. subst texts requests.
  apply main_ieee_done_stays.
Qed.

(** C10.  A counter animation ends by itself, in the binary64 arithmetic
    the browser computes with and for every text.  In main.js the
    accumulated value is not below the target at the 126th frame at the
    latest: from then on no frame is pending and the counter shows the
    final text.  In part_000 a frame callback that computes an elapsed
    time of 2000 ms or more writes the final text and requests no frame;
    hence the animation has ended, on the final text, after a frame
    whose timestamp is 2000 ms or more past a truthy first timestamp;
    and two timestamps that are positive doubles with values 2000 ms or
    more apart are such a pair.  The final text is the target, printed,
    followed by the suffix. *)
Theorem counter_animation_stops :
  (forall (text : string) (k : nat),
      (126 <= k)%nat ->
      let p := Nat.iter k MainJs.animationFrame
                 (MainJs.count_up 0 (@main_counter float ieee_number text)) in
      MainJs.frameRequests p = [] /\
      MainJs.innerText p =
        [(toLocaleString (@parseInt float ieee_number (replace_non_digits text))
          ++ replace_digits_commas text)%string]) /\
  (forall (t : float) (a : Part000.Animation float) (p : Part000.CounterPage float),
      Part000.duration a = ieee_of_Z 2000 ->
      (ieee_of_Z 2000 <=? t - Part000.start_time a t)%float = true ->
      Part000.innerText (Part000.step t a p) =
        <[ Part000.counter a :=
             (toLocaleString (Part000.target_value a) ++ Part000.suffix a)%string ]>
          (Part000.innerText p) /\
      Part000.frameRequests (Part000.step t a p) = Part000.frameRequests p) /\
  (forall (text : string) (t0 t : float) (ts : list float),
      ieee_to_boolean t0 = true ->
      (ieee_of_Z 2000 <=? t - t0)%float = true ->
      let p := foldl (fun p t => Part000.animationFrame t p)
                 (Part000.count_up 0 (@part_counter float ieee_number text))
                 (t0 :: ts ++ [t]) in
      Part000.frameRequests p = [] /\
      Part000.innerText p =
        [(toLocaleString (@parseInt float ieee_number (replace_non_digits text))
          ++ replace_digits_commas text)%string]) /\
  (forall (t0 t : float) (v0 v : Q),
      finite_pos t0 v0 -> finite_pos t v -> (2000 <= v - v0)%Q ->
      ieee_to_boolean t0 = true /\ (ieee_of_Z 2000 <=? t - t0)%float = true).
Proof.
  split; [|split; [|split]].
  - intros text k Hk p. subst p. rewrite (main_ieee_ended text k Hk). split; reflexivity.
  - intros t a p Hd Hlate. apply part_frame_stops.
    unfold Part000.progress_at. rewrite Hd. exact (part_ieee_late _ Hlate).
  - intros text t0 t ts H0 Hlate p. subst p.
    rewrite (part_ieee_stops text t0 t ts H0 Hlate). split; reflexivity.
  - intros t0 t v0 v H0 Ht Hlate. split.
    + exact (finite_pos_truthy t0 v0 H0).
    + exact (float_sub_late t t0 v v0 Ht H0 Hlate).
Qed.

Lemma counter_animation_stops_witness :
  (let p := Nat.iter 126 MainJs.animationFrame
              (MainJs.count_up 0 (@main_counter float ieee_number "87%")) in
   MainJs.frameRequests p = [] /\ MainJs.innerText p = ["87%"%string]) /\
  (let p := foldl (fun p t => Part000.animationFrame t p)
              (Part000.count_up 0 (@part_counter float ieee_number "87%"))
              [ieee_of_Z 1000; ieee_of_Z 1016; ieee_of_Z 2990; ieee_of_Z 3000] in
   Part000.frameRequests p = [] /\ Part000.innerText p = ["87%"%string]) /\
  finite_pos (ieee_of_Z 1000) 1000 /\ finite_pos (ieee_of_Z 3000) 3000 /\
  (ieee_of_Z 2000 <=? ieee_of_Z 3000 - ieee_of_Z 1000)%float = true.
Proof.
  assert (H1000 : finite_pos (ieee_of_Z 1000) 1000).
  { exists 8796093022208000%positive, (-43). split; reflexivity. }
  assert (H3000 : finite_pos (ieee_of_Z 3000) 3000).
  { exists 6597069766656000%positive, (-41). split; reflexivity. }
  assert (Hlate : (2000 <= 3000 - 1000)%Q) by (unfold Qle; cbn; lia).
  destruct (proj2 (proj2 (proj2 counter_animation_stops)) _ _ _ _ H1000 H3000 Hlate)
    as [Htruthy Hleb].
  split; [|split; [|split; [|split]]].
  - exact (proj1 counter_animation_stops "87%"%string 126%nat (le_n _)).
  - exact (proj1 (proj2 (proj2 counter_animation_stops))
             "87%"%string (ieee_of_Z 1000) (ieee_of_Z 3000) [ieee_of_Z 1016; ieee_of_Z 2990]
             Htruthy Hleb).
  - exact H1000.
  - exact H3000.
  - exact Hleb.
Defined.

(* ================================================================== *)
(** * Further properties of the script                                  *)
(* ================================================================== *)

(** ** Sticky header, sentinel strategy *)

Lemma sentinel_sticky_witness :
  exists (p' p'' : Part000.StickyPage) (classes' : gset string),
    Part000.initStickyHeader header_and_sentinel = Returned p' /\
    Part000.sentinel_notify [ {| target := 0; isIntersecting := false |} ] p' = Returned p'' /\
    Part000.header p'' = Some classes' /\
    "is-sticky"%string ∈ classes'.
Proof.
  destruct (sentinel_sticky header_and_sentinel ∅
              {| target := 0; isIntersecting := false |} [] eq_refl eq_refl eq_refl)
    as (p' & p'' & classes' & Hinit & Hnotify & Hheader & Hiff).
  exists p', p'', classes'. repeat split; try assumption.
  apply Hiff. reflexivity.
Defined.

(** ** Mobile navigation: the other listeners *)

Lemma part_link_click_closes_witness :
  exists p' : NavPage,
    Part000.initMobileNav fresh_nav_page = Returned p' /\
    open_class ∉ body (click (Link 0 1) (foldl (fun q t => click t q) p' [MenuToggle])).
Proof.
  apply (part_link_click_closes fresh_nav_page [MenuToggle] 1 eq_refl eq_refl eq_refl).
  cbn. lia.
Defined.

Lemma close_listener_closes (post : list (ClickTarget * Listener)) (cl : gset string) :
  Forall (fun tl : ClickTarget * Listener => tl.1 <> CloseButton 0) post ->
  open_class ∉ foldl (run_if (CloseButton 0)) cl ((CloseButton 0, RemoveOpen) :: post).
Proof.
  intros Hpost. apply run_if_closes.
  - constructor; [reflexivity|].
    eapply Forall_impl; [exact Hpost|]. intros tl Hne E. contradiction.
  - apply Exists_cons_hd. reflexivity.
Qed.

(** X3.  In both files, on a fresh page without an overlay, a click on
    the close button of the overlay the controller built leaves the body
    without the open class, whatever was clicked before. *)
Theorem close_button_click_closes :
  close_button_closes MainJs.initMobileNav /\ close_button_closes Part000.initMobileNav.
Proof.
  split; intros p ts Ht Hl Hm.
  - destruct (main_initMobileNav_spec p Ht Hl) as (p' & Hinit & _ & Hcases).
    exists p'. split; [exact Hinit|].
    destruct Hcases as [(_ & _ & Hls) | (Hne & _)]; [|contradiction].
    rewrite click_body. unfold after_clicks. destruct (clicks_keep ts p') as [_ ->].
    rewrite Hls. apply close_listener_closes. repeat constructor. discriminate.
  - destruct (part_initMobileNav_spec p Ht Hl) as (p' & Hinit & _ & Hcases).
    exists p'. split; [exact Hinit|].
    destruct Hcases as [(_ & _ & Hls) | (Hne & _)]; [|contradiction].
    rewrite click_body. unfold after_clicks. destruct (clicks_keep ts p') as [_ ->].
    rewrite Hls. apply close_listener_closes.
    apply Forall_app. split.
    + apply Forall_map, Forall_forall. intros k _. discriminate.
    + repeat constructor. discriminate.
Qed.

Lemma close_button_click_closes_witness :
  exists p' : NavPage,
    MainJs.initMobileNav fresh_nav_page = Returned p' /\
    open_class ∉ body (click (CloseButton 0) (after_clicks [MenuToggle] p')).
Proof.
  exact (proj1 close_button_click_closes fresh_nav_page [MenuToggle] eq_refl eq_refl eq_refl).
Defined.

(** X4.  In both files, when the document already holds an element with
    id page-mobile-main-menu, the controller binds the open control and
    nothing else: a click on the close button or on a link of that
    overlay changes no class of the body, so it does not close the menu. *)
Theorem given_overlay_not_bound :
  given_overlay_is_not_bound MainJs.initMobileNav /\
  given_overlay_is_not_bound Part000.initMobileNav.
Proof.
  split; intros p ts t Ht Hl Hm Hne.
  - destruct (main_initMobileNav_spec p Ht Hl) as (p' & Hinit & _ & Hcases).
    exists p'. split; [exact Hinit|].
    destruct Hcases as [(E & _) | (_ & _ & Hls)]; [contradiction|].
    rewrite click_body. unfold after_clicks. destruct (clicks_keep ts p') as [_ ->].
    rewrite Hls. apply run_if_other. repeat constructor. cbn. congruence.
  - destruct (part_initMobileNav_spec p Ht Hl) as (p' & Hinit & _ & Hcases).
    exists p'. split; [exact Hinit|].
    destruct Hcases as [(E & _) | (_ & _ & Hls)]; [contradiction|].
    rewrite click_body. unfold after_clicks. destruct (clicks_keep ts p') as [_ ->].
    rewrite Hls. apply run_if_other. repeat constructor. cbn. congruence.
Qed.

Lemma given_overlay_not_bound_witness :
  exists p' : NavPage,
    Part000.initMobileNav nav_page_with_overlay = Returned p' /\
    body (click (CloseButton 0) (after_clicks [] p')) = body (after_clicks [] p').
Proof.
  apply (proj2 given_overlay_not_bound nav_page_with_overlay [] (CloseButton 0));
    [reflexivity | reflexivity | discriminate | discriminate].
Defined.

Lemma run_listener_other (l : Listener) (c : string) (cl : gset string) :
  c <> open_class -> (c ∈ run_listener l cl <-> c ∈ cl).
Proof.
  intros Hne. destruct l; cbn [run_listener].
  - unfold classList_remove. rewrite elem_of_difference, elem_of_singleton.
    unfold open_class in Hne. tauto.
  - unfold classList_toggle, classList_remove, classList_add.
    destruct (classList_contains _ cl).
    + rewrite elem_of_difference, elem_of_singleton. unfold open_class in Hne. tauto.
    + rewrite elem_of_union, elem_of_singleton. unfold open_class in Hne. tauto.
Qed.

(** X5.  Whatever listeners a page has and whatever is clicked, the
    mobile navigation changes no body class other than
    mobile-menu-is-open. *)
Theorem click_keeps_other_classes (p : NavPage) (t : ClickTarget) (c : string) :
  c <> open_class -> (c ∈ body (click t p) <-> c ∈ body p).
Proof.
  intros Hne. rewrite click_body. generalize (body p) as cl.
  induction (listeners p) as [|tl l IH]; intros cl; [reflexivity|].
  cbn [foldl]. rewrite IH. unfold run_if. case_bool_decide; [|reflexivity].
  apply run_listener_other. exact Hne.
Qed.

Lemma click_keeps_other_classes_witness :
  "home"%string ∈ body (click MenuToggle
    {| menuToggle := true; mobileMenus := []; desktopNav := None;
       body := {[ "home"%string ]}; listeners := [(MenuToggle, ToggleOpen)] |}).
Proof.
  apply click_keeps_other_classes; [discriminate|].
  cbn [body]. apply elem_of_singleton_2. reflexivity.
Defined.

(** ** Testimonial carousel *)

Lemma scrollCarousel_iter (direction : Z) (n : nat) (t : Part000.Track) :
  Nat.iter n (Part000.scrollCarousel direction) t =
  {| Part000.scrollLeft :=
       Part000.scrollLeft t + default 0 (Part000.slide t) * direction * Z.of_nat n;
     Part000.slide := Part000.slide t |}.
Proof.
  induction n as [|n IH].
  - destruct t as [l s]. cbn. f_equal. lia.
  - rewrite Nat.iter_succ, IH. unfold Part000.scrollCarousel. cbn [Part000.slide Part000.scrollLeft].
    destruct (Part000.slide t) as [w|]; cbn [default from_option id]; f_equal; lia.
Qed.

Lemma carousel_clicks_from (q : Part000.CarouselPage) (t : Part000.Track) (clicks : list bool) :
  Part000.track q = Some t ->
  Part000.nextListeners q = 1%nat -> Part000.prevListeners q = 1%nat ->
  Part000.track (foldl carousel_click q clicks) =
    Some {| Part000.scrollLeft :=
              Part000.scrollLeft t + default 0 (Part000.slide t) * net_clicks clicks;
            Part000.slide := Part000.slide t |}.
Proof.
  revert q t. induction clicks as [|b r IH]; intros q t Ht Hn Hp; cbn [foldl net_clicks].
  - rewrite Ht. destruct t as [l s]. cbn. do 2 f_equal. lia.
  - assert (Hq : exists t', Part000.track (carousel_click q b) = Some t' /\
                   Part000.slide t' = Part000.slide t /\
                   Part000.scrollLeft t' =
                     Part000.scrollLeft t
                     + default 0 (Part000.slide t) * (if b then 1 else -1)).
    { destruct b; unfold carousel_click, Part000.click_next, Part000.click_prev,
        Part000.click_carousel; cbn [Part000.track]; rewrite Ht.
      - rewrite Hn. cbn [fmap option_fmap option_map]. rewrite scrollCarousel_iter.
        eexists. split; [reflexivity|]. cbn [Part000.scrollLeft Part000.slide].
        split; [reflexivity | lia].
      - rewrite Hp. cbn [fmap option_fmap option_map]. rewrite scrollCarousel_iter.
        eexists. split; [reflexivity|]. cbn [Part000.scrollLeft Part000.slide].
        split; [reflexivity | lia]. }
    destruct Hq as (t' & Ht' & Hs & Hl).
    rewrite (IH (carousel_click q b) t' Ht').
    + rewrite Hs, Hl. destruct b; do 2 f_equal; lia.
    + destruct b; exact Hn.
    + destruct b; exact Hp.
Qed.

(** X6.  In part_000, once the carousel is initialised, any sequence of
    clicks on the next and previous buttons asks the track to scroll to
    its start plus the slide's width times (next clicks - previous
    clicks); without a slide in the track nothing is asked. *)
Theorem carousel_clicks_add_up (t : Part000.Track) (clicks : list bool) :
  exists p' : Part000.CarouselPage,
    Part000.initTestimonialCarousel (carousel_page t) = Returned p' /\
    Part000.track (foldl carousel_click p' clicks) =
      Some {| Part000.scrollLeft :=
                Part000.scrollLeft t + default 0 (Part000.slide t) * net_clicks clicks;
              Part000.slide := Part000.slide t |}.
Proof.
  eexists. split; [reflexivity|].
  apply carousel_clicks_from; reflexivity.
Qed.

(** ** Reveal observer: what ends up on the elements *)

Lemma classList_add_idemp (c : string) (cl : gset string) :
  classList_add c (classList_add c cl) = classList_add c cl.
Proof.
  unfold classList_add. apply leibniz_equiv. intros x.
  rewrite !elem_of_union. tauto.
Qed.

Lemma reveal_entry_keeps (elements : list (gset string)) (w : Watch (list (gset string)))
    (e : Entry) :
  (forall i cl, elements !! i = Some cl -> page w !! i = Some (revealed w i cl)) ->
  forall i cl, elements !! i = Some cl ->
    page (on_entry animate w e) !! i = Some (revealed (on_entry animate w e) i cl).
Proof.
  intros Hinv i cl Hi. unfold on_entry. destruct (isIntersecting e); [|exact (Hinv i cl Hi)].
  unfold revealed. cbn [page handled unobserve]. unfold animate.
  destruct (decide (target e = i)) as [-> | Hne].
  - rewrite list_lookup_alter_eq, (Hinv i cl Hi). cbn [fmap option_fmap option_map].
    rewrite (bool_decide_eq_true_2 (i ∈ handled w ++ [i])).
    + unfold revealed. case_bool_decide; [rewrite classList_add_idemp|]; reflexivity.
    + apply elem_of_app. right. apply list_elem_of_singleton. reflexivity.
  - rewrite list_lookup_alter_ne by exact Hne. rewrite (Hinv i cl Hi). unfold revealed.
    f_equal.
    assert (Hiff : i ∈ handled w ++ [target e] <-> i ∈ handled w).
    { rewrite elem_of_app, list_elem_of_singleton. split; [intros [H | H]|intros H; left]; try assumption.
      congruence. }
    rewrite (bool_decide_ext _ _ Hiff). reflexivity.
Qed.

Lemma reveal_notifications_keep (elements : list (gset string))
    (batches : list (list Entry)) (w : Watch (list (gset string))) :
  (forall i cl, elements !! i = Some cl -> page w !! i = Some (revealed w i cl)) ->
  forall i cl, elements !! i = Some cl ->
    let w' := foldl (fun w b => notify animate b w) w batches in
    page w' !! i = Some (revealed w' i cl).
Proof.
  revert w. induction batches as [|b bs IH]; intros w Hinv; [exact Hinv|].
  cbn [foldl]. apply IH. unfold notify, callback.
  generalize (filter (fun e : Entry => target e ∈ watched w) b) as l.
  intros l. revert w Hinv. induction l as [|e l IHl]; intros w Hinv; [exact Hinv|].
  cbn [foldl]. apply IHl. apply reveal_entry_keeps. exact Hinv.
Qed.

Lemma observe_all_page {Page : Type} (ks : list nat) (w : Watch Page) :
  page (foldl (fun w i => observe i w) w ks) = page w.
Proof.
  revert w. induction ks as [|k ks IH]; intros w; [reflexivity|].
  cbn [foldl]. rewrite IH. reflexivity.
Qed.

(** ** Observers: a report is handled *)

Lemma fired_filter_member (batch : list Entry) (s : gset nat) (i : nat) :
  i ∈ fired batch -> i ∈ s -> i ∈ fired (filter (fun e => target e ∈ s) batch).
Proof.
  intros Hf Hs. induction batch as [|e r IH]; [inversion Hf|].
  rewrite filter_cons. cbn [fired] in Hf.
  destruct (isIntersecting e) eqn:E.
  - apply elem_of_cons in Hf. destruct Hf as [-> | Hf].
    + rewrite decide_True by exact Hs. cbn [fired]. rewrite E. apply elem_of_cons. left. reflexivity.
    + destruct (decide (target e ∈ s)); cbn [fired]; [rewrite E; apply elem_of_cons; right|];
        exact (IH Hf).
  - destruct (decide (target e ∈ s)); cbn [fired]; [rewrite E|]; exact (IH Hf).
Qed.

Lemma notify_covers {Page : Type} (process : nat -> Page -> Page) (n : nat)
    (batch : list Entry) (w : Watch Page) :
  covers n w -> covers n (notify process batch w).
Proof.
  intros [Hc Hd]. unfold notify, covers.
  destruct (callback_spec process (filter (fun e => target e ∈ watched w) batch) w) as [-> ->].
  set (f := fired _). split.
  - intros i Hi. destruct (Hc i Hi) as [Hw | Hh].
    + destruct (decide (i ∈ f)) as [In | Out].
      * right. apply elem_of_app. right. exact In.
      * left. apply elem_of_difference. split; [exact Hw|].
        rewrite elem_of_list_to_set. exact Out.
    + right. apply elem_of_app. left. exact Hh.
  - intros i [Hh | Hf]%elem_of_app; rewrite elem_of_difference, elem_of_list_to_set.
    + intros [Hw _]. exact (Hd i Hh Hw).
    + tauto.
Qed.

Lemma handles_reports_from {Page : Type} (process : nat -> Page -> Page) (n : nat)
    (w : Watch Page) :
  covers n w -> handles_reports process n w.
Proof.
  intros Hc batches batch i Hi Hf.
  set (w1 := foldl (fun w b => notify process b w) w batches).
  assert (Hc1 : covers n w1).
  { subst w1. clear Hf. revert w Hc. induction batches as [|b bs IH]; intros w Hc; [exact Hc|].
    cbn [foldl]. apply IH. apply notify_covers. exact Hc. }
  cbv zeta. destruct (notify_covers process n batch w1 Hc1) as [_ Hd2].
  assert (Hin : i ∈ handled (notify process batch w1)).
  { unfold notify.
    destruct (callback_spec process (filter (fun e => target e ∈ watched w1) batch) w1)
      as [_ ->].
    destruct Hc1 as [Hc1 _]. destruct (Hc1 i Hi) as [Hw | Hh].
    - apply elem_of_app. right. exact (fired_filter_member batch (watched w1) i Hf Hw).
    - apply elem_of_app. left. exact Hh. }
  split; [exact Hin | exact (Hd2 i Hin)].
Qed.

Lemma observe_all_watched {Page : Type} (ks : list nat) (w : Watch Page) (i : nat) :
  i ∈ ks -> i ∈ watched (foldl (fun w i => observe i w) w ks).
Proof.
  revert w. induction ks as [|k ks IH] using rev_ind; intros w Hi; [inversion Hi|].
  rewrite foldl_app. cbn [foldl observe watched].
  apply elem_of_app in Hi. destruct Hi as [Hi | Hi].
  - apply elem_of_union. right. apply IH. exact Hi.
  - apply list_elem_of_singleton in Hi. subst. apply elem_of_union. left.
    apply elem_of_singleton. reflexivity.
Qed.

Lemma observe_all_covers {Page : Type} (n : nat) (p : Page) :
  covers n (observe_all n (unobserved p)).
Proof.
  split.
  - intros i Hi. left. apply observe_all_watched. apply elem_of_seq. lia.
  - intros i Hi. unfold observe_all in Hi. rewrite observe_all_handled in Hi. inversion Hi.
Qed.

(** X8.  The reveal and counter observers of both files handle a target
    at the first batch that reports it as intersecting, whatever batches
    came before, and no longer watch it afterwards. *)
Theorem observers_handle_reports :
  (forall (elements : list (gset string)) w,
      MainJs.initScrollAnimations (unobserved elements) = Returned w ->
      handles_reports MainJs.animate (length elements) w) /\
  (forall (num : Type) (N : Number num) (p : MainJs.CounterPage num) w,
      MainJs.initCounters (unobserved p) = Returned w ->
      handles_reports MainJs.count_up (length (MainJs.innerText p)) w) /\
  (forall (num : Type) (N : Number num) (p : Part000.CounterPage num) w,
      Part000.initCounters (unobserved p) = Returned w ->
      handles_reports Part000.count_up (length (Part000.innerText p)) w).
Proof.
  assert (Hnone : forall (Page : Type) (q : Page), covers 0 (unobserved q)).
  { intros Page q. split; [intros i Hi; lia | intros i Hi; inversion Hi]. }
  repeat apply conj.
  - intros elements w Hinit. apply handles_reports_from.
    unfold MainJs.initScrollAnimations in Hinit. cbn [page unobserved] in Hinit.
    destruct (length elements) as [|n] eqn:E; cbn [Nat.eqb] in Hinit; injection Hinit as <-;
      [apply Hnone | apply observe_all_covers].
  - intros num N p w Hinit. apply handles_reports_from.
    unfold MainJs.initCounters in Hinit. cbn [page unobserved] in Hinit.
    destruct (length (MainJs.innerText p)) as [|n] eqn:E; cbn [Nat.eqb] in Hinit;
      injection Hinit as <-; [apply Hnone | apply observe_all_covers].
  - intros num N p w Hinit. apply handles_reports_from.
    unfold Part000.initCounters in Hinit. cbn [page unobserved] in Hinit.
    destruct (length (Part000.innerText p)) as [|n] eqn:E; cbn [Nat.eqb] in Hinit;
      injection Hinit as <-; [apply Hnone | apply observe_all_covers].
Qed.

Lemma observers_handle_reports_witness :
  exists w : Watch (MainJs.CounterPage float),
    MainJs.initCounters (unobserved three_counters) = Returned w /\
    let w' := notify MainJs.count_up
                [ {| target := 2; isIntersecting := true |} ]
                (foldl (fun w b => notify MainJs.count_up b w) w
                   [[ {| target := 0; isIntersecting := true |} ]]) in
    2%nat ∈ handled w' /\ 2%nat ∉ watched w'.
Proof.
  eexists. split; [reflexivity|].
  apply (proj1 (proj2 observers_handle_reports) float ieee_number three_counters _ eq_refl
           [[ {| target := 0; isIntersecting := true |} ]]
           [ {| target := 2; isIntersecting := true |} ] 2%nat).
  - cbn. lia.
  - cbn. apply list_elem_of_singleton. reflexivity.
Defined.

(** ** Observers: how often a target is processed *)

Lemma times_app (i : nat) (l1 l2 : list nat) : times i (l1 ++ l2) = (times i l1 + times i l2)%nat.
Proof. unfold times. rewrite filter_app, length_app. reflexivity. Qed.

Lemma times_none (i : nat) (l : list nat) : i ∉ l -> times i l = 0%nat.
Proof.
  intros Hi. unfold times. induction l as [|x l IH]; [reflexivity|].
  rewrite filter_cons. destruct (decide (x = i)) as [-> | Hne].
  - exfalso. apply Hi. apply elem_of_cons. left. reflexivity.
  - apply IH. intros H. apply Hi. apply elem_of_cons. right. exact H.
Qed.

Lemma times_fired_filter (batch : list Entry) (s : gset nat) (i : nat) :
  times i (fired (filter (fun e => target e ∈ s) batch)) =
  if decide (i ∈ s) then times i (fired batch) else 0%nat.
Proof.
  destruct (decide (i ∈ s)) as [In | Out].
  - induction batch as [|e r IH]; [reflexivity|].
    rewrite filter_cons. destruct (decide (target e ∈ s)) as [Ie | Oe]; cbn [fired].
    + destruct (isIntersecting e); [|exact IH].
      unfold times in *. rewrite !filter_cons. destruct (decide (target e = i)); cbn [length];
        rewrite IH; reflexivity.
    + destruct (isIntersecting e); [|exact IH].
      unfold times in *. rewrite filter_cons. rewrite decide_False; [exact IH|].
      intros E. apply Oe. rewrite E. exact In.
  - apply times_none. intros H.
    exact (Out (proj2 (fired_filter_watched batch s) i H)).
Qed.

Lemma first_report_from {Page : Type} (process : nat -> Page -> Page) (n : nat)
    (batches : list (list Entry)) (w : Watch Page) (i : nat) :
  covers n w -> (i < n)%nat ->
  times i (handled (foldl (fun w b => notify process b w) w batches)) =
  if decide (i ∈ watched w) then first_report i batches else times i (handled w).
Proof.
  revert w. induction batches as [|b bs IH]; intros w Hc Hi; cbn [foldl first_report].
  - destruct (decide (i ∈ watched w)) as [In | Out]; [|reflexivity].
    apply times_none. intros H. exact (proj2 Hc i H In).
  - rewrite (IH _ (notify_covers process n b w Hc) Hi).
    unfold notify.
    destruct (callback_spec process (filter (fun e => target e ∈ watched w) b) w) as [Hw Hh].
    set (w1 := callback process (filter (fun e => target e ∈ watched w) b) w) in *.
    rewrite Hh, times_app, times_fired_filter.
    destruct (decide (i ∈ watched w)) as [In | Out].
    + rewrite (times_none i (handled w)) by (intros H; exact (proj2 Hc i H In)).
      case_bool_decide as Hf.
      * destruct (decide (i ∈ watched w1)) as [In1 | Out1]; [|reflexivity].
        exfalso. rewrite Hw in In1. apply elem_of_difference in In1.
        destruct In1 as [_ Hn]. apply Hn. apply elem_of_list_to_set.
        exact (fired_filter_member b (watched w) i Hf In).
      * destruct (decide (i ∈ watched w1)) as [In1 | Out1]; [reflexivity|].
        exfalso. apply Out1. rewrite Hw. apply elem_of_difference. split; [exact In|].
        rewrite elem_of_list_to_set. intros H. apply Hf.
        exact (elem_of_sublist _ _ i H (proj1 (fired_filter_watched b (watched w)))).
    + destruct (decide (i ∈ watched w1)) as [In1 | Out1]; [|lia].
      exfalso. rewrite Hw in In1. apply elem_of_difference in In1. exact (Out (proj1 In1)).
Qed.

Lemma notify_within {Page : Type} (process : nat -> Page -> Page) (n : nat)
    (batch : list Entry) (w : Watch Page) :
  within n w -> within n (notify process batch w).
Proof.
  intros [Hw Hh]. unfold notify, within.
  destruct (callback_spec process (filter (fun e => target e ∈ watched w) batch) w) as [-> ->].
  split.
  - intros i [H _]%elem_of_difference. exact (Hw i H).
  - intros i [H | H]%elem_of_app; [exact (Hh i H)|].
    exact (Hw i (proj2 (fired_filter_watched batch (watched w)) i H)).
Qed.

Lemma observe_all_within {Page : Type} (n : nat) (p : Page) :
  within n (observe_all n (unobserved p)).
Proof.
  unfold observe_all. split.
  - assert (H : forall (ks : list nat) (w : Watch Page) (i : nat),
               i ∈ watched (foldl (fun w i => observe i w) w ks) -> i ∈ ks \/ i ∈ watched w).
    { induction ks as [|k ks IH]; intros w i Hi; [right; exact Hi|].
      cbn [foldl] in Hi. destruct (IH _ _ Hi) as [H | H].
      - left. apply elem_of_cons. right. exact H.
      - cbn [observe watched] in H. apply elem_of_union in H. destruct H as [H | H].
        + left. apply elem_of_cons. left. apply elem_of_singleton in H. exact H.
        + right. exact H. }
    intros i Hi. destruct (H _ _ _ Hi) as [Hs | He].
    + apply elem_of_seq in Hs. lia.
    + cbn in He. exfalso. exact (not_elem_of_empty i He).
  - intros i Hi. rewrite observe_all_handled in Hi. inversion Hi.
Qed.

Lemma fires_at_first_report_from {Page : Type} (process : nat -> Page -> Page) (n : nat)
    (w : Watch Page) :
  covers n w -> within n w -> (forall i : nat, (i < n)%nat -> i ∈ watched w) ->
  fires_at_first_report process n w.
Proof.
  intros Hc Hin Hall batches w'. split.
  - intros i Hi. subst w'. rewrite (first_report_from process n batches w i Hc Hi).
    rewrite decide_True by exact (Hall i Hi). reflexivity.
  - intros i Hi H.
    assert (Hw' : within n w').
    { subst w'. clear H. revert w Hc Hin Hall. induction batches as [|b bs IH];
        intros w Hc Hin Hall; [exact Hin|].
      cbn [foldl]. clear Hall.
      assert (G : forall v : Watch Page, within n v ->
                  within n (foldl (fun w b => notify process b w) v bs)).
      { clear. induction bs as [|b' bs' IH']; intros v Hv; [exact Hv|].
        cbn [foldl]. apply IH'. apply notify_within. exact Hv. }
      apply G. apply notify_within. exact Hin. }
    pose proof (proj2 Hw' i H). lia.
Qed.

(** X18.  The reveal and counter observers of both files process a
    target in the first batch that reports it as intersecting, once for
    each entry of that batch that does so, and in no other batch; what
    was never among the targets is never processed.  When no batch
    reports a target as intersecting twice, no target is processed
    twice, every processed target has been unobserved and a further
    notification for it changes nothing. *)
Theorem observers_process_at_first_report :
  (forall (elements : list (gset string)) w,
      MainJs.initScrollAnimations (unobserved elements) = Returned w ->
      Part000.initScrollAnimations (unobserved elements) = Returned w /\
      fires_at_first_report MainJs.animate (length elements) w /\
      fires_once MainJs.animate w) /\
  (forall (num : Type) (N : Number num) (p : MainJs.CounterPage num) w,
      MainJs.initCounters (unobserved p) = Returned w ->
      fires_at_first_report MainJs.count_up (length (MainJs.innerText p)) w /\
      fires_once MainJs.count_up w) /\
  (forall (num : Type) (N : Number num) (p : Part000.CounterPage num) w,
      Part000.initCounters (unobserved p) = Returned w ->
      fires_at_first_report Part000.count_up (length (Part000.innerText p)) w /\
      fires_once Part000.count_up w).
Proof.
  assert (Hnone : forall (Page : Type) (process : nat -> Page -> Page) (q : Page),
            fires_at_first_report process 0 (unobserved q) /\ fires_once process (unobserved q)).
  { intros Page process q. split.
    - apply fires_at_first_report_from.
      + split; [intros i Hi; lia | intros i Hi; inversion Hi].
      + split; intros i Hi; [exfalso; exact (not_elem_of_empty i Hi) | inversion Hi].
      + intros i Hi. lia.
    - apply fires_once_from. split; [constructor | intros i Hi; inversion Hi]. }
  assert (Hsome : forall (Page : Type) (process : nat -> Page -> Page) (n : nat) (q : Page),
            fires_at_first_report process n (observe_all n (unobserved q)) /\
            fires_once process (observe_all n (unobserved q))).
  { intros Page process n q. split.
    - apply fires_at_first_report_from.
      + apply observe_all_covers.
      + apply observe_all_within.
      + intros i Hi. apply observe_all_watched. apply elem_of_seq. lia.
    - apply fires_once_from. apply observe_all_once_only. }
  repeat apply conj.
  - intros elements w Hinit. split; [exact Hinit|].
    unfold MainJs.initScrollAnimations in Hinit. cbn [page unobserved] in Hinit.
    destruct (length elements) as [|n] eqn:E; cbn [Nat.eqb] in Hinit; injection Hinit as <-;
      [apply Hnone | apply Hsome].
  - intros num N p w Hinit.
    unfold MainJs.initCounters in Hinit. cbn [page unobserved] in Hinit.
    destruct (length (MainJs.innerText p)) as [|n] eqn:E; cbn [Nat.eqb] in Hinit;
      injection Hinit as <-; [apply Hnone | apply Hsome].
  - intros num N p w Hinit.
    unfold Part000.initCounters in Hinit. cbn [page unobserved] in Hinit.
    destruct (length (Part000.innerText p)) as [|n] eqn:E; cbn [Nat.eqb] in Hinit;
      injection Hinit as <-; [apply Hnone | apply Hsome].
Qed.

Lemma observers_process_at_first_report_witness :
  exists w : Watch (list (gset string)),
    MainJs.initScrollAnimations (unobserved two_reveal_targets) = Returned w /\
    Forall one_report_per_target two_batches /\
    let w' := foldl (fun w b => notify MainJs.animate b w) w two_batches in
    handled w' = [0; 1]%nat /\ NoDup (handled w') /\
    times 0 (handled w') = first_report 0 two_batches.
Proof.
  eexists. split; [reflexivity|].
  assert (Hall : Forall one_report_per_target two_batches).
  { repeat constructor; apply (bool_decide_unpack _); vm_compute; exact I. }
  split; [exact Hall|].
  split; [vm_compute; reflexivity|].
  destruct (proj1 observers_process_at_first_report two_reveal_targets _ eq_refl)
    as (_ & Hfirst & Honce).
  split.
  - exact (proj1 (Honce two_batches Hall)).
  - apply (proj1 (Hfirst two_batches)). cbn. lia.
Defined.

(** ** Reveal observer: the elements after any batches *)

Lemma handled_reported {Page : Type} (process : nat -> Page -> Page) (n : nat)
    (batches : list (list Entry)) (w : Watch Page) (i : nat) :
  covers n w -> (i < n)%nat ->
  i ∈ handled (foldl (fun w b => notify process b w) w batches) <->
  i ∈ handled w \/ reported i batches = true.
Proof.
  revert w. induction batches as [|b bs IH]; intros w Hc Hi; cbn [foldl reported existsb].
  - split; [intros H; left; exact H | intros [H | H]; [exact H | discriminate H]].
  - rewrite (IH _ (notify_covers process n b w Hc) Hi). unfold notify.
    destruct (callback_spec process (filter (fun e => target e ∈ watched w) b) w) as [_ ->].
    fold (reported i bs). rewrite elem_of_app, orb_true_iff, bool_decide_eq_true.
    split.
    + intros [[H | H] | H]; [left; exact H | right; left | right; right; exact H].
      exact (elem_of_sublist _ _ i H (proj1 (fired_filter_watched b (watched w)))).
    + intros [H | [H | H]]; [left; left; exact H | | right; exact H].
      destruct (proj1 Hc i Hi) as [Hw | Hh]; [|left; left; exact Hh].
      left. right. exact (fired_filter_member b (watched w) i H Hw).
Qed.

(** X7.  Whatever batches the reveal observer receives, an element
    tagged for reveal keeps the classes it was loaded with; it carries
    is-animated besides when some batch has reported it as intersecting,
    and is as it was when none has.  Both files share the text. *)
Theorem reveal_marks_reported (elements : list (gset string))
    (batches : list (list Entry)) (i : nat) (cl : gset string) :
  elements !! i = Some cl ->
  exists w : Watch (list (gset string)),
    MainJs.initScrollAnimations (unobserved elements) = Returned w /\
    Part000.initScrollAnimations (unobserved elements) = Returned w /\
    page (foldl (fun w b => reveal_notify b w) w batches) !! i =
      Some (if reported i batches then classList_add "is-animated" cl else cl).
Proof.
  intros Hi. unfold Part000.initScrollAnimations, MainJs.initScrollAnimations.
  cbn [page unobserved].
  pose proof (lookup_lt_Some _ _ _ Hi) as Hlt.
  destruct elements as [|e0 es]; [discriminate Hi|]. cbn [length Nat.eqb].
  eexists. split; [reflexivity|]. split; [reflexivity|].
  set (w := observe_all (S (length es)) (unobserved (e0 :: es))).
  assert (Hkeep := reveal_notifications_keep (e0 :: es) batches w).
  cbv zeta in Hkeep. unfold reveal_notify. rewrite (Hkeep) with (cl := cl); [|  | exact Hi].
  - unfold revealed. f_equal.
    assert (Hiff : i ∈ handled (foldl (fun w b => notify animate b w) w batches) <->
                   reported i batches = true).
    { rewrite (handled_reported animate (S (length es)) batches w i);
        [| apply observe_all_covers | exact Hlt].
      subst w. unfold observe_all. rewrite observe_all_handled. cbn [handled unobserved].
      split; [intros [H | H]; [inversion H | exact H] | intros H; right; exact H]. }
    destruct (reported i batches).
    + rewrite bool_decide_eq_true_2 by (apply Hiff; reflexivity). reflexivity.
    + rewrite bool_decide_eq_false_2; [reflexivity|]. intros H. apply Hiff in H. discriminate H.
  - intros j c Hj. subst w. unfold observe_all, revealed.
    rewrite observe_all_page, observe_all_handled. cbn [page handled unobserved].
    rewrite Hj. rewrite bool_decide_eq_false_2; [reflexivity|]. intros H. inversion H.
Qed.

Lemma reveal_marks_reported_witness :
  exists w : Watch (list (gset string)),
    MainJs.initScrollAnimations (unobserved two_reveal_targets) = Returned w /\
    let w' := foldl (fun w b => reveal_notify b w) w
                [[ {| target := 1; isIntersecting := true |};
                   {| target := 0; isIntersecting := false |} ]] in
    page w' !! 0%nat = Some ∅ /\
    page w' !! 1%nat = Some (classList_add "is-animated" ∅).
Proof.
  set (batches := [[ {| target := 1; isIntersecting := true |};
                     {| target := 0; isIntersecting := false |} ]]).
  destruct (reveal_marks_reported two_reveal_targets batches 0 ∅ eq_refl)
    as (w & Hinit & _ & H0).
  destruct (reveal_marks_reported two_reveal_targets batches 1 ∅ eq_refl)
    as (w1 & Hinit1 & _ & H1).
  rewrite Hinit in Hinit1. injection Hinit1 as <-.
  exists w. split; [exact Hinit|]. split; [exact H0 | exact H1].
Defined.

(** ** Theme: the stored value across reloads *)

Lemma initialTheme_truthy (p : ThemePage) : truthy_string (initialTheme p) = true.
Proof.
  unfold initialTheme. destruct (localStorage p !! "theme") as [s|].
  - destruct (truthy_string s) eqn:E; [exact E|]. destruct (prefersDark p); reflexivity.
  - destruct (prefersDark p); reflexivity.
Qed.

Lemma reload_applies_stored (theme : string) (q : ThemePage) (systemPrefersDark : bool) :
  truthy_string theme = true ->
  initThemeToggle (reloaded (applyTheme theme q) systemPrefersDark) =
  Returned (add_click_listener
              (applyTheme theme (reloaded (applyTheme theme q) systemPrefersDark))).
Proof.
  intros Ht. unfold initThemeToggle. cbn [reloaded themeToggleButton negb].
  do 2 f_equal. unfold initialTheme. cbn [localStorage reloaded applyTheme].
  rewrite lookup_insert_eq, Ht. reflexivity.
Qed.

(** X9.  The theme survives a reload.  A page loaded with the store a
    click on the toggle left behind, or the store an earlier load left
    behind, applies the theme that was applied then, whatever the system
    prefers at the time of the reload.  Both files share the text. *)
Theorem theme_survives_reload (systemPrefersDark : bool) :
  (forall q : ThemePage,
      exists p' : ThemePage,
        MainJs.initThemeToggle (reloaded (on_toggle_click q) systemPrefersDark) = Returned p' /\
        dataTheme p' = dataTheme (on_toggle_click q)) /\
  (forall p0 p1 : ThemePage,
      themeToggleButton p0 = true ->
      MainJs.initThemeToggle p0 = Returned p1 ->
      exists p' : ThemePage,
        MainJs.initThemeToggle (reloaded p1 systemPrefersDark) = Returned p' /\
        dataTheme p' = dataTheme p1).
Proof.
  split.
  - intros q. unfold on_toggle_click. eexists. split.
    + apply reload_applies_stored. case_bool_decide; reflexivity.
    + reflexivity.
  - intros p0 p1 Hb Hinit. unfold MainJs.initThemeToggle in Hinit.
    rewrite Hb in Hinit. cbn [negb] in Hinit. injection Hinit as <-.
    eexists. split.
    + change (reloaded (add_click_listener (applyTheme (initialTheme p0) p0)) systemPrefersDark)
        with (reloaded (applyTheme (initialTheme p0) p0) systemPrefersDark).
      apply reload_applies_stored. apply initialTheme_truthy.
    + reflexivity.
Qed.

Lemma theme_survives_reload_witness :
  exists p1 p' : ThemePage,
    MainJs.initThemeToggle fresh_theme_page = Returned p1 /\
    MainJs.initThemeToggle (reloaded p1 false) = Returned p' /\
    dataTheme p' = Some "dark"%string.
Proof.
  destruct (proj2 (theme_survives_reload false) fresh_theme_page _ eq_refl eq_refl)
    as (p' & Hinit & Htheme).
  eexists. exists p'. split; [reflexivity|]. split; [exact Hinit | exact Htheme].
Defined.

(** X10.  A stored theme that is the empty string counts as no stored
    theme: the controller applies "dark" or "light" by the system
    preference and overwrites the stored value with it.  Both files
    share the text. *)
Theorem empty_stored_theme_is_ignored (p : ThemePage) :
  themeToggleButton p = true ->
  localStorage p !! "theme" = Some ""%string ->
  exists p' : ThemePage,
    MainJs.initThemeToggle p = Returned p' /\
    Part000.initThemeToggle p = Returned p' /\
    dataTheme p' = Some (if prefersDark p then "dark" else "light")%string /\
    localStorage p' !! "theme" = dataTheme p'.
Proof.
  intros Hb Hs. unfold Part000.initThemeToggle, MainJs.initThemeToggle. rewrite Hb. cbn [negb].
  eexists. split; [reflexivity|]. split; [reflexivity|].
  cbn [dataTheme localStorage add_click_listener applyTheme].
  unfold initialTheme. rewrite Hs. cbn [truthy_string].
  split; [destruct (prefersDark p); reflexivity | apply lookup_insert_eq].
Qed.

Lemma empty_stored_theme_is_ignored_witness :
  exists p' : ThemePage,
    MainJs.initThemeToggle stored_empty_system_dark = Returned p' /\
    dataTheme p' = Some "dark"%string.
Proof.
  destruct (empty_stored_theme_is_ignored stored_empty_system_dark eq_refl)
    as (p' & Hinit & _ & Htheme & _); [vm_compute; reflexivity|].
  exists p'. split; [exact Hinit | exact Htheme].
Defined.

(** ** Counters: a frame writes its own counter only *)

Lemma main_updateCount_keeps {num : Type} `{Number num}
    (a : MainJs.Animation num) (p : MainJs.CounterPage num) (j : nat) :
  MainJs.counter a <> j ->
  Forall (fun a => MainJs.counter a <> j) (MainJs.frameRequests p) ->
  MainJs.innerText (MainJs.updateCount a p) !! j = MainJs.innerText p !! j /\
  length (MainJs.innerText (MainJs.updateCount a p)) = length (MainJs.innerText p) /\
  Forall (fun a => MainJs.counter a <> j) (MainJs.frameRequests (MainJs.updateCount a p)).
Proof.
  intros Hne Hq. unfold MainJs.updateCount. destruct (lt _ _);
    cbn [MainJs.innerText MainJs.frameRequests MainJs.requestAnimationFrame MainJs.set_innerText].
  - rewrite list_lookup_insert_ne by exact Hne. rewrite length_insert.
    split; [reflexivity|]. split; [reflexivity|].
    apply Forall_app. split; [exact Hq|]. constructor; [exact Hne | constructor].
  - rewrite list_lookup_insert_ne by exact Hne. rewrite length_insert.
    split; [reflexivity|]. split; [reflexivity | exact Hq].
Qed.

Lemma part_step_keeps {num : Type} `{Number num} (t : num)
    (a : Part000.Animation num) (p : Part000.CounterPage num) (j : nat) :
  Part000.counter a <> j ->
  Forall (fun a => Part000.counter a <> j) (Part000.frameRequests p) ->
  Part000.innerText (Part000.step t a p) !! j = Part000.innerText p !! j /\
  length (Part000.innerText (Part000.step t a p)) = length (Part000.innerText p) /\
  Forall (fun a => Part000.counter a <> j) (Part000.frameRequests (Part000.step t a p)).
Proof.
  intros Hne Hq. unfold Part000.step. destruct (lt _ _);
    cbn [Part000.innerText Part000.frameRequests Part000.requestAnimationFrame
         Part000.set_innerText].
  - rewrite list_lookup_insert_ne by exact Hne. rewrite length_insert.
    split; [reflexivity|]. split; [reflexivity|].
    apply Forall_app. split; [exact Hq|]. constructor; [exact Hne | constructor].
  - rewrite !list_lookup_insert_ne by exact Hne. rewrite !length_insert.
    split; [reflexivity|]. split; [reflexivity | exact Hq].
Qed.

(** X11.  In both files and under every arithmetic, an animation frame
    touches the texts of the counters being animated and no other: a
    counter no pending callback animates keeps its text, the number of
    counters stays, and no callback for that counter is requested, so
    the same holds of every later frame. *)
Theorem frames_write_own_counter :
  (forall (num : Type) (N : Number num),
      frame_keeps (@MainJs.innerText num) (@MainJs.frameRequests num)
        (@MainJs.counter num) MainJs.animationFrame) /\
  (forall (num : Type) (N : Number num) (t : num),
      frame_keeps (@Part000.innerText num) (@Part000.frameRequests num)
        (@Part000.counter num) (Part000.animationFrame t)).
Proof.
  split.
  - intros num N p j Hq. unfold MainJs.animationFrame.
    set (acc := {| MainJs.innerText := MainJs.innerText p; MainJs.frameRequests := [] |}).
    change (MainJs.innerText p) with (MainJs.innerText acc).
    assert (Hacc : Forall (fun a => MainJs.counter a <> j) (MainJs.frameRequests acc))
      by constructor.
    clearbody acc. revert acc Hacc Hq.
    induction (MainJs.frameRequests p) as [|a l IH]; intros acc Hacc Hq; cbn [foldl].
    + split; [reflexivity|]. split; [reflexivity | exact Hacc].
    + apply Forall_cons_1 in Hq. destruct Hq as [Ha Hl].
      destruct (main_updateCount_keeps a acc j Ha Hacc) as (E1 & E2 & E3).
      destruct (IH (MainJs.updateCount a acc) E3 Hl) as (F1 & F2 & F3).
      rewrite F1, F2, E1, E2. split; [reflexivity|]. split; [reflexivity | exact F3].
  - intros num N t p j Hq. unfold Part000.animationFrame.
    set (acc := {| Part000.innerText := Part000.innerText p; Part000.frameRequests := [] |}).
    change (Part000.innerText p) with (Part000.innerText acc).
    assert (Hacc : Forall (fun a => Part000.counter a <> j) (Part000.frameRequests acc))
      by constructor.
    clearbody acc. revert acc Hacc Hq.
    induction (Part000.frameRequests p) as [|a l IH]; intros acc Hacc Hq; cbn [foldl].
    + split; [reflexivity|]. split; [reflexivity | exact Hacc].
    + apply Forall_cons_1 in Hq. destruct Hq as [Ha Hl].
      destruct (part_step_keeps t a acc j Ha Hacc) as (E1 & E2 & E3).
      destruct (IH (Part000.step t a acc) E3 Hl) as (F1 & F2 & F3).
      rewrite F1, F2, E1, E2. split; [reflexivity|]. split; [reflexivity | exact F3].
Qed.

Lemma frames_write_own_counter_witness :
  MainJs.innerText (MainJs.animationFrame (MainJs.count_up 2 three_counters)) !! 1%nat
  = Some "7%"%string.
Proof.
  apply (proj1 frames_write_own_counter float ieee_number (MainJs.count_up 2 three_counters) 1%nat).
  cbn. repeat constructor. discriminate.
Defined.

(** ** Counters: reading the text *)

Lemma filter_chars_app (f : ascii -> bool) (a b : string) :
  filter_chars f (a ++ b)%string = (filter_chars f a ++ filter_chars f b)%string.
Proof.
  induction a as [|c a IH]; [reflexivity|].
  change (String c a ++ b)%string with (String c (a ++ b)%string).
  cbn [filter_chars]. rewrite IH. destruct (f c); reflexivity.
Qed.

Lemma plain_non_digits (s : string) : plain s = true -> replace_non_digits s = ""%string.
Proof.
  induction s as [|c s IH]; [reflexivity|]. cbn [plain]. intros H.
  apply andb_true_iff in H. destruct H as [Hc Hs].
  unfold replace_non_digits. cbn [filter_chars].
  destruct (is_digit c); [discriminate Hc | exact (IH Hs)].
Qed.

Lemma plain_digits_commas (s : string) : plain s = true -> replace_digits_commas s = s.
Proof.
  induction s as [|c s IH]; [reflexivity|]. cbn [plain]. intros H.
  apply andb_true_iff in H. destruct H as [Hc Hs].
  unfold replace_digits_commas. cbn [filter_chars]. rewrite Hc. f_equal. exact (IH Hs).
Qed.

Lemma digit_char_spec (d : Z) :
  0 <= d <= 9 ->
  is_digit (digit_char d) = true /\ is_comma (digit_char d) = false /\
  digit_value (digit_char d) = d.
Proof.
  intros Hd.
  assert (H : d = 0 \/ d = 1 \/ d = 2 \/ d = 3 \/ d = 4 \/ d = 5 \/ d = 6 \/ d = 7 \/
              d = 8 \/ d = 9) by lia.
  repeat (destruct H as [-> | H]; [repeat split|]). subst. repeat split.
Qed.

Lemma group3_filtered (ds : list Z) (k : nat) (acc : string) :
  Forall (fun d => 0 <= d <= 9) ds ->
  replace_non_digits (group3 k ds acc) = plain_digits ds (replace_non_digits acc) /\
  replace_digits_commas (group3 k ds acc) = replace_digits_commas acc.
Proof.
  revert k acc. induction ds as [|d r IH]; intros k acc Hall; [split; reflexivity|].
  apply Forall_cons_1 in Hall. destruct Hall as [Hd Hr].
  destruct (digit_char_spec d Hd) as (Hdig & Hcom & _).
  assert (Hstep : forall acc', replace_non_digits (String (digit_char d) acc')
                               = String (digit_char d) (replace_non_digits acc') /\
                               replace_digits_commas (String (digit_char d) acc')
                               = replace_digits_commas acc').
  { intros acc'. unfold replace_non_digits, replace_digits_commas. cbn [filter_chars].
    rewrite Hdig. split; reflexivity. }
  cbn [group3 plain_digits].
  destruct k as [|[|[|[|k]]]];
    match goal with |- context [group3 ?k' r ?a] =>
      destruct (IH k' a Hr) as [-> ->] end;
    try (destruct (Hstep acc) as [-> ->]; split; reflexivity).
  destruct (Hstep (String ","%char acc)) as [-> ->]. split; reflexivity.
Qed.

Lemma digits_value_plain (ds : list Z) (a : Z) (acc : string) :
  Forall (fun d => 0 <= d <= 9) ds ->
  digits_value a (plain_digits ds acc) =
  digits_value (a * 10 ^ Z.of_nat (length ds) + le_value ds) acc.
Proof.
  revert a acc. induction ds as [|d r IH]; intros a acc Hall.
  - cbn. f_equal. lia.
  - apply Forall_cons_1 in Hall. destruct Hall as [Hd Hr].
    destruct (digit_char_spec d Hd) as (_ & _ & Hval).
    cbn [plain_digits length le_value]. rewrite (IH a _ Hr). cbn [digits_value].
    rewrite Hval. f_equal. rewrite Nat2Z.inj_succ, Z.pow_succ_r by lia. lia.
Qed.

Lemma digits_rev_spec (fuel : nat) (z : Z) :
  0 <= z < 10 ^ Z.of_nat fuel ->
  Forall (fun d => 0 <= d <= 9) (digits_rev fuel z) /\ le_value (digits_rev fuel z) = z.
Proof.
  revert z. induction fuel as [|f IH]; intros z Hz.
  - cbn in Hz. cbn. split; [constructor | lia].
  - cbn [digits_rev]. destruct (z <? 10) eqn:E.
    + apply Z.ltb_lt in E. split; [repeat constructor; lia | cbn; lia].
    + apply Z.ltb_ge in E. rewrite Nat2Z.inj_succ, Z.pow_succ_r in Hz by lia.
      assert (Hq : 0 <= z / 10 < 10 ^ Z.of_nat f).
      { split; [apply Z.div_pos; lia | apply Z.div_lt_upper_bound; lia]. }
      destruct (IH (z / 10) Hq) as [Hall Hval].
      pose proof (Z.mod_pos_bound z 10 ltac:(lia)) as Hm.
      split; [constructor; [lia | exact Hall]|].
      cbn [le_value]. rewrite Hval. pose proof (Z.div_mod z 10 ltac:(lia)). lia.
Qed.

Lemma digit_fuel_enough (z : Z) : 0 <= z -> 0 <= z < 10 ^ Z.of_nat (digit_fuel z).
Proof.
  intros Hz. split; [exact Hz|]. unfold digit_fuel.
  rewrite Nat2Z.inj_succ, Z2Nat.id by apply Z.log2_nonneg.
  destruct (Z.eq_dec z 0) as [-> | Hne]; [reflexivity|].
  pose proof (Z.log2_spec z ltac:(lia)) as [_ Hlt].
  eapply Z.lt_le_trans; [exact Hlt|].
  apply Z.pow_le_mono_l. lia.
Qed.

Lemma plain_digits_nonempty (ds : list Z) (c : ascii) (acc : string) :
  plain_digits ds (String c acc) <> ""%string.
Proof.
  revert c acc. induction ds as [|d r IH]; intros c acc; [discriminate|].
  cbn [plain_digits]. apply IH.
Qed.

(** The grouped rendering of a natural number reads back as the number
    and leaves no suffix. *)
Lemma group_int_reads_back (n : Z) :
  0 <= n ->
  parse_digits (replace_non_digits (group_int n)) = Some n /\
  replace_digits_commas (group_int n) = ""%string.
Proof.
  intros Hn. unfold group_int. destruct (n <? 0) eqn:E; [apply Z.ltb_lt in E; lia|].
  unfold group_nonneg.
  destruct (digits_rev_spec (digit_fuel n) n (digit_fuel_enough n Hn)) as [Hall Hval].
  destruct (group3_filtered (digits_rev (digit_fuel n) n) 0 "" Hall) as [-> ->].
  split; [|reflexivity].
  change (replace_non_digits "") with ""%string.
  assert (Hne : plain_digits (digits_rev (digit_fuel n) n) "" <> ""%string).
  { unfold digit_fuel. cbn [digits_rev]. destruct (n <? 10); cbn [plain_digits];
      first [discriminate | apply plain_digits_nonempty]. }
  unfold parse_digits.
  destruct (plain_digits (digits_rev (digit_fuel n) n) "") eqn:Es; [contradiction|].
  rewrite <- Es, (digits_value_plain _ 0 "" Hall), Hval. cbn [digits_value]. f_equal.
Qed.

Lemma counter_text_reads {num : Type} `{Number num} (pre suf : string) (n : Z) :
  0 <= n -> plain pre = true -> plain suf = true ->
  parseInt (replace_non_digits (pre ++ group_int n ++ suf)%string) = of_Z n /\
  replace_digits_commas (pre ++ group_int n ++ suf)%string = (pre ++ suf)%string.
Proof.
  intros Hn Hpre Hsuf. destruct (group_int_reads_back n Hn) as [Hparse Hrest].
  unfold replace_non_digits, replace_digits_commas in *.
  rewrite !filter_chars_app.
  fold (replace_non_digits pre) (replace_non_digits suf)
       (replace_digits_commas pre) (replace_digits_commas suf).
  rewrite (plain_non_digits pre Hpre), (plain_non_digits suf Hsuf),
    (plain_digits_commas pre Hpre), (plain_digits_commas suf Hsuf), Hrest.
  change (""%string ++ ?x)%string with x. rewrite string_app_nil_r.
  split; [|reflexivity]. unfold parseInt. rewrite Hparse. reflexivity.
Qed.

(** *** A natural number below 2 to the power 53 is a double, and prints
    as itself *)

Lemma binary_round_aux_exact (m : positive) (e : Z) :
  fexp prec emax (Zdigits2 (Z.pos m) + e) <= e -> e <= 971 ->
  binary_round_aux prec emax false (Z.pos m) e loc_Exact = S754_finite false m e.
Proof.
  intros Hf He. unfold binary_round_aux, shr_fexp.
  cbn [shr_record_of_loc].
  destruct (fexp prec emax (Zdigits2 (Z.pos m) + e) - e) as [|k|k] eqn:Ek; try lia;
    cbn [shr loc_of_shr_record round_nearest_even shr_m shr_record_of_loc];
    rewrite Ek; cbn [shr shr_m];
    rewrite (proj2 (Z.leb_le e (emax - prec))) by exact He; reflexivity.
Qed.

Lemma ieee_of_Z_exact (n : Z) :
  0 < n < 2 ^ 53 ->
  exists (m : positive) (e : Z),
    Prim2SF (ieee_of_Z n) = S754_finite false m e /\ e <= 0 /\
    (F2Q (Z.pos m) e == inject_Z n)%Q.
Proof.
  intros [Hn Hlt]. unfold ieee_of_Z. destruct n as [|p|p]; try lia. cbn [binary_normalize].
  destruct (binary_round_ok p 0) as [Hv _]. rewrite (Prim2SF_SF2Prim _ Hv). clear Hv.
  unfold binary_round.
  destruct (shl_align_spec p 0 (fexp prec emax (Z.pos (digits2_pos p) + 0))) as [He Hm].
  destruct (shl_align p 0 (fexp prec emax (Z.pos (digits2_pos p) + 0))) as [mz ez].
  cbn [fst snd] in He, Hm.
  change (Z.pos (digits2_pos p)) with (Zdigits2 (Z.pos p)) in *.
  pose proof (Zdigits2_pos (Z.pos p) ltac:(lia)) as Hd.
  assert (Hd53 : Zdigits2 (Z.pos p) <= 53).
  { pose proof (Zdigits2_bounds (Z.pos p) ltac:(lia)) as [Lo _].
    destruct (Z_le_gt_dec (Zdigits2 (Z.pos p)) 53) as [L | G]; [exact L|]. exfalso.
    assert (2 ^ 53 <= 2 ^ (Zdigits2 (Z.pos p) - 1)) by (apply Z.pow_le_mono_r; lia). lia. }
  rewrite fexp64 in He, Hm.
  assert (Ez : ez = Zdigits2 (Z.pos p) - 53) by lia.
  assert (Hmz : Z.pos mz = Z.pos p * 2 ^ (53 - Zdigits2 (Z.pos p))).
  { rewrite Hm. f_equal. f_equal. lia. }
  assert (Hdz : Zdigits2 (Z.pos mz) + ez = Zdigits2 (Z.pos p)).
  { rewrite Hmz, Zdigits2_mul_pow2 by lia. lia. }
  exists mz, ez. split; [|split].
  - apply binary_round_aux_exact; [rewrite Hdz, fexp64; lia | lia].
  - lia.
  - rewrite Hmz, (F2Q_scale (Z.pos p) ez (53 - Zdigits2 (Z.pos p))) by lia.
    replace (ez + (53 - Zdigits2 (Z.pos p))) with 0 by lia.
    unfold F2Q. rewrite pow2_0. ring.
Qed.

Lemma group_rational_comp (q1 q2 : Q) : (q1 == q2)%Q -> group_rational q1 = group_rational q2.
Proof.
  intros E. unfold group_rational.
  assert (Hs : (Qnum q1 <? 0) = (Qnum q2 <? 0)).
  { unfold Qeq in E. destruct (Z.ltb_spec (Qnum q1) 0), (Z.ltb_spec (Qnum q2) 0);
      try reflexivity; exfalso; nia. }
  assert (Ht : Qfloor (Qabs q1 * 1000 + (1 # 2)) = Qfloor (Qabs q2 * 1000 + (1 # 2))).
  { apply Qfloor_comp. rewrite E. reflexivity. }
  rewrite Hs, Ht. reflexivity.
Qed.

Lemma ieee_text_int (n : Z) :
  0 <= n < 2 ^ 53 -> toLocaleString (ieee_of_Z n) = group_int n.
Proof.
  intros [Hn Hlt]. destruct (Z.eq_dec n 0) as [-> | Hne]; [reflexivity|].
  destruct (ieee_of_Z_exact n ltac:(lia)) as (m & e & E & He & Hv).
  cbn [toLocaleString ieee_number]. unfold ieee_toLocaleString. rewrite E.
  rewrite (proj2 (Z.ltb_ge 0 e)) by exact He.
  change (inject_Z (Z.pos m) * 2 ^ e)%Q with (F2Q (Z.pos m) e).
  rewrite (group_rational_comp _ _ Hv). apply group_rational_int. exact Hn.
Qed.


(** X12.  In binary64, a counter whose text is a grouped natural number
    below 2 to the power 53 between a prefix and a suffix, both without
    digits and commas, ends on the grouped number followed by the prefix
    and the suffix: a text without prefix ends as it was, a prefix such
    as a currency sign ends up behind the number.  main.js from the
    126th frame on, part_000 after a frame that computes an elapsed time
    of 2000 ms or more past a truthy first timestamp. *)
Theorem counter_ends_on_number_then_rest (pre suf : string) (n : Z) :
  0 <= n < 2 ^ 53 -> plain pre = true -> plain suf = true ->
  (forall k : nat, (126 <= k)%nat ->
     Nat.iter k MainJs.animationFrame
       (MainJs.count_up 0
          (@main_counter float ieee_number (pre ++ group_int n ++ suf)%string))
     = main_ieee_done (group_int n ++ pre ++ suf)%string) /\
  (forall (t0 t : float) (ts : list float),
      ieee_to_boolean t0 = true -> (ieee_of_Z 2000 <=? t - t0)%float = true ->
      foldl (fun p t => Part000.animationFrame t p)
        (Part000.count_up 0
           (@part_counter float ieee_number (pre ++ group_int n ++ suf)%string))
        (t0 :: ts ++ [t])
      = part_ieee_done (group_int n ++ pre ++ suf)%string).
Proof.
  intros Hn Hpre Hsuf.
  destruct (@counter_text_reads float ieee_number pre suf n (proj1 Hn) Hpre Hsuf)
    as [Htarget Hsuffix].
  split.
  - intros k Hk. rewrite (main_ieee_ended _ k Hk), Htarget, Hsuffix.
    change (@of_Z float ieee_number n) with (ieee_of_Z n).
    rewrite (ieee_text_int n Hn). reflexivity.
  - intros t0 t ts H0 Hlate.
    rewrite (part_ieee_stops _ t0 t ts H0 Hlate), Htarget, Hsuffix.
    change (@of_Z float ieee_number n) with (ieee_of_Z n).
    rewrite (ieee_text_int n Hn). reflexivity.
Qed.

Lemma counter_ends_on_number_then_rest_witness :
  Nat.iter 126 MainJs.animationFrame
    (MainJs.count_up 0 (@main_counter float ieee_number "$1,234,567 raised"))
  = main_ieee_done "1,234,567$ raised".
Proof.
  assert (Hn : 0 <= 1234567 < 2 ^ 53) by (split; [lia | reflexivity]).
  exact (proj1 (counter_ends_on_number_then_rest "$" " raised" 1234567 Hn eq_refl eq_refl)
           126%nat (le_n _)).
Defined.

(** ** Counters: what a frame shows *)

Lemma Qceiling_over_125 (a : Z) : Qceiling (a # 125) = (a + 124) / 125.
Proof.
  unfold Qceiling, Qfloor, Qopp. cbn [Qnum Qden].
  Z.div_mod_to_equations. lia.
Qed.

Lemma main_exact_frame_text (n : Z) (sfx s0 : string) (i : Q) (k : nat) :
  0 < n -> (i == n # 125)%Q -> (1 <= k <= 124)%nat ->
  exists c : Q,
    Nat.iter k MainJs.animationFrame (main_running s0 (main_closure n sfx i 0)) =
    main_running (group_int ((Z.of_nat k * n + 124) / 125)) (main_closure n sfx i c).
Proof.
  intros Hn Hi Hk. destruct k as [|k]; [lia|].
  destruct (main_exact_running n sfx s0 i k Hn Hi ltac:(lia)) as (s & c & Hrun & Hc).
  assert (Hc' : (Qred (c + i) == (Z.of_nat (S k) * n) # 125)%Q).
  { rewrite Qred_correct, Hc, Hi. unfold Qeq, Qplus. cbn [Qnum Qden]. lia. }
  rewrite Nat.iter_succ, Hrun, main_exact_frame. cbv zeta.
  assert (Hlt : Qltb (Qred (c + i)) (inject_Z n) = true).
  { apply Qltb_true. rewrite Hc'. unfold Qlt, inject_Z. cbn [Qnum Qden]. nia. }
  rewrite Hlt. exists (Qred (c + i)). f_equal.
  rewrite Hc', Qceiling_over_125. apply group_rational_int.
  apply Z.div_pos; nia.
Qed.

Lemma main_exact_frame_shows (text : string) (n : Z) (k : nat) :
  @parseInt exact exact_number (replace_non_digits text) = EFin (inject_Z n) ->
  0 < n -> (1 <= k <= 124)%nat ->
  let p := Nat.iter k MainJs.animationFrame
             (MainJs.count_up 0 (@main_counter exact exact_number text)) in
  MainJs.innerText p = [group_int ((Z.of_nat k * n + 124) / 125)] /\
  length (MainJs.frameRequests p) = 1%nat.
Proof.
  intros Hp Hn Hk. cbv zeta. rewrite main_count_up_single. unfold main_animation. rewrite Hp.
  set (i := Qred (inject_Z n / Qred (inject_Z 2000 / inject_Z 16))).
  assert (Hi : (i == n # 125)%Q).
  { subst i. rewrite Qred_correct.
    change (Qred (inject_Z 2000 / inject_Z 16)) with (125 # 1)%Q.
    unfold Qeq, Qdiv, Qmult, Qinv, inject_Z. cbn [Qnum Qden]. lia. }
  change (div (EFin (inject_Z n)) (div (of_Z 2000) (of_Z 16))) with (EFin i).
  change (of_Z 0) with (EFin 0).
  change {| MainJs.innerText := [text]; MainJs.frameRequests := [?a] |}
    with (main_running text a).
  fold (main_closure n (replace_digits_commas text) i 0).
  destruct (main_exact_frame_text n (replace_digits_commas text) text i k Hn Hi Hk)
    as (c & ->).
  split; reflexivity.
Qed.

(** X14.  In main.js, in exact arithmetic, a counter whose target is at
    most 124 shows the target, without its suffix, on the 124th frame,
    one frame before the final text. *)
Theorem main_small_target_shown_early (text : string) (n : Z) :
  @parseInt exact exact_number (replace_non_digits text) = EFin (inject_Z n) ->
  0 < n <= 124 ->
  let p := Nat.iter 124 MainJs.animationFrame
             (MainJs.count_up 0 (@main_counter exact exact_number text)) in
  MainJs.innerText p = [group_int n] /\ length (MainJs.frameRequests p) = 1%nat.
Proof.
  intros Hp Hn.
  destruct (main_exact_frame_shows text n 124 Hp ltac:(lia) ltac:(lia)) as [Ht Hr].
  cbv zeta in *. rewrite Ht, Hr. split; [|reflexivity].
  do 2 f_equal. change (Z.of_nat 124) with 124. Z.div_mod_to_equations. lia.
Qed.

Lemma main_small_target_shown_early_witness :
  MainJs.innerText
    (Nat.iter 124 MainJs.animationFrame
       (MainJs.count_up 0 (@main_counter exact exact_number "87%")))
  = ["87"%string].
Proof.
  exact (proj1 (main_small_target_shown_early "87%" 87 eq_refl ltac:(lia))).
Defined.

(** X16.  In part_000 a frame with timestamp 0 does not start the clock:
    [!startTime] holds of 0 as of [null], so the frames at 0 that come
    first leave the animation where a run without them would be.  In
    exact arithmetic, for every text. *)
Theorem zero_timestamps_do_not_start (text : string) (k : nat) (t : Q) (rest : list Q) :
  part_frames (repeat 0%Q k ++ t :: rest)
    (Part000.count_up 0 (@part_counter exact exact_number text)) =
  part_frames (t :: rest) (Part000.count_up 0 (@part_counter exact exact_number text)).
Proof.
  rewrite part_count_up_single.
  set (tg := @parseInt exact exact_number (replace_non_digits text)).
  set (sfx := replace_digits_commas text).
  change {| Part000.innerText := ["0"%string];
            Part000.frameRequests := [part_animation text] |}
    with (part_running "0" (part_closure tg sfx None)).
  assert (Hzeros : exists s1 st, (st = None \/ st = Some 0%Q) /\
            part_frames (repeat 0%Q k) (part_running "0" (part_closure tg sfx None)) =
            part_running s1 (part_closure tg sfx st)).
  { induction k as [|k (s1 & st & Hst & IH)]; [exists "0"%string, None; split; [left|]; reflexivity|].
    replace (repeat 0%Q (S k)) with (repeat 0%Q k ++ [0%Q]) by (symmetry; apply repeat_cons).
    unfold part_frames in *. rewrite foldl_app, IH. cbn [foldl]. rewrite part_exact_frame.
    destruct Hst as [-> | ->]; eexists; exists (Some 0%Q); (split; [right; reflexivity|]);
      reflexivity. }
  destruct Hzeros as (s1 & st & Hst & Hz).
  unfold part_frames in *. rewrite foldl_app, Hz. cbn [foldl]. rewrite !part_exact_frame.
  destruct Hst as [-> | ->]; reflexivity.
Qed.

(** X19.  The 126th frame of main.js is needed.  For the counter that
    shows "87%", 125 additions of 87 / 125 stay below 87 in binary64:
    after frame 125 the counter shows "87" and a frame is pending, and
    frame 126 writes "87%".  In exact arithmetic frame 125 writes it. *)
Theorem main_frame_126_is_needed :
  main_view (Nat.iter 125 MainJs.animationFrame
               (MainJs.count_up 0 (@main_counter float ieee_number "87%")))
  = (["87"%string], true) /\
  main_view (Nat.iter 126 MainJs.animationFrame
               (MainJs.count_up 0 (@main_counter float ieee_number "87%")))
  = (["87%"%string], false) /\
  main_view (Nat.iter 125 MainJs.animationFrame
               (MainJs.count_up 0 (@main_counter exact exact_number "87%")))
  = (["87%"%string], false).
Proof. repeat split; vm_compute; reflexivity. Qed.

(** ** Sticky header, threshold strategy: a run of scroll events *)

Lemma on_scroll_other (scrollY : Q) (cl : gset string) (c : string) :
  c <> "is-sticky"%string -> (c ∈ on_scroll scrollY cl <-> c ∈ cl).
Proof.
  intros Hne. unfold on_scroll, classList_add, classList_remove.
  destruct (Qltb stickyPoint scrollY).
  - rewrite elem_of_union, elem_of_singleton. tauto.
  - rewrite elem_of_difference, elem_of_singleton. tauto.
Qed.

Lemma scrolls_keep (ys : list Q) (p : StickyPage) (classes : gset string) (c : string) :
  header p = Some classes -> scrollListeners p = 1%nat -> c <> "is-sticky"%string ->
  let q := foldl (fun q y => scroll y q) p ys in
  scrollListeners q = 1%nat /\
  exists classes', header q = Some classes' /\ (c ∈ classes' <-> c ∈ classes).
Proof.
  intros Hh Hl Hne. revert p classes Hh Hl.
  induction ys as [|y ys IH]; intros p classes Hh Hl; cbn [foldl].
  - split; [exact Hl|]. exists classes. split; [exact Hh | reflexivity].
  - destruct (IH (scroll y p) (on_scroll y classes)) as (Hl' & classes' & Hh' & Hiff).
    + unfold scroll. cbn [header]. rewrite Hh, Hl. reflexivity.
    + exact Hl.
    + split; [exact Hl'|]. exists classes'. split; [exact Hh'|].
      rewrite Hiff. apply on_scroll_other. exact Hne.
Qed.

(** X17.  In main.js, after any run of scroll events the header is
    sticky exactly when the offset of the last event is above 10 px,
    whatever the offsets before were, and every other class of the
    header is as it was when the page was loaded. *)
Theorem sticky_follows_last_scroll (p : StickyPage) (classes : gset string)
    (ys : list Q) (y : Q) (c : string) :
  header p = Some classes -> scrollListeners p = 0%nat ->
  exists (p' : StickyPage) (classes' : gset string),
    initStickyHeader p = Returned p' /\
    header (scroll y (foldl (fun q y => scroll y q) p' ys)) = Some classes' /\
    ("is-sticky"%string ∈ classes' <-> (10 < y)%Q) /\
    (c <> "is-sticky"%string -> (c ∈ classes' <-> c ∈ classes)).
Proof.
  intros Hh Hl. unfold initStickyHeader. rewrite Hh, Hl.
  eexists. 
  destruct (decide (c = "is-sticky"%string)) as [-> | Hne].
  - destruct (scrolls_keep ys {| header := Some classes; scrollListeners := 1 |} classes
                "other"%string eq_refl eq_refl ltac:(discriminate))
      as (Hl' & classes' & Hh' & _). cbv zeta in Hl', Hh'.
    eexists. split; [reflexivity|]. unfold scroll at 1. rewrite Hh', Hl'.
    cbn [header fmap option_fmap option_map]. split; [reflexivity|].
    split; [apply (scroll_listeners_sticky 0) | intros H; contradiction].
  - destruct (scrolls_keep ys {| header := Some classes; scrollListeners := 1 |} classes
                c eq_refl eq_refl Hne)
      as (Hl' & classes' & Hh' & Hiff). cbv zeta in Hl', Hh'.
    eexists. split; [reflexivity|]. unfold scroll at 1. rewrite Hh', Hl'.
    cbn [header fmap option_fmap option_map]. split; [reflexivity|].
    split; [apply (scroll_listeners_sticky 0)|].
    intros _. rewrite <- Hiff. apply on_scroll_other. exact Hne.
Qed.

Lemma sticky_follows_last_scroll_witness :
  exists (p' : StickyPage) (classes' : gset string),
    initStickyHeader header_only = Returned p' /\
    header (scroll 3 (foldl (fun q y => scroll y q) p' [0; 250; 40]%Q)) = Some classes' /\
    "is-sticky"%string ∉ classes'.
Proof.
  destruct (sticky_follows_last_scroll header_only ∅ [0; 250; 40]%Q 3 "x" eq_refl eq_refl)
    as (p' & classes' & Hinit & Hh & Hiff & _).
  exists p', classes'. split; [exact Hinit|]. split; [exact Hh|].
  intros In. apply Hiff in In. revert In. apply Qle_not_lt. discriminate.
Defined.
